(** * function-calc-no-unspaced-operator

    A shallow embedding of the stylelint rule
    [lib/rules/function-calc-no-unspaced-operator/index.mjs] and the
    properties of its operator/sign analysis.

    JavaScript strings are sequences of code units; a text is modelled as a
    [list ascii], one [ascii] per code unit (texts whose code units are
    below 256).  JavaScript numbers used as indices are modelled as [Z], so
    that the [-1] of [String.prototype.search] and the negative positions of
    [Array.prototype.at] are the ones of the source. *)

From Stdlib Require Import ZArith Ascii String Bool Lia.
From stdpp Require Import base list strings.

Local Open Scope Z_scope.

Abbreviation text := (list ascii).

(** A string literal as a text. *)
Definition js (s : string) : text := list_ascii_of_string s.

(** ** String primitives *)

Module Str.

Definition len (s : text) : Z := Z.of_nat (length s).

(** [String.prototype.slice(start, end)]: negative positions count from
    the end, positions are clamped to the string. *)
Definition clamp (l i : Z) : Z :=
  if i <? 0 then Z.max (l + i) 0 else Z.min i l.

Definition slice (s : text) (start end_ : Z) : text :=
  let from := clamp (len s) start in
  let to := clamp (len s) end_ in
  take (Z.to_nat (to - from)) (drop (Z.to_nat from) s).

(** [slice(start)], the end left out. *)
Definition sliceFrom (s : text) (start : Z) : text :=
  slice s start (len s).

(** [String.prototype.charAt]: the empty string out of range. *)
Definition charAt (s : text) (i : Z) : text :=
  if (0 <=? i) && (i <? len s) then take 1 (drop (Z.to_nat i) s) else [].

(** Truthiness of a string: non-empty. *)
Definition truthy (s : text) : bool :=
  match s with [] => false | _ => true end.

Definition eqb (a b : text) : bool := bool_decide (a = b).

(** White space of [String.prototype.trim] among code units below 256:
    TAB, LF, VT, FF, CR, SP and NBSP. *)
Definition isWhiteSpace (c : ascii) : bool :=
  let n := nat_of_ascii c in
  ((9 <=? n) && (n <=? 13))%nat || (n =? 32)%nat || (n =? 160)%nat.

Fixpoint trimStart (s : text) : text :=
  match s with
  | c :: r => if isWhiteSpace c then trimStart r else s
  | [] => []
  end.

Definition trimEnd (s : text) : text := reverse (trimStart (reverse s)).

Definition trim (s : text) : text := trimEnd (trimStart s).

(** [String.prototype.search] for a pattern without anchors: the first
    position at which the pattern matches, [-1] when there is none.
    [matchesAt s] tells whether the pattern matches at the head of [s]. *)
Fixpoint search (matchesAt : text -> bool) (s : text) : Z :=
  match s with
  | [] => -1
  | _ :: r =>
      if matchesAt s then 0
      else let i := search matchesAt r in
           if i <? 0 then -1 else i + 1
  end.

Definition toLowerChar (c : ascii) : ascii :=
  let n := nat_of_ascii c in
  if ((65 <=? n) && (n <=? 90))%nat then ascii_of_nat (n + 32) else c.

Definition toLower (s : text) : text := map toLowerChar s.

(** Does [p] match at the head of [s], letter case ignored? *)
Fixpoint prefixCI (p s : text) : bool :=
  match p, s with
  | [], _ => true
  | a :: p', b :: s' =>
      bool_decide (toLowerChar a = toLowerChar b) && prefixCI p' s'
  | _ :: _, [] => false
  end.

(** [RegExp.prototype.test] for a pattern without anchors. *)
Fixpoint test (matchesAt : text -> bool) (s : text) : bool :=
  matchesAt s || match s with [] => false | _ :: r => test matchesAt r end.

End Str.

(** ** Value nodes *)

(** Modelled from the spec: the node type of postcss-value-parser is not
    under src/; a value is a tree of words, spaces, functions with their
    children, and other tokens that the rule passes over (section 3).  The
    rule reads [type], [value], [sourceIndex] and [nodes], and writes
    [value]. *)

#[warnings="-register-all"]
Inductive Node : Type :=
| WordNode (sourceIndex : Z) (value : text)
| SpaceNode (sourceIndex : Z) (value : text)
| FunctionNode (sourceIndex : Z) (value : text) (before after : text)
    (unclosed : bool) (nodes : list Node)
| DivNode (sourceIndex : Z) (value : text) (before after : text)
| StringNode (sourceIndex : Z) (value : text) (quote : text) (unclosed : bool)
| CommentNode (sourceIndex : Z) (value : text) (unclosed : bool)
| UnicodeRangeNode (sourceIndex : Z) (value : text).

Definition value (n : Node) : text :=
  match n with
  | WordNode _ v | SpaceNode _ v | FunctionNode _ v _ _ _ _ | DivNode _ v _ _
  | StringNode _ v _ _ | CommentNode _ v _ | UnicodeRangeNode _ v => v
  end.

Definition sourceIndex (n : Node) : Z :=
  match n with
  | WordNode i _ | SpaceNode i _ | FunctionNode i _ _ _ _ _ | DivNode i _ _ _
  | StringNode i _ _ _ | CommentNode i _ _ | UnicodeRangeNode i _ => i
  end.

(** [node.value = v] *)
Definition setValue (n : Node) (v : text) : Node :=
  match n with
  | WordNode i _ => WordNode i v
  | SpaceNode i _ => SpaceNode i v
  | FunctionNode i _ b a u ns => FunctionNode i v b a u ns
  | DivNode i _ b a => DivNode i v b a
  | StringNode i _ q u => StringNode i v q u
  | CommentNode i _ u => CommentNode i v u
  | UnicodeRangeNode i _ => UnicodeRangeNode i v
  end.

(** Modelled from the spec: the type guards of [utils/typeGuards.mjs] are
    not under src/; each one tests the kind of a node. *)
Definition isFunction (n : Node) : bool :=
  match n with FunctionNode _ _ _ _ _ _ => true | _ => false end.
Definition isSpace (n : Node) : bool :=
  match n with SpaceNode _ _ => true | _ => false end.
Definition isWord (n : Node) : bool :=
  match n with WordNode _ _ => true | _ => false end.

(** [nodes[i]]: [undefined] out of range, also for a negative [i]. *)
Definition at_index (nodes : list Node) (i : Z) : option Node :=
  if i <? 0 then None else nodes !! Z.to_nat i.

(** [nodes.at(i)]: a negative [i] counts from the end. *)
Definition at_ (nodes : list Node) (i : Z) : option Node :=
  if i <? 0 then at_index nodes (Z.of_nat (length nodes) + i) else at_index nodes i.

(** [nodes[i] = n] for a position the source knows to be in range (the
    nodes are objects mutated in place; the array keeps its length). *)
Definition store (nodes : list Node) (i : Z) (n : Node) : list Node :=
  if i <? 0 then nodes else <[Z.to_nat i := n]> nodes.

(** ** Diagnostics, and the state of one declaration's run

    [messages]: the three message builders of the rule, each applied to the
    operator's text. *)

Inductive Message : Type :=
| expectedBefore (operator : text)
| expectedAfter (operator : text)
| expectedOperatorBeforeSign (operator : text).

(** What [report] receives: the message and the span in the declaration. *)
Record Warning : Type := mkWarning
  { message : Message; index : Z; endIndex : Z }.

(** The variables the closures of one declaration share: the [needsFix]
    flag and the diagnostics handed to [report] so far, in order. *)
Record State : Type := mkState
  { needsFix : bool; warnings : list Warning }.

Inductive Error : Type :=
| AssertionError   (* a failed [assert] *)
| OutOfFuel.       (* the tree is deeper than the fuel given to [walk] *)

Inductive Outcome (A : Type) : Type :=
| Returned (a : A)
| Thrown (e : Error).
Arguments Returned {A} a.
Arguments Thrown {A} e.

(** State passing with exceptions; the state reached when the exception is
    thrown is kept. *)
Definition M (A : Type) : Type := State -> State * Outcome A.

Definition ret {A} (a : A) : M A := fun st => (st, Returned a).

Definition bind {A B} (m : M A) (k : A -> M B) : M B :=
  fun st =>
    match m st with
    | (st', Returned a) => k a st'
    | (st', Thrown e) => (st', Thrown e)
    end.

Definition throw {A} (e : Error) : M A := fun st => (st, Thrown e).

Declare Scope js_scope.
Delimit Scope js_scope with js.
Notation "x <- c1 ;; c2" := (bind c1 (fun x => c2))
  (at level 100, c1 at next level, right associativity) : js_scope.
Notation "c1 ;; c2" := (bind c1 (fun _ => c2))
  (at level 100, right associativity) : js_scope.
Local Open Scope js_scope.

(** [needsFix = true] *)
Definition setNeedsFix : M unit :=
  fun st => (mkState true (warnings st), Returned tt).

(** [report({ message, node, index, endIndex, result, ruleName })]: one
    more diagnostic for the result ([utils/report.mjs] is not under src/;
    section 6 gives its contract). *)
Definition report (w : Warning) : M unit :=
  fun st => (mkState (needsFix st) (warnings st ++ [w]), Returned tt).

(** Modelled from the spec: [assert] of [utils/validateTypes.mjs] is not
    under src/; an assumption that does not hold fails fast (section 7). *)
Definition assert {A} (x : option A) : M A :=
  match x with
  | Some a => ret a
  | None => throw AssertionError
  end.

(** ** Module constants *)

Definition OPERATORS : list text := [js "+"; js "-"].

(** [/[+-]/] at the head of a text. *)
Definition OPERATOR_REGEX (s : text) : bool :=
  match s with
  | c :: _ => bool_decide (c = "+"%char) || bool_decide (c = "-"%char)
  | [] => false
  end.

Definition ALL_OPERATORS : list text := OPERATORS ++ [js "*"; js "/"].

(** [/(\n|\r\n)/] at the head of a text. *)
Definition NEWLINE_REGEX (s : text) : bool :=
  match s with
  | c :: r =>
      bool_decide (c = "010"%char)
      || (bool_decide (c = "013"%char)
          && match r with d :: _ => bool_decide (d = "010"%char) | [] => false end)
  | [] => false
  end.

(** [Set.prototype.has] *)
Definition has (set : list text) (v : text) : bool := bool_decide (v ∈ set).

(** [isSingleSpace(node)] *)
Definition isSingleSpace (node : option Node) : bool :=
  match node with
  | Some n => isSpace n && Str.eqb (value n) (js " ")
  | None => false
  end.

(** [isOperator(node, operators = OPERATORS)] *)
Definition isOperator (node : option Node) (operators : list text) : bool :=
  match node with
  | Some n => isWord n && has operators (value n)
  | None => false
  end.

(** [insertCharAtIndex(str, index, char)] *)
Definition insertCharAtIndex (str : text) (index : Z) (char : text) : text :=
  Str.slice str 0 index ++ char ++ Str.slice str index (Str.len str).

(** [for (const x of l) body], the loop's variables threaded through. *)
Fixpoint forOf {A S : Type} (body : A -> S -> M S) (l : list A) (s : S) : M S :=
  match l with
  | [] => ret s
  | x :: r => s' <- body x s ;; forOf body r s'
  end.

Inductive Position : Type := before_ | after_.

(** ** The rule, for one declaration *)

Section Declaration.

(** [utils/isStandardSyntaxValue.mjs] and the name set of
    [reference/functions.mjs] are not under src/: they are parameters.  The
    names are taken to be plain ASCII identifiers (no character with a
    meaning in a regular expression). *)
Variable isStandardSyntaxValue : text -> bool.
Variable singleArgumentMathFunctions : list text.

(** [context.fix] and [declarationValueIndex(decl)]. *)
Variable context_fix : bool.
Variable valueIndex : Z.

(** The branches of [alternatives]; joining no name gives the empty
    pattern, which matches the empty text. *)
Definition alternatives : list text :=
  match singleArgumentMathFunctions with
  | [] => [[]]
  | names => names
  end.

(** [FUNC_NAMES_REGEX.test(name)]: the whole name is one of the
    alternatives, letter case ignored. *)
Definition FUNC_NAMES_REGEX_test (name : text) : bool :=
  existsb (fun f => bool_decide (Str.toLower f = Str.toLower name)) alternatives.

(** [FUNC_CALLS_REGEX.test(value)]: somewhere an alternative followed by
    an opening parenthesis. *)
Definition FUNC_CALLS_REGEX_test (v : text) : bool :=
  Str.test (fun s => existsb (fun f => Str.prefixCI (f ++ js "(") s) alternatives) v.

Definition complain (message : Message) (index : Z) (operator : text) : M unit :=
  let endIndex := index + Str.len operator in
  report (mkWarning message index endIndex).

(** Returns the space node as the call leaves it. *)
Definition checkSpaceAroundOperator
    (operatorNode spaceNode : Node) (position : Position) : M Node :=
  let indexOfFirstNewLine := Str.search NEWLINE_REGEX (value spaceNode) in
  if indexOfFirstNewLine =? 0 then ret spaceNode
  else if context_fix then
    setNeedsFix ;;
    ret (setValue spaceNode
           (if indexOfFirstNewLine =? -1 then js " "
            else Str.sliceFrom (value spaceNode) indexOfFirstNewLine))
  else
    let operator := value operatorNode in
    let operatorSourceIndex := sourceIndex operatorNode in
    let message :=
      match position with
      | before_ => expectedBefore operator
      | after_ => expectedAfter operator
      end in
    complain message (valueIndex + operatorSourceIndex) operator ;;
    ret spaceNode.

(** Returns the verdict and the nodes as the call leaves them. *)
Definition checkForOperatorInFirstNode (nodes : list Node) : M (bool * list Node) :=
  firstNode <- assert (head nodes) ;;
  if negb (isWord firstNode) then ret (false, nodes)
  else if negb (isStandardSyntaxValue (value firstNode)) then ret (false, nodes)
  else
    let operatorIndex := Str.search OPERATOR_REGEX (value firstNode) in
    if operatorIndex <=? 0 then ret (false, nodes)
    else
      let operator := Str.charAt (value firstNode) operatorIndex in
      let charBefore := Str.charAt (value firstNode) (operatorIndex - 1) in
      let charAfter := Str.charAt (value firstNode) (operatorIndex + 1) in
      nodes' <-
        (if Str.truthy charBefore && negb (Str.eqb charBefore (js " "))
            && Str.truthy charAfter && negb (Str.eqb charAfter (js " "))
         then
           if context_fix then
             setNeedsFix ;;
             let v1 := insertCharAtIndex (value firstNode) (operatorIndex + 1) (js " ") in
             let v2 := insertCharAtIndex v1 operatorIndex (js " ") in
             ret (store nodes 0 (setValue firstNode v2))
           else
             complain (expectedBefore operator)
               (valueIndex + sourceIndex firstNode + operatorIndex) operator ;;
             complain (expectedAfter operator)
               (valueIndex + sourceIndex firstNode + operatorIndex + 1) operator ;;
             ret nodes
         else if Str.truthy charBefore && negb (Str.eqb charBefore (js " "))
         then
           if context_fix then
             setNeedsFix ;;
             ret (store nodes 0
                    (setValue firstNode
                       (insertCharAtIndex (value firstNode) operatorIndex (js " "))))
           else
             complain (expectedBefore operator)
               (valueIndex + sourceIndex firstNode + operatorIndex) operator ;;
             ret nodes
         else ret nodes) ;;
      ret (true, nodes').

Definition checkForOperatorInLastNode (nodes : list Node) : M (bool * list Node) :=
  if Z.of_nat (length nodes) =? 1 then ret (false, nodes)
  else
    lastNode <- assert (at_ nodes (-1)) ;;
    if negb (isWord lastNode) then ret (false, nodes)
    else
      let operatorIndex := Str.search OPERATOR_REGEX (value lastNode) in
      if operatorIndex =? -1 then ret (false, nodes)
      else if isOperator (at_ nodes (-3)) ALL_OPERATORS && isSingleSpace (at_ nodes (-2))
      then ret (false, nodes)
      else if context_fix then
        setNeedsFix ;;
        let v1 := Str.trim (insertCharAtIndex (value lastNode) (operatorIndex + 1) (js " ")) in
        let v2 := Str.trim (insertCharAtIndex v1 operatorIndex (js " ")) in
        ret (true, store nodes (Z.of_nat (length nodes) - 1) (setValue lastNode v2))
      else
        let operator := Str.charAt (value lastNode) operatorIndex in
        complain (expectedOperatorBeforeSign operator)
          (valueIndex + sourceIndex lastNode + operatorIndex) operator ;;
        ret (true, nodes).

(** One side of one operator: the neighbour is checked when it is a space
    other than a single space. *)
Definition checkNeighbour
    (operatorNode : Node) (i : Z) (position : Position) (nodes : list Node)
  : M (list Node) :=
  match at_index nodes i with
  | Some neighbour =>
      if isSpace neighbour && negb (Str.eqb (value neighbour) (js " ")) then
        neighbour' <- checkSpaceAroundOperator operatorNode neighbour position ;;
        ret (store nodes i neighbour')
      else ret nodes
  | None => ret nodes
  end.

(** The body of the loop over [nodes.entries()]; the loop's variables are
    [foundOperatorNode] and the nodes. *)
Definition operatorLoopBody (nodeIndex : Z) (vars : bool * list Node)
  : M (bool * list Node) :=
  let '(foundOperatorNode, nodes) := vars in
  match at_index nodes nodeIndex with
  | Some operatorNode =>
      if negb (isOperator (Some operatorNode) OPERATORS) then ret vars
      else
        nodes1 <- checkNeighbour operatorNode (nodeIndex - 1) before_ nodes ;;
        nodes2 <- checkNeighbour operatorNode (nodeIndex + 1) after_ nodes1 ;;
        ret (true, nodes2)
  | None => ret vars
  end.

Definition operatorLoop (nodes : list Node) : M (bool * list Node) :=
  forOf operatorLoopBody (seqZ 0 (Z.of_nat (length nodes))) (false, nodes).

(** What the walk's callback does with the children of a matched function. *)
Definition checkFunctionNodes (nodes : list Node) : M (list Node) :=
  r <- operatorLoop nodes ;;
  let '(foundOperatorNode, nodes1) := r in
  if negb foundOperatorNode then
    r1 <- checkForOperatorInFirstNode nodes1 ;;
    let '(first, nodes2) := r1 in
    if first then ret nodes2
    else
      r2 <- checkForOperatorInLastNode nodes2 ;;
      ret (snd r2)
  else ret nodes1.

(** The callback given to [parsedValue.walk]. *)
Definition callback (node : Node) : M Node :=
  match node with
  | FunctionNode i name b a u nodes =>
      if negb (FUNC_NAMES_REGEX_test name) then ret node
      else
        nodes' <- checkFunctionNodes nodes ;;
        ret (FunctionNode i name b a u nodes')
  | _ => ret node
  end.

(** Modelled from the spec: [walk] of postcss-value-parser is not under
    src/; it calls the callback on every node in order and recurses into
    every function node at any depth (section 4.4).  [rec] walks the
    children of a function node. *)
Definition walkWith (rec : list Node -> M (list Node)) : list Node -> M (list Node) :=
  fix loop (nodes : list Node) : M (list Node) :=
    match nodes with
    | [] => ret []
    | node :: rest =>
        node1 <- callback node ;;
        node2 <-
          match node1 with
          | FunctionNode i name b a u children =>
              children' <- rec children ;;
              ret (FunctionNode i name b a u children')
          | _ => ret node1
          end ;;
        rest' <- loop rest ;;
        ret (node2 :: rest')
    end.

Fixpoint walk (fuel : nat) : list Node -> M (list Node) :=
  match fuel with
  | O => walkWith (fun _ => throw OutOfFuel)
  | S fuel' => walkWith (walk fuel')
  end.

End Declaration.

(** The nesting depth of a node list: the fuel that [walk] needs. *)
Fixpoint depthNode (n : Node) : nat :=
  match n with
  | FunctionNode _ _ _ _ _ nodes =>
      S ((fix depthList (l : list Node) : nat :=
            match l with
            | [] => O
            | x :: r => Nat.max (depthNode x) (depthList r)
            end) nodes)
  | _ => O
  end.

Definition depth (nodes : list Node) : nat :=
  foldr (fun n d => Nat.max (depthNode n) d) O nodes.

(** Modelled from the spec: the serializer ([toString] of
    postcss-value-parser) is not under src/; it renders the tree back to
    text (section 6). *)
Fixpoint stringifyNode (n : Node) : text :=
  match n with
  | WordNode _ v | SpaceNode _ v | UnicodeRangeNode _ v => v
  | StringNode _ v q u => q ++ v ++ (if u then [] else q)
  | CommentNode _ v u => js "/*" ++ v ++ (if u then [] else js "*/")
  | DivNode _ v b a => b ++ v ++ a
  | FunctionNode _ v b a u nodes =>
      v ++ js "(" ++ b
        ++ (fix stringify (l : list Node) : text :=
              match l with
              | [] => []
              | x :: r => stringifyNode x ++ stringify r
              end) nodes
        ++ a ++ (if u then [] else js ")")
  end.

Definition toString (nodes : list Node) : text :=
  foldr (fun n t => stringifyNode n ++ t) [] nodes.

(** Modelled from the spec: [getDeclarationValue], [setDeclarationValue]
    and [declarationValueIndex] are not under src/.  A declaration, as far
    as the rule looks at it, is the text that the first one reads and the
    second one writes, and the offset of the value that the third one
    gives (section 3). *)
Record Declaration : Type := mkDecl
  { declValue : text; declValueIndex : Z }.

Definition getDeclarationValue (decl : Declaration) : text := declValue decl.

Definition setDeclarationValue (decl : Declaration) (v : text) : Declaration :=
  mkDecl v (declValueIndex decl).

Definition getNeedsFix : M bool := fun st => (st, Returned (needsFix st)).

Section Rule.

Variable isStandardSyntaxValue : text -> bool.
Variable singleArgumentMathFunctions : list text.

(** The tokenizer ([valueParser] of postcss-value-parser) is not under
    src/: it is a parameter. *)
Variable valueParser : text -> list Node.

Variable context_fix : bool.

(** The callback given to [root.walkDecls]; returns the declaration as the
    call leaves it. *)
Definition walkDeclsCallback (decl : Declaration) : M Declaration :=
  let value := getDeclarationValue decl in
  if negb (Str.test OPERATOR_REGEX value) then ret decl
  else if negb (FUNC_CALLS_REGEX_test singleArgumentMathFunctions value) then ret decl
  else
    let valueIndex := declValueIndex decl in
    let parsedValue := valueParser value in
    parsedValue' <-
      walk isStandardSyntaxValue singleArgumentMathFunctions context_fix valueIndex
        (depth parsedValue) parsedValue ;;
    fix_ <- getNeedsFix ;;
    if fix_ then ret (setDeclarationValue decl (toString parsedValue'))
    else ret decl.

(** One declaration's run: the declaration afterwards, the diagnostics
    reported, and the exception when one was thrown ([needsFix] starts as
    [false]; a run that throws writes nothing back). *)
Record Run : Type := mkRun
  { declAfter : Declaration; reported : list Warning; thrown : option Error }.

Definition rule (decl : Declaration) : Run :=
  match walkDeclsCallback decl (mkState false []) with
  | (st, Returned decl') => mkRun decl' (warnings st) None
  | (st, Thrown e) => mkRun decl (warnings st) (Some e)
  end.

End Rule.

Arguments mkRun declAfter reported thrown : assert.

(** ** Collaborators for the examples

    The tokenizer, the standard-syntax test and the name set are external to
    the rule.  The theorems below hold for every choice of them; the
    examples and counterexamples run the rule with the ones of this module. *)

Module Model.

(** Modelled from the spec: the name set of [reference/functions.mjs] is not
    under src/; the spec's examples call [calc]. *)
Definition singleArgumentMathFunctions : list text := [js "calc"].

(** Modelled from the spec: [utils/isStandardSyntaxValue.mjs] is not under
    src/; a text is standard unless it is a placeholder or an interpolation
    (section 6), taken here as a text that holds a dollar sign, an at sign
    or a hash followed by a brace. *)
Definition isStandardSyntaxValue (v : text) : bool :=
  negb (Str.test
          (fun s =>
             match s with
             | c :: r =>
                 bool_decide (c = "$"%char) || bool_decide (c = "@"%char)
                 || (bool_decide (c = "#"%char)
                     && match r with d :: _ => bool_decide (d = "{"%char) | [] => false end)
             | [] => false
             end) v).

(** An open function of the tokenizer: where its name starts, the name, the
    white space after the parenthesis, and the tokens before it on the
    level that holds it (last first). *)
Record Frame : Type := mkFrame
  { frameIndex : Z; frameName : text; frameBefore : text; frameOuter : list Node }.

Definition isSpaceCode (c : ascii) : bool := (nat_of_ascii c <=? 32)%nat.

Fixpoint span (p : ascii -> bool) (s : text) : text * text :=
  match s with
  | c :: r => if p c then let '(a, b) := span p r in (c :: a, b) else ([], s)
  | [] => ([], [])
  end.

Definition isChar (c : ascii) (o : option ascii) : bool :=
  match o with Some d => bool_decide (c = d) | None => false end.

(** The characters of a word after its first one: up to white space, a
    divider, a parenthesis (a closing one only inside a function) or, in
    [calc], a star; a backslash takes the next character with it. *)
Fixpoint scanWord (inFunction inCalc : bool) (s : text) : text * text :=
  match s with
  | [] => ([], [])
  | c :: r =>
      if isSpaceCode c || bool_decide (c = ","%char) || bool_decide (c = ":"%char)
         || bool_decide (c = "/"%char) || bool_decide (c = "("%char)
         || (bool_decide (c = "*"%char) && inCalc)
         || (bool_decide (c = ")"%char) && inFunction)
      then ([], s)
      else if bool_decide (c = "\"%char) then
        match r with
        | d :: r' => let '(w, rest) := scanWord inFunction inCalc r' in (c :: d :: w, rest)
        | [] => ([c], [])
        end
      else let '(w, rest) := scanWord inFunction inCalc r in (c :: w, rest)
  end.

Definition closeFrame (f : Frame) (after : text) (unclosed : bool) (tokens : list Node)
  : list Node :=
  FunctionNode (frameIndex f) (frameName f) (frameBefore f) after unclosed (reverse tokens)
    :: frameOuter f.

(** At the end of the input the functions still open are unclosed. *)
Fixpoint finish (stack : list Frame) (tokens : list Node) : list Node :=
  match stack with
  | [] => reverse tokens
  | f :: stack' => finish stack' (closeFrame f [] true tokens)
  end.

(** Modelled from the spec: the tokenizer ([valueParser] of
    postcss-value-parser) is not under src/; it turns a value into words,
    spaces, functions with their children, and punctuation (sections 2 and
    3).  White space next to a parenthesis or a divider belongs to the
    function or the divider; inside [calc] a star or a slash is a word.
    Quoted strings, comments, [url(] and unicode ranges get no treatment of
    their own here.  [tokens] is the current level, last token first. *)
Fixpoint parse (fuel : nat) (pos : Z) (input : text) (stack : list Frame)
    (tokens : list Node) (name before after : text) : list Node :=
  match fuel, input with
  | O, _ | _, [] => finish stack tokens
  | S fuel', c :: input' =>
      let inFunction := match stack with [] => false | _ => true end in
      let inCalc :=
        match stack with f :: _ => Str.eqb (frameName f) (js "calc") | [] => false end in
      if isSpaceCode c then
        let '(token, rest) := span isSpaceCode input in
        let next := pos + Str.len token in
        let code := head rest in
        if isChar ")"%char code && inFunction then
          parse fuel' next rest stack tokens name before token
        else
          match tokens with
          | DivNode i v b _ :: tokens' =>
              parse fuel' next rest stack (DivNode i v b token :: tokens') name before after
          | _ =>
              if isChar ","%char code || isChar ":"%char code
                 || (isChar "/"%char code && negb (isChar "*"%char (head (tail rest)))
                     && negb inCalc)
              then parse fuel' next rest stack tokens name token after
              else parse fuel' next rest stack (SpaceNode pos token :: tokens)
                     name before after
          end
      else if (bool_decide (c = "/"%char) || bool_decide (c = "*"%char)) && inCalc then
        parse fuel' (pos + 1) input' stack
          (WordNode (pos - Str.len before) [c] :: tokens) name before after
      else if bool_decide (c = "/"%char) || bool_decide (c = ","%char)
              || bool_decide (c = ":"%char) then
        parse fuel' (pos + 1) input' stack
          (DivNode (pos - Str.len before) [c] before [] :: tokens) name [] after
      else if bool_decide (c = "("%char) then
        let '(ws, rest) := span isSpaceCode input' in
        parse fuel' (pos + 1 + Str.len ws) rest
          (mkFrame (pos - Str.len name) name ws tokens :: stack) [] [] before after
      else
        match bool_decide (c = ")"%char), stack with
        | true, f :: stack' =>
            parse fuel' (pos + 1) input' stack' (closeFrame f after false tokens)
              name before []
        | _, _ =>
            let '(w, rest) :=
              if bool_decide (c = "\"%char) then
                match input' with
                | d :: r => let '(w, rest) := scanWord inFunction inCalc r in (c :: d :: w, rest)
                | [] => ([c], [])
                end
              else let '(w, rest) := scanWord inFunction inCalc input' in (c :: w, rest) in
            let next := pos + Str.len w in
            if isChar "("%char (head rest)
            then parse fuel' next rest stack tokens w before after
            else parse fuel' next rest stack (WordNode pos w :: tokens) name before after
        end
  end.

Definition valueParser (v : text) : list Node :=
  parse (S (length v)) 0 v [] [] [] [] [].

(** The rule with these collaborators. *)
Definition rule (context_fix : bool) (decl : Declaration) : Run :=
  rule isStandardSyntaxValue singleArgumentMathFunctions valueParser context_fix decl.

End Model.

(** * The vocabulary of the statements *)

(** A node that [checkSpaceAroundOperator] would not leave alone: a space
    other than a single space whose text does not begin with a newline. *)
Definition needsRewrite (n : Node) : bool :=
  isSpace n && negb (Str.eqb (value n) (js " "))
  && negb (Str.search NEWLINE_REGEX (value n) =? 0).

(** The text the fix gives such a space. *)
Definition rewrittenText (v : text) : text :=
  let i := Str.search NEWLINE_REGEX v in
  if i =? -1 then js " " else Str.sliceFrom v i.

(** The node as the fix leaves it. *)
Definition fixNode (n : Node) : Node :=
  if needsRewrite n then setValue n (rewrittenText (value n)) else n.

(** The diagnostic for one side of a standalone operator. *)
Definition spacingWarning (valueIndex : Z) (op : Node) (position : Position) : Warning :=
  mkWarning
    (match position with
     | before_ => expectedBefore (value op)
     | after_ => expectedAfter (value op)
     end)
    (valueIndex + sourceIndex op)
    (valueIndex + sourceIndex op + Str.len (value op)).

(** Is there a standalone operator at position [i]? *)
Definition operatorAt (nodes : list Node) (i : Z) : bool :=
  isOperator (at_index nodes i) OPERATORS.

(** [fixNode] applied at one position, when there is a node there. *)
Definition fixAt (nodes : list Node) (i : Z) : list Node :=
  match at_index nodes i with
  | Some n => store nodes i (fixNode n)
  | None => nodes
  end.

Definition needsRewriteAt (nodes : list Node) (i : Z) : bool :=
  match at_index nodes i with
  | Some n => needsRewrite n
  | None => false
  end.

(** The diagnostics of the loop body at position [k], fix mode off. *)
Definition sideWarning (valueIndex : Z) (nodes : list Node) (op : Node)
    (i : Z) (position : Position) : list Warning :=
  match at_index nodes i with
  | Some n => if needsRewrite n then [spacingWarning valueIndex op position] else []
  | None => []
  end.

Definition stepWarnings (valueIndex : Z) (nodes : list Node) (k : Z) : list Warning :=
  match at_index nodes k with
  | Some op =>
      if isOperator (Some op) OPERATORS
      then sideWarning valueIndex nodes op (k - 1) before_
           ++ sideWarning valueIndex nodes op (k + 1) after_
      else []
  | None => []
  end.

(** Does the list hold a standalone operator? *)
Definition hasOperator (nodes : list Node) : bool :=
  existsb (fun n => isOperator (Some n) OPERATORS) nodes.

(** A position next to a standalone operator. *)
Definition adjacent (nodes : list Node) (j : Z) : Prop :=
  operatorAt nodes (j + 1) = true \/ operatorAt nodes (j - 1) = true.

#[local] Instance adjacent_dec nodes j : Decision (adjacent nodes j).
Proof. unfold adjacent. apply _. Defined.

(** The loop at position [k] has passed an operator next to position [j]. *)
Definition reached (nodes : list Node) (k j : Z) : Prop :=
  (operatorAt nodes (j + 1) = true /\ j + 1 < k)
  \/ (operatorAt nodes (j - 1) = true /\ j - 1 < k).

#[local] Instance reached_dec nodes k j : Decision (reached nodes k j).
Proof. unfold reached. apply _. Defined.

(** The invariant of the loop in fix mode, before position [k]: the spaces
    next to an operator below [k] are fixed and the other nodes are as they
    were in [nodes]; [needsFix] is set when one of them needed it. *)
Definition fixInv (nodes : list Node) (st0 : State) (k : Z)
    (s : bool * list Node) (st : State) : Prop :=
  length s.2 = length nodes
  /\ (forall j, at_index s.2 j
                = (fun n => if decide (reached nodes k j) then fixNode n else n)
                    <$> at_index nodes j)
  /\ (s.1 = true <-> exists i, 0 <= i < k /\ operatorAt nodes i = true)
  /\ warnings st = warnings st0
  /\ (needsFix st = true
      <-> needsFix st0 = true
          \/ exists j, reached nodes k j /\ needsRewriteAt nodes j = true).

(** The position of the neighbour on one side of position [i]. *)
Definition neighbourIndex (i : Z) (position : Position) : Z :=
  match position with
  | before_ => i - 1
  | after_ => i + 1
  end.

(** The first child qualifies for the leading-sign check: a word of
    standard syntax with an operator character after its first
    character. *)
Definition firstQualifies (isStandardSyntaxValue : text -> bool) (nodes : list Node) : bool :=
  match head nodes with
  | Some firstNode =>
      isWord firstNode && isStandardSyntaxValue (value firstNode)
      && (0 <? Str.search OPERATOR_REGEX (value firstNode))
  | None => false
  end.

(** The character at [i] has a character other than a space on both
    sides, or before it. *)
Definition gluedBothSides (v : text) (i : Z) : bool :=
  Str.truthy (Str.charAt v (i - 1)) && negb (Str.eqb (Str.charAt v (i - 1)) (js " "))
  && Str.truthy (Str.charAt v (i + 1)) && negb (Str.eqb (Str.charAt v (i + 1)) (js " ")).

Definition gluedBefore (v : text) (i : Z) : bool :=
  Str.truthy (Str.charAt v (i - 1)) && negb (Str.eqb (Str.charAt v (i - 1)) (js " ")).

(** The trailing-sign check flags the last child: there is more than one
    child, the last one is a word with an operator character, and it does
    not follow an operator and a single space. *)
Definition lastFlagged (nodes : list Node) : bool :=
  negb (Z.of_nat (length nodes) =? 1)
  && match at_ nodes (-1) with
     | Some lastNode =>
         isWord lastNode
         && negb (Str.search OPERATOR_REGEX (value lastNode) =? -1)
         && negb (isOperator (at_ nodes (-3)) ALL_OPERATORS
                  && isSingleSpace (at_ nodes (-2)))
     | None => false
     end.

(** The line feed, as a text. *)
Definition LF : text := ["010"%char].

(** What the callback may do to a child: nothing, or give a new text to a
    child that is not a function. *)
Definition touched (a b : Node) : Prop :=
  a = b \/ (isFunction a = false /\ exists v, b = setValue a v).

(** A computation keeps a relation between the state before and after. *)
Definition keeps (R : State -> State -> Prop) {A : Type} (m : M A) : Prop :=
  forall st, R st (m st).1.

(** What the callback did to a node: to a function node, what it did to
    the children; to another node, nothing. *)
Definition touchedNode (node node' : Node) : Prop :=
  match node with
  | FunctionNode i name b a u children =>
      exists children', node' = FunctionNode i name b a u children'
                        /\ Forall2 touched children children'
  | _ => node' = node
  end.

Section WalkLevels.

Variable isStandardSyntaxValue : text -> bool.
Variable singleArgumentMathFunctions : list text.
Variable context_fix : bool.
Variable valueIndex : Z.

(** The walk of the children of a function node, with the fuel left. *)
Definition walkChildren (fuel : nat) : list Node -> M (list Node) :=
  match fuel with
  | O => fun _ => throw OutOfFuel
  | S fuel' =>
      walk isStandardSyntaxValue singleArgumentMathFunctions context_fix valueIndex fuel'
  end.

(** What the walk does with a node after the callback. *)
Definition descend (fuel : nat) (node1 : Node) : M Node :=
  match node1 with
  | FunctionNode i name b a u children =>
      bind (walkChildren fuel children) (fun children' => ret (FunctionNode i name b a u children'))
  | _ => ret node1
  end.

End WalkLevels.

(** The two relations that the modes keep: check mode leaves [needsFix]
    alone, fix mode leaves the diagnostics alone. *)
Definition sameNeedsFix (st st' : State) : Prop := needsFix st' = needsFix st.
Definition sameWarnings (st st' : State) : Prop := warnings st' = warnings st.

#[local] Instance sameNeedsFix_refl : Reflexive sameNeedsFix.
Proof. by intros st. Qed.
#[local] Instance sameNeedsFix_trans : Transitive sameNeedsFix.
Proof. unfold sameNeedsFix. intros a b c H1 H2. congruence. Qed.
#[local] Instance sameWarnings_refl : Reflexive sameWarnings.
Proof. by intros st. Qed.
#[local] Instance sameWarnings_trans : Transitive sameWarnings.
Proof. unfold sameWarnings. intros a b c H1 H2. congruence. Qed.

(** [P name children] holds of every function node, at any depth. *)
Fixpoint everyFunction (P : text -> list Node -> bool) (n : Node) : bool :=
  match n with
  | FunctionNode _ name _ _ _ nodes =>
      P name nodes
      && (fix everyChild (l : list Node) : bool :=
            match l with
            | [] => true
            | x :: r => everyFunction P x && everyChild r
            end) nodes
  | _ => true
  end.

Definition everyFunctionIn (P : text -> list Node -> bool) (nodes : list Node) : bool :=
  forallb (everyFunction P) nodes.

(** No function node with a matched name has an empty list of children. *)
Definition noEmptyMatched (names : list text) (nodes : list Node) : bool :=
  everyFunctionIn
    (fun name children =>
       negb (FUNC_NAMES_REGEX_test names name)
       || match children with [] => false | _ => true end)
    nodes.

(** No space next to a standalone operator needs a rewrite. *)
Definition quiet (nodes : list Node) : Prop :=
  forall j, adjacent nodes j -> needsRewriteAt nodes j = false.

Definition quietb (nodes : list Node) : bool :=
  forallb (fun j => negb (bool_decide (adjacent nodes j) && needsRewriteAt nodes j))
    (seqZ 0 (Z.of_nat (length nodes))).


(** Every matched function has a standalone operator among its children,
    and no space next to one needs a rewrite. *)
Definition settled (names : list text) (nodes : list Node) : bool :=
  everyFunctionIn
    (fun name children =>
       negb (FUNC_NAMES_REGEX_test names name) || (hasOperator children && quietb children))
    nodes.

(** The operator text that a message names. *)
Definition operatorOf (m : Message) : text :=
  match m with
  | expectedBefore o | expectedAfter o | expectedOperatorBeforeSign o => o
  end.

(** A diagnostic that names [+] or [-] and spans one character. *)
Definition oneCharWarning (w : Warning) : Prop :=
  (operatorOf (message w) = js "+" \/ operatorOf (message w) = js "-")
  /\ endIndex w = index w + 1.

(** The diagnostics so far are of that kind, and stay so. *)
Definition keepsOneChar (st st' : State) : Prop :=
  Forall oneCharWarning (warnings st) -> Forall oneCharWarning (warnings st').

#[local] Instance keepsOneChar_refl : Reflexive keepsOneChar.
Proof. intros st H. exact H. Qed.
#[local] Instance keepsOneChar_trans : Transitive keepsOneChar.
Proof. unfold keepsOneChar. intros a b c H1 H2. auto. Qed.

(** [needsFix], once set, stays set. *)
Definition needsFixStays (st st' : State) : Prop :=
  needsFix st = true -> needsFix st' = true.

#[local] Instance needsFixStays_refl : Reflexive needsFixStays.
Proof. intros st H. exact H. Qed.
#[local] Instance needsFixStays_trans : Transitive needsFixStays.
Proof. unfold needsFixStays. intros a b c H1 H2. auto. Qed.

(** A node without the texts that the rule may write: the text of every
    word and of every space, at any depth, is emptied. *)
Fixpoint eraseNode (n : Node) : Node :=
  match n with
  | WordNode i _ => WordNode i []
  | SpaceNode i _ => SpaceNode i []
  | FunctionNode i name b a u nodes => FunctionNode i name b a u (map eraseNode nodes)
  | _ => n
  end.

(** A text without a white space character. *)
Definition noWhiteSpace (v : text) : bool :=
  forallb (fun c => negb (Str.isWhiteSpace c)) v.

(** No function node, at any depth, has a matched name. *)
Definition unmatched (names : list text) (nodes : list Node) : bool :=
  everyFunctionIn (fun name _ => negb (FUNC_NAMES_REGEX_test names name)) nodes.

(** A sign with one space between it and what stands before it, and one
    between it and what stands after it. *)
Definition spacedSign (pre : text) (c : ascii) (post : text) : text :=
  match pre with [] => [] | _ => pre ++ js " " end
  ++ c :: match post with [] => [] | _ => js " " ++ post end.

(** What the rule may do to a node: nothing, or give a new text to a word
    or to a space. *)
Definition rewritten (a b : Node) : Prop :=
  a = b \/ ((isWord a = true \/ isSpace a = true) /\ exists v, b = setValue a v).

(** ** Reading a written value again *)

(** A node without its source position, at any depth. *)
Fixpoint forgetIndex (n : Node) : Node :=
  match n with
  | WordNode _ v => WordNode 0 v
  | SpaceNode _ v => SpaceNode 0 v
  | FunctionNode _ name b a u nodes => FunctionNode 0 name b a u (map forgetIndex nodes)
  | DivNode _ v b a => DivNode 0 v b a
  | StringNode _ v q u => StringNode 0 v q u
  | CommentNode _ v u => CommentNode 0 v u
  | UnicodeRangeNode _ v => UnicodeRangeNode 0 v
  end.

(** The maximal runs of spaces, and of other characters, of a text, in
    order; [true] marks a run of spaces. *)
Fixpoint runs (w : text) : list (bool * text) :=
  match w with
  | [] => []
  | c :: r =>
      let sp := bool_decide (c = " "%char) in
      match runs r with
      | (b, t) :: rest =>
          if Bool.eqb b sp then (b, c :: t) :: rest else (sp, [c]) :: (b, t) :: rest
      | [] => [(sp, [c])]
      end
  end.

(** Modelled from the spec: the tokenizer is not under src/; it ends a
    word at white space (sections 2 and 3), so the text of a word into which
    the fix has put spaces is read back as the words between the spaces and
    the spaces. *)
Definition retokenize (w : text) : list Node :=
  map (fun r : bool * text => if r.1 then SpaceNode 0 r.2 else WordNode 0 r.2) (runs w).

(** The tokens that a tree is read back as once it is written out, source
    positions left out: every word is cut at its spaces, every other token
    is read as it was written. *)
Fixpoint rereadNode (n : Node) : list Node :=
  match n with
  | WordNode _ v => retokenize v
  | FunctionNode _ name b a u nodes =>
      [FunctionNode 0 name b a u (flat_map rereadNode nodes)]
  | _ => [forgetIndex n]
  end.

Definition reread (nodes : list Node) : list Node := flat_map rereadNode nodes.

(** The tree that the fix-mode walk of a run leaves (the tree given, when
    the walk throws). *)
Definition walked (isStandardSyntaxValue : text -> bool) (names : list text)
    (valueIndex : Z) (nodes : list Node) : list Node :=
  match walk isStandardSyntaxValue names true valueIndex (depth nodes) nodes
          (mkState false []) with
  | (_, Returned nodes') => nodes'
  | (_, Thrown _) => nodes
  end.

(** A node that is not a word, or a word whose text is not empty and has
    no white space. *)
Definition plainWord (n : Node) : bool :=
  negb (isWord n) || (Str.truthy (value n) && noWhiteSpace (value n)).

(** Every word among the children of a matched function is of that kind. *)
Definition plainWords (names : list text) (nodes : list Node) : bool :=
  everyFunctionIn
    (fun name children => negb (FUNC_NAMES_REGEX_test names name) || forallb plainWord children)
    nodes.

(** The sign that a sign check would separate would stand, as a token of
    its own, next to a space that needs a rewrite.  The leading check leaves
    the sign (or a second sign right after it) at the end of the first word
    when nothing else follows it there, so next to the second child; the
    trailing check leaves the sign at the start of the last word when it
    begins the word, so next to the child before the last. *)
Definition exposes (isStandardSyntaxValue : text -> bool) (nodes : list Node) : bool :=
  negb (hasOperator nodes)
  && if firstQualifies isStandardSyntaxValue nodes then
       match head nodes with
       | Some firstNode =>
           let after :=
             Str.sliceFrom (value firstNode)
               (Str.search OPERATOR_REGEX (value firstNode) + 1) in
           (negb (Str.truthy after) || has OPERATORS after) && needsRewriteAt nodes 1
       | None => false
       end
     else
       lastFlagged nodes
       && match at_ nodes (-1) with
          | Some lastNode => Str.search OPERATOR_REGEX (value lastNode) =? 0
          | None => false
          end
       && needsRewriteAt nodes (Z.of_nat (length nodes) - 2).

(** No matched function, at any depth, is in that case. *)
Definition noSignExposed (isStandardSyntaxValue : text -> bool) (names : list text)
    (nodes : list Node) : bool :=
  everyFunctionIn
    (fun name children =>
       negb (FUNC_NAMES_REGEX_test names name) || negb (exposes isStandardSyntaxValue children))
    nodes.





(** * Examples of the collaborators *)

Example parse_calc_glued :
  Model.valueParser (js "calc(1px+1px)")
  = [FunctionNode 0 (js "calc") [] [] false [WordNode 5 (js "1px+1px")]].
Proof. reflexivity. Qed.

Example parse_calc_times_sign :
  Model.valueParser (js "calc(10px * -2)")
  = [FunctionNode 0 (js "calc") [] [] false
       [WordNode 5 (js "10px"); SpaceNode 9 (js " "); WordNode 10 (js "*");
        SpaceNode 11 (js " "); WordNode 12 (js "-2")]].
Proof. reflexivity. Qed.

Example parse_empty_calc :
  Model.valueParser (js "a-b calc()")
  = [WordNode 0 (js "a-b"); SpaceNode 3 (js " ");
     FunctionNode 4 (js "calc") [] [] false []].
Proof. reflexivity. Qed.

Example parse_nested :
  Model.valueParser (js "translate( calc(1px -  2px) , 3px)")
  = [FunctionNode 0 (js "translate") (js " ") [] false
       [FunctionNode 11 (js "calc") [] [] false
          [WordNode 16 (js "1px"); SpaceNode 19 (js " "); WordNode 20 (js "-");
           SpaceNode 21 (js "  "); WordNode 23 (js "2px")];
        DivNode 27 (js ",") (js " ") (js " "); WordNode 30 (js "3px")]].
Proof. reflexivity. Qed.

Example toString_parse_nested :
  toString (Model.valueParser (js "translate( calc(1px -  2px) , 3px)"))
  = js "translate( calc(1px -  2px) , 3px)".
Proof. reflexivity. Qed.

(** * Properties *)

(** ** Texts *)

Section TextFacts.

Implicit Types (s : text) (p : text -> bool).

Lemma search_range p s : -1 <= Str.search p s < Str.len s.
Proof.
  unfold Str.len. induction s as [|c r IH]; simpl; [lia|].
  destruct (p (c :: r)); [lia|].
  destruct (Z.ltb_spec (Str.search p r) 0); lia.
Qed.

Lemma search_zero p s : Str.search p s = 0 <-> s <> [] /\ p s = true.
Proof.
  destruct s as [|c r]; simpl; [split; [lia | intros [[] _]; reflexivity]|].
  destruct (p (c :: r)) eqn:E; [split; auto; done|].
  pose proof (search_range p r).
  destruct (Z.ltb_spec (Str.search p r) 0); split; try lia; intros [_ ?]; done.
Qed.

(** The pattern matches at the position found, and at none before it. *)
Lemma search_found p s i :
  Str.search p s = i -> 0 <= i ->
  p (drop (Z.to_nat i) s) = true
  /\ forall j, (j < Z.to_nat i)%nat -> p (drop j s) = false.
Proof.
  revert i. induction s as [|c r IH]; simpl; intros i Hi Hnn; [lia|].
  destruct (p (c :: r)) eqn:E.
  - subst i. simpl. split; [done | lia].
  - destruct (Z.ltb_spec (Str.search p r) 0); [lia|].
    destruct (IH (Str.search p r) eq_refl ltac:(lia)) as [Hm Hb].
    subst i. replace (Z.to_nat (Str.search p r + 1)) with (S (Z.to_nat (Str.search p r))) by lia.
    simpl. split; [done|]. intros [|j] Hj; simpl; [done|]. apply Hb. lia.
Qed.

Lemma search_none p s j :
  Str.search p s = -1 -> (j < length s)%nat -> p (drop j s) = false.
Proof.
  revert j. induction s as [|c r IH]; simpl; intros j Hs Hj; [lia|].
  destruct (p (c :: r)) eqn:E; [lia|].
  pose proof (search_range p r).
  destruct (Z.ltb_spec (Str.search p r) 0); [|lia].
  destruct j as [|j]; simpl; [done|]. apply IH; lia.
Qed.

Lemma clamp_in_range l i : 0 <= i <= l -> Str.clamp l i = i.
Proof. unfold Str.clamp. intros. destruct (Z.ltb_spec i 0); lia. Qed.

Lemma slice_take_drop s i j :
  0 <= i <= Str.len s -> 0 <= j <= Str.len s ->
  Str.slice s i j = take (Z.to_nat (j - i)) (drop (Z.to_nat i) s).
Proof. intros. unfold Str.slice. rewrite !clamp_in_range; done. Qed.

Lemma slice_prefix s i :
  0 <= i <= Str.len s -> Str.slice s 0 i = take (Z.to_nat i) s.
Proof.
  intros. rewrite slice_take_drop by (unfold Str.len in *; lia).
  simpl. f_equal. lia.
Qed.

Lemma sliceFrom_drop s i :
  0 <= i <= Str.len s -> Str.sliceFrom s i = drop (Z.to_nat i) s.
Proof.
  intros. unfold Str.sliceFrom. rewrite slice_take_drop by lia.
  apply take_ge. rewrite length_drop. unfold Str.len in *. lia.
Qed.

Lemma insertCharAtIndex_split s i c :
  0 <= i <= Str.len s ->
  insertCharAtIndex s i c = take (Z.to_nat i) s ++ c ++ drop (Z.to_nat i) s.
Proof.
  intros. unfold insertCharAtIndex.
  rewrite slice_prefix by done. fold (Str.sliceFrom s i).
  rewrite sliceFrom_drop; done.
Qed.

Lemma charAt_lookup s i c :
  0 <= i -> s !! Z.to_nat i = Some c -> Str.charAt s i = [c].
Proof.
  intros Hi Hc. unfold Str.charAt, Str.len.
  pose proof (lookup_lt_Some _ _ _ Hc).
  destruct (Z.leb_spec 0 i); [|lia]. destruct (Z.ltb_spec i (Z.of_nat (length s))); [|lia].
  simpl. rewrite (drop_S _ _ _ Hc). reflexivity.
Qed.


Lemma eqb_true (a b : text) : Str.eqb a b = true <-> a = b.
Proof. unfold Str.eqb. apply bool_decide_eq_true. Qed.

Lemma eqb_false (a b : text) : Str.eqb a b = false <-> a <> b.
Proof. unfold Str.eqb. apply bool_decide_eq_false. Qed.

End TextFacts.

(** ** Node lists read and written by position *)

Section NodeLists.

Implicit Types (nodes : list Node) (n : Node) (i j : Z).

Lemma at_index_Some nodes i n :
  at_index nodes i = Some n -> 0 <= i < Z.of_nat (length nodes).
Proof.
  unfold at_index. destruct (Z.ltb_spec i 0); [done|].
  intros H'. apply lookup_lt_Some in H'. lia.
Qed.

Lemma at_index_None nodes i :
  at_index nodes i = None <-> i < 0 \/ Z.of_nat (length nodes) <= i.
Proof.
  unfold at_index. destruct (Z.ltb_spec i 0); [split; [lia | done]|].
  rewrite lookup_ge_None. lia.
Qed.

Lemma at_index_nat nodes (k : nat) : at_index nodes (Z.of_nat k) = nodes !! k.
Proof.
  unfold at_index. destruct (Z.ltb_spec (Z.of_nat k) 0); [lia|].
  by rewrite Nat2Z.id.
Qed.

Lemma at_index_ext nodes nodes' :
  (forall i, at_index nodes i = at_index nodes' i) -> nodes = nodes'.
Proof.
  intros H. apply list_eq. intros k. rewrite <- !at_index_nat. apply H.
Qed.

Lemma length_store nodes i n : length (store nodes i n) = length nodes.
Proof. unfold store. destruct (i <? 0); [done | apply length_insert]. Qed.

Lemma at_index_store_eq nodes i n :
  0 <= i < Z.of_nat (length nodes) -> at_index (store nodes i n) i = Some n.
Proof.
  intros. unfold store, at_index. destruct (Z.ltb_spec i 0); [lia|].
  apply list_lookup_insert_eq. lia.
Qed.

Lemma at_index_store_ne nodes i j n :
  i <> j -> at_index (store nodes i n) j = at_index nodes j.
Proof.
  intros. unfold store, at_index.
  destruct (Z.ltb_spec j 0); [done|]. destruct (Z.ltb_spec i 0); [done|].
  apply list_lookup_insert_ne. lia.
Qed.

Lemma store_same nodes i n : at_index nodes i = Some n -> store nodes i n = nodes.
Proof.
  unfold store, at_index. destruct (Z.ltb_spec i 0); [done|]. apply list_insert_id.
Qed.

Lemma at_last nodes : at_ nodes (-1) = last nodes.
Proof.
  unfold at_. simpl. unfold at_index.
  destruct (Z.ltb_spec (Z.of_nat (length nodes) + -1) 0).
  - destruct nodes; [done | simpl in *; lia].
  - rewrite last_lookup. f_equal. lia.
Qed.

End NodeLists.

(** ** The state monad *)

Lemma bind_returned {A B} (m : M A) (k : A -> M B) st st' a :
  m st = (st', Returned a) -> bind m k st = k a st'.
Proof. unfold bind. by intros ->. Qed.

Lemma bind_thrown {A B} (m : M A) (k : A -> M B) st st' e :
  m st = (st', Thrown e) -> bind m k st = (st', Thrown e).
Proof. unfold bind. by intros ->. Qed.

Lemma forOf_app {A S} (body : A -> S -> M S) l1 l2 s st :
  forOf body (l1 ++ l2) s st = bind (forOf body l1 s) (forOf body l2) st.
Proof.
  revert s st. induction l1 as [|x l1 IH]; intros s st; simpl.
  - reflexivity.
  - unfold bind in *. destruct (body x s st) as [st' [s'|e]] eqn:E.
    + by rewrite IH.
    + reflexivity.
Qed.

(** ** Spacing around standalone operators *)

Section Spacing.

Variable valueIndex : Z.

Implicit Types (nodes : list Node) (n op sp : Node) (st : State).

Lemma rewritten_settled v :
  Str.search NEWLINE_REGEX v <> 0 ->
  rewrittenText v = js " " \/ Str.search NEWLINE_REGEX (rewrittenText v) = 0.
Proof.
  intros Hz. unfold rewrittenText.
  destruct (Z.eqb_spec (Str.search NEWLINE_REGEX v) (-1)) as [|Hne]; [by left|right].
  pose proof (search_range NEWLINE_REGEX v).
  destruct (search_found NEWLINE_REGEX v _ eq_refl ltac:(lia)) as [Hm _].
  rewrite sliceFrom_drop by lia.
  apply search_zero. split; [|done]. intros E. by rewrite E in Hm.
Qed.

Lemma needsRewrite_fixNode n : needsRewrite (fixNode n) = false.
Proof.
  unfold fixNode. destruct (needsRewrite n) eqn:E; [|done].
  unfold needsRewrite in *.
  apply andb_prop in E as [E1 E3]. apply andb_prop in E1 as [E1 E2].
  destruct n as [|i v| | | | |]; try discriminate. simpl in *.
  apply negb_true_iff, Z.eqb_neq in E3.
  destruct (rewritten_settled v E3) as [-> | ->].
  - by rewrite (proj2 (eqb_true _ _)).
  - by rewrite andb_false_r.
Qed.

Lemma fixNode_idem n : fixNode (fixNode n) = fixNode n.
Proof. unfold fixNode at 1. by rewrite needsRewrite_fixNode. Qed.

Lemma fixNode_not_space n : isSpace n = false -> fixNode n = n.
Proof. intros H. unfold fixNode, needsRewrite. by rewrite H. Qed.

Lemma isSpace_fixNode n : isSpace (fixNode n) = isSpace n.
Proof. unfold fixNode. destruct (needsRewrite n); [by destruct n | done]. Qed.

Lemma isOperator_fixNode n ops :
  isOperator (Some (fixNode n)) ops = isOperator (Some n) ops.
Proof.
  destruct (isSpace n) eqn:E; [|by rewrite fixNode_not_space].
  simpl. pose proof (isSpace_fixNode n) as H. rewrite E in H.
  destruct n; try discriminate. by destruct (fixNode _).
Qed.

Lemma checkSpaceAroundOperator_fix op sp position st :
  checkSpaceAroundOperator true valueIndex op sp position st
  = (mkState (needsFix st || negb (Str.search NEWLINE_REGEX (value sp) =? 0)) (warnings st),
     Returned (if Str.search NEWLINE_REGEX (value sp) =? 0 then sp
               else setValue sp (rewrittenText (value sp)))).
Proof.
  unfold checkSpaceAroundOperator, rewrittenText.
  destruct (Str.search NEWLINE_REGEX (value sp) =? 0); destruct st as [b ws]; simpl.
  - by rewrite orb_false_r.
  - by rewrite orb_true_r.
Qed.

Lemma checkSpaceAroundOperator_check op sp position st :
  checkSpaceAroundOperator false valueIndex op sp position st
  = (mkState (needsFix st)
       (warnings st ++ if Str.search NEWLINE_REGEX (value sp) =? 0 then []
                       else [spacingWarning valueIndex op position]),
     Returned sp).
Proof.
  unfold checkSpaceAroundOperator.
  destruct (Str.search NEWLINE_REGEX (value sp) =? 0); destruct st as [b ws]; simpl.
  - by rewrite app_nil_r.
  - by destruct position.
Qed.

Lemma checkNeighbour_fix op i position nodes st :
  checkNeighbour true valueIndex op i position nodes st
  = (mkState
       (needsFix st
        || match at_index nodes i with Some n => needsRewrite n | None => false end)
       (warnings st),
     Returned
       match at_index nodes i with
       | Some n => store nodes i (fixNode n)
       | None => nodes
       end).
Proof.
  unfold checkNeighbour. destruct (at_index nodes i) as [n|] eqn:E.
  - unfold fixNode, needsRewrite.
    destruct (isSpace n && negb (Str.eqb (value n) (js " "))) eqn:E1; simpl.
    + erewrite bind_returned by apply checkSpaceAroundOperator_fix.
      unfold ret. destruct (Str.search NEWLINE_REGEX (value n) =? 0); done.
    + destruct st. unfold ret. simpl. by rewrite orb_false_r, store_same.
  - destruct st. unfold ret. simpl. by rewrite orb_false_r.
Qed.

Lemma checkNeighbour_check op i position nodes st :
  checkNeighbour false valueIndex op i position nodes st
  = (mkState (needsFix st)
       (warnings st
        ++ match at_index nodes i with
           | Some n => if needsRewrite n then [spacingWarning valueIndex op position] else []
           | None => []
           end),
     Returned nodes).
Proof.
  unfold checkNeighbour. destruct (at_index nodes i) as [n|] eqn:E.
  - unfold needsRewrite.
    destruct (isSpace n && negb (Str.eqb (value n) (js " "))) eqn:E1; simpl.
    + erewrite bind_returned by apply checkSpaceAroundOperator_check.
      unfold ret. rewrite store_same by done.
      destruct (Str.search NEWLINE_REGEX (value n) =? 0); done.
    + destruct st. unfold ret. simpl. by rewrite app_nil_r.
  - destruct st. unfold ret. simpl. by rewrite app_nil_r.
Qed.

End Spacing.

(** An invariant carried along a loop over [0 .. n-1] whose body never
    throws. *)
Lemma forOf_seqZ_inv {T : Type} (body : Z -> T -> M T)
    (I : Z -> T -> State -> Prop) (n : nat) s st :
  I 0 s st ->
  (forall k s st, 0 <= k < Z.of_nat n -> I k s st ->
     exists s' st', body k s st = (st', Returned s') /\ I (k + 1) s' st') ->
  exists s' st',
    forOf body (seqZ 0 (Z.of_nat n)) s st = (st', Returned s') /\ I (Z.of_nat n) s' st'.
Proof.
  intros H0. induction n as [|n IH]; intros Hstep.
  - exists s, st. split; [reflexivity | exact H0].
  - destruct IH as (s1 & st1 & E1 & I1).
    { intros k s0 st0 Hk. apply Hstep. lia. }
    destruct (Hstep (Z.of_nat n) s1 st1 ltac:(lia) I1) as (s2 & st2 & E2 & I2).
    exists s2, st2. split.
    + rewrite seqZ_S, forOf_app. rewrite (bind_returned _ _ _ _ _ E1).
      simpl. rewrite (bind_returned _ _ _ _ _ E2). reflexivity.
    + by replace (Z.of_nat (S n)) with (Z.of_nat n + 1) by lia.
Qed.

Lemma length_fixAt nodes i : length (fixAt nodes i) = length nodes.
Proof. unfold fixAt. destruct (at_index nodes i); [apply length_store | done]. Qed.

Lemma at_index_fixAt nodes i j :
  at_index (fixAt nodes i) j
  = (if decide (i = j) then fixNode else id) <$> at_index nodes j.
Proof.
  unfold fixAt. destruct (decide (i = j)) as [->|Hne].
  - destruct (at_index nodes j) as [n|] eqn:E; simpl.
    + apply at_index_store_eq. by apply at_index_Some in E.
    + by rewrite E.
  - destruct (at_index nodes i) as [n|]; [rewrite at_index_store_ne by done|];
      by destruct (at_index nodes j).
Qed.

Section OperatorLoop.

Variable valueIndex : Z.

Implicit Types (nodes cur : list Node) (n op : Node) (st : State).

Lemma operatorLoopBody_check k found nodes st :
  operatorLoopBody false valueIndex k (found, nodes) st
  = (mkState (needsFix st) (warnings st ++ stepWarnings valueIndex nodes k),
     Returned (found || operatorAt nodes k, nodes)).
Proof.
  unfold operatorLoopBody, stepWarnings, operatorAt.
  destruct (at_index nodes k) as [op|] eqn:E.
  - destruct (isOperator (Some op) OPERATORS) eqn:Eop; simpl.
    + erewrite bind_returned by apply checkNeighbour_check.
      erewrite bind_returned by apply checkNeighbour_check.
      unfold ret, sideWarning. simpl. by rewrite orb_true_r, app_assoc.
    + destruct st. unfold ret. simpl. by rewrite orb_false_r, app_nil_r.
  - destruct st. unfold ret. simpl. by rewrite orb_false_r, app_nil_r.
Qed.

Lemma forOf_check l found nodes st :
  forOf (operatorLoopBody false valueIndex) l (found, nodes) st
  = (mkState (needsFix st) (warnings st ++ concat (map (stepWarnings valueIndex nodes) l)),
     Returned (found || existsb (operatorAt nodes) l, nodes)).
Proof.
  revert found st. induction l as [|k l IH]; intros found st; simpl.
  - destruct st. unfold ret. simpl. by rewrite orb_false_r, app_nil_r.
  - erewrite bind_returned by apply operatorLoopBody_check.
    rewrite IH. simpl. by rewrite orb_assoc, app_assoc.
Qed.

(** Fix mode off: the loop leaves the nodes and [needsFix] alone and
    reports the diagnostics of each position in turn. *)
Lemma operatorLoop_check nodes st :
  operatorLoop false valueIndex nodes st
  = (mkState (needsFix st)
       (warnings st
        ++ concat (map (stepWarnings valueIndex nodes) (seqZ 0 (Z.of_nat (length nodes))))),
     Returned (existsb (operatorAt nodes) (seqZ 0 (Z.of_nat (length nodes))), nodes)).
Proof. unfold operatorLoop. by rewrite forOf_check. Qed.

Lemma operatorLoopBody_fix k found cur st :
  operatorLoopBody true valueIndex k (found, cur) st
  = if operatorAt cur k
    then (mkState
            (needsFix st || needsRewriteAt cur (k - 1)
             || needsRewriteAt (fixAt cur (k - 1)) (k + 1))
            (warnings st),
          Returned (true, fixAt (fixAt cur (k - 1)) (k + 1)))
    else (st, Returned (found, cur)).
Proof.
  unfold operatorLoopBody, operatorAt.
  destruct (at_index cur k) as [op|] eqn:E; [|done].
  destruct (isOperator (Some op) OPERATORS) eqn:Eop; simpl; [|done].
  erewrite bind_returned by apply checkNeighbour_fix.
  erewrite bind_returned by apply checkNeighbour_fix.
  reflexivity.
Qed.

End OperatorLoop.

(** Fix mode on: after the positions below [k], the spaces next to an
    operator below [k] are fixed and the other nodes are as they were. *)
Section FixLoop.

Variable valueIndex : Z.
Variable nodes : list Node.
Variable st0 : State.

Lemma reached_succ k j :
  reached nodes (k + 1) j
  <-> reached nodes k j \/ (operatorAt nodes k = true /\ (j = k - 1 \/ j = k + 1)).
Proof.
  unfold reached. split.
  - intros [[Ho Hl]|[Ho Hl]].
    + destruct (decide (j + 1 = k)) as [<-|]; [right; split; [done|lia] | left; left; split; [done|lia]].
    + destruct (decide (j - 1 = k)) as [<-|]; [right; split; [done|lia] | left; right; split; [done|lia]].
  - intros [[[Ho Hl]|[Ho Hl]]|[Ho [->| ->]]].
    + left. split; [done|lia].
    + right. split; [done|lia].
    + left. replace (k - 1 + 1) with k by lia. split; [done|lia].
    + right. replace (k + 1 - 1) with k by lia. split; [done|lia].
Qed.

Lemma fixInv_start : fixInv nodes st0 0 (false, nodes) st0.
Proof.
  unfold fixInv; simpl. split; [done|]. split; [|split; [|split; [done|]]].
  - intros j. destruct (at_index nodes j) as [n|] eqn:E; simpl; [|done].
    apply at_index_Some in E.
    rewrite decide_False; [done|]. unfold reached. intros [[Ho Hl]|[Ho Hl]]; [lia|].
    unfold operatorAt in Ho. destruct (at_index nodes (j - 1)) eqn:E'; [|done].
    apply at_index_Some in E'. lia.
  - split; [done|]. intros (i & ? & _). lia.
  - split; [by left|]. intros [?|(j & Hr & Hn)]; [done|].
    exfalso. unfold needsRewriteAt in Hn. destruct (at_index nodes j) eqn:E; [|done].
    apply at_index_Some in E. destruct Hr as [[Ho Hl]|[Ho Hl]]; [lia|].
    unfold operatorAt in Ho. destruct (at_index nodes (j - 1)) eqn:E'; [|done].
    apply at_index_Some in E'. lia.
Qed.

Lemma fixInv_operatorAt k s st i :
  fixInv nodes st0 k s st -> operatorAt s.2 i = operatorAt nodes i.
Proof.
  intros (_ & Hpt & _). unfold operatorAt. rewrite Hpt.
  destruct (at_index nodes i) as [n|]; simpl; [|done].
  case_decide; [apply isOperator_fixNode | done].
Qed.

Lemma fixInv_needsRewriteAt k s st j :
  fixInv nodes st0 k s st ->
  needsRewriteAt s.2 j = if decide (reached nodes k j) then false else needsRewriteAt nodes j.
Proof.
  intros (_ & Hpt & _). unfold needsRewriteAt. rewrite Hpt.
  destruct (at_index nodes j) as [n|]; simpl; [|by case_decide].
  case_decide; [apply needsRewrite_fixNode | done].
Qed.

Lemma fixInv_step k s st :
  0 <= k < Z.of_nat (length nodes) -> fixInv nodes st0 k s st ->
  exists s' st',
    operatorLoopBody true valueIndex k s st = (st', Returned s')
    /\ fixInv nodes st0 (k + 1) s' st'.
Proof.
  intros Hk HI. pose proof (fixInv_operatorAt k s st k HI) as Hop.
  pose proof (fixInv_needsRewriteAt k s st (k - 1) HI) as Hn1.
  pose proof (fixInv_needsRewriteAt k s st (k + 1) HI) as Hn2.
  destruct s as [found cur]. simpl in *.
  destruct HI as (Hlen & Hpt & Hfound & Hws & Hfix). simpl in *.
  pose proof (operatorLoopBody_fix valueIndex k found cur st) as Hbody.
  rewrite Hop in Hbody.
  destruct (operatorAt nodes k) eqn:Eop.
  - eexists _, _. split; [exact Hbody|].
    unfold fixInv; simpl. split; [by rewrite !length_fixAt|].
    split; [|split; [|split; [done|]]].
    + intros j. rewrite !at_index_fixAt, Hpt.
      destruct (at_index nodes j) as [n|]; simpl; [|done]. f_equal.
      pose proof (reached_succ k j) as Hs.
      destruct (decide (reached nodes k j)), (decide (k + 1 = j)), (decide (k - 1 = j)),
        (decide (reached nodes (k + 1) j)); unfold id; rewrite ?fixNode_idem; try done;
        exfalso;
        match goal with
        | H : ¬ reached nodes (k + 1) j |- _ =>
            apply H, Hs; first [by left | right; split; [done|lia]]
        | H : reached nodes (k + 1) j |- _ =>
            apply Hs in H as [?|[_ [?|?]]]; [done|lia|lia]
        end.
    + split; [intros _; exists k; split; [lia|done] | done].
    + assert (needsRewriteAt (fixAt cur (k - 1)) (k + 1) = needsRewriteAt cur (k + 1)) as ->.
      { unfold needsRewriteAt. rewrite at_index_fixAt. rewrite decide_False by lia.
        by destruct (at_index cur (k + 1)). }
      rewrite Hn1, Hn2, !orb_true_iff, Hfix. split.
      * intros [[[?|(j & Hr & Hj)]|H1]|H2].
        -- by left.
        -- right. exists j. split; [apply reached_succ; by left | done].
        -- right. exists (k - 1). case_decide; [done|].
           split; [apply reached_succ; right; split; [done|lia] | done].
        -- right. exists (k + 1). case_decide; [done|].
           split; [apply reached_succ; right; split; [done|lia] | done].
      * intros [?|(j & Hr & Hj)]; [by left; left; left|].
        apply reached_succ in Hr as [Hr|[_ [-> | ->]]].
        -- left; left; right. by exists j.
        -- destruct (decide (reached nodes k (k - 1))) as [Hr|Hr];
             [left; left; right; by exists (k - 1) | by left; right].
        -- destruct (decide (reached nodes k (k + 1))) as [Hr|Hr];
             [left; left; right; by exists (k + 1) | by right].
  - exists (found, cur), st. split; [exact Hbody|].
    assert (forall j, reached nodes (k + 1) j <-> reached nodes k j) as Hsame.
    { intros j. rewrite reached_succ. rewrite Eop. intuition discriminate. }
    unfold fixInv; simpl. split; [done|]. split; [|split; [|split; [done|]]].
    + intros j. rewrite Hpt. destruct (at_index nodes j); simpl; [|done].
      f_equal. apply decide_ext, symmetry, Hsame.
    + rewrite Hfound. split; intros (i & Hi & Ho).
      * exists i. split; [lia|done].
      * exists i. split; [|done]. destruct (decide (i = k)) as [->|]; [congruence | lia].
    + rewrite Hfix. split; (intros [?|(j & Hr & Hj)]; [by left|right; exists j]);
        split; try done; by apply Hsame.
Qed.

End FixLoop.

Section OperatorLoopResult.

Variable valueIndex : Z.

Implicit Types (nodes : list Node) (st : State).

Lemma operatorAt_range nodes i :
  operatorAt nodes i = true -> 0 <= i < Z.of_nat (length nodes).
Proof.
  unfold operatorAt. destruct (at_index nodes i) eqn:E; [|done].
  intros _. by apply at_index_Some in E.
Qed.

Lemma hasOperator_true nodes :
  hasOperator nodes = true <-> exists i, operatorAt nodes i = true.
Proof.
  unfold hasOperator. rewrite existsb_exists. split.
  - intros (n & Hin & Hop). apply list_elem_of_In, list_elem_of_lookup in Hin as [k Hk].
    exists (Z.of_nat k). unfold operatorAt. by rewrite at_index_nat, Hk.
  - intros (i & Hop). unfold operatorAt in Hop.
    destruct (at_index nodes i) as [n|] eqn:E; [|done].
    exists n. split; [|done]. apply list_elem_of_In, list_elem_of_lookup.
    exists (Z.to_nat i). unfold at_index in E. by destruct (i <? 0).
Qed.

Lemma hasOperator_false nodes i : hasOperator nodes = false -> operatorAt nodes i = false.
Proof.
  intros H. destruct (operatorAt nodes i) eqn:E; [|done].
  assert (hasOperator nodes = true) by (apply hasOperator_true; eauto). congruence.
Qed.

Lemma hasOperator_seqZ nodes :
  existsb (operatorAt nodes) (seqZ 0 (Z.of_nat (length nodes))) = hasOperator nodes.
Proof.
  apply eq_true_iff_eq. rewrite hasOperator_true, existsb_exists. split.
  - intros (i & _ & Hi). eauto.
  - intros (i & Hi). exists i. split; [|done].
    apply list_elem_of_In, elem_of_seqZ. apply operatorAt_range in Hi. lia.
Qed.

(** Without a standalone operator the loop does nothing, in either mode. *)
Lemma operatorLoop_none fix_ nodes st :
  hasOperator nodes = false ->
  operatorLoop fix_ valueIndex nodes st = (st, Returned (false, nodes)).
Proof.
  intros Hno. unfold operatorLoop.
  generalize (seqZ 0 (Z.of_nat (length nodes))) as l.
  induction l as [|k l IH]; simpl; [done|].
  assert (operatorLoopBody fix_ valueIndex k (false, nodes) st = (st, Returned (false, nodes)))
    as Hbody.
  { pose proof (hasOperator_false nodes k Hno) as Hk.
    unfold operatorLoopBody. unfold operatorAt in Hk.
    destruct (at_index nodes k); [|done]. by rewrite Hk. }
  by rewrite (bind_returned _ _ _ _ _ Hbody).
Qed.

(** Fix mode on: the loop rewrites exactly the spaces next to a standalone
    operator that need it, reports nothing, and sets [needsFix] when there
    is such a space. *)
Lemma operatorLoop_fix nodes st :
  exists st' nodes',
    operatorLoop true valueIndex nodes st = (st', Returned (hasOperator nodes, nodes'))
    /\ length nodes' = length nodes
    /\ (forall j, at_index nodes' j
                  = (fun n => if decide (adjacent nodes j) then fixNode n else n)
                      <$> at_index nodes j)
    /\ warnings st' = warnings st
    /\ (needsFix st' = true
        <-> needsFix st = true
            \/ exists j, adjacent nodes j /\ needsRewriteAt nodes j = true).
Proof.
  destruct (forOf_seqZ_inv (operatorLoopBody true valueIndex) (fixInv nodes st)
              (length nodes) (false, nodes) st (fixInv_start nodes st))
    as ([found nodes'] & st' & Hrun & Hlen & Hpt & Hfound & Hws & Hfix).
  { intros k s st1 Hk HI. by apply fixInv_step. }
  simpl in *.
  assert (forall j, reached nodes (Z.of_nat (length nodes)) j <-> adjacent nodes j) as Hadj.
  { intros j. unfold reached, adjacent. split.
    - intros [[? _]|[? _]]; [by left | by right].
    - intros [Ho|Ho]; [left|right]; (split; [done|]); apply operatorAt_range in Ho; lia. }
  assert (found = hasOperator nodes) as ->.
  { apply eq_true_iff_eq. rewrite Hfound, hasOperator_true. split.
    - intros (i & _ & Hi). eauto.
    - intros (i & Hi). exists i. split; [by apply operatorAt_range | done]. }
  exists st', nodes'. split; [exact Hrun|]. split; [done|].
  split; [|split; [done|]].
  - intros j. rewrite Hpt. destruct (at_index nodes j); simpl; [|done].
    f_equal. apply decide_ext, Hadj.
  - rewrite Hfix. split; (intros [?|(j & Hr & Hj)]; [by left|right; exists j]);
      split; try done; by apply Hadj.
Qed.

End OperatorLoopResult.

Lemma newline_search_zero v :
  NEWLINE_REGEX v = true <-> Str.search NEWLINE_REGEX v = 0.
Proof.
  rewrite search_zero. split; [|tauto].
  intros H. split; [|done]. intros ->. discriminate.
Qed.

Lemma needsRewrite_true n :
  needsRewrite n = true
  <-> isSpace n = true /\ value n <> js " " /\ NEWLINE_REGEX (value n) = false.
Proof.
  unfold needsRewrite. rewrite !andb_true_iff, !negb_true_iff, eqb_false, Z.eqb_neq.
  rewrite <- newline_search_zero. rewrite not_true_iff_false. tauto.
Qed.

Lemma needsRewrite_newline n : NEWLINE_REGEX (value n) = true -> needsRewrite n = false.
Proof.
  intros H. apply not_true_iff_false. rewrite needsRewrite_true. intros (_ & _ & ?). congruence.
Qed.

Lemma stepWarnings_elem valueIndex nodes i w :
  w ∈ stepWarnings valueIndex nodes i ->
  exists op position sp,
    at_index nodes i = Some op /\ isOperator (Some op) OPERATORS = true
    /\ at_index nodes (neighbourIndex i position) = Some sp
    /\ needsRewrite sp = true
    /\ w = spacingWarning valueIndex op position.
Proof.
  unfold stepWarnings. destruct (at_index nodes i) as [op|] eqn:E; [|by intros ?%elem_of_nil].
  destruct (isOperator (Some op) OPERATORS) eqn:Eop; [|by intros ?%elem_of_nil].
  rewrite elem_of_app. unfold sideWarning.
  intros [H|H]; [exists op, before_ | exists op, after_]; simpl.
  - destruct (at_index nodes (i - 1)) as [sp|] eqn:Esp; [|by apply elem_of_nil in H].
    destruct (needsRewrite sp) eqn:Enr; [|by apply elem_of_nil in H].
    apply list_elem_of_singleton in H. by exists sp.
  - destruct (at_index nodes (i + 1)) as [sp|] eqn:Esp; [|by apply elem_of_nil in H].
    destruct (needsRewrite sp) eqn:Enr; [|by apply elem_of_nil in H].
    apply list_elem_of_singleton in H. by exists sp.
Qed.

(** C8: a space whose text begins with a newline is exempt.  A call of
    [checkSpaceAroundOperator] on it reports nothing, leaves [needsFix]
    alone and returns it as it is; and the loop over the children of a
    function, in check mode and in fix mode alike, leaves every node whose
    text begins with a newline as it is and reports only diagnostics that
    come from a side of a standalone operator whose space does not begin
    with a newline. *)
Theorem newline_space_exempt (context_fix : bool) (valueIndex : Z)
    (nodes : list Node) (st : State) :
  (forall op sp position,
      NEWLINE_REGEX (value sp) = true ->
      checkSpaceAroundOperator context_fix valueIndex op sp position st = (st, Returned sp))
  /\ exists st' nodes' new,
      operatorLoop context_fix valueIndex nodes st
      = (st', Returned (hasOperator nodes, nodes'))
      /\ warnings st' = warnings st ++ new
      /\ (forall j sp,
             at_index nodes j = Some sp -> NEWLINE_REGEX (value sp) = true ->
             at_index nodes' j = Some sp)
      /\ (forall w, w ∈ new ->
             exists i op position sp,
               at_index nodes i = Some op /\ isOperator (Some op) OPERATORS = true
               /\ at_index nodes (neighbourIndex i position) = Some sp
               /\ NEWLINE_REGEX (value sp) = false
               /\ w = spacingWarning valueIndex op position).
Proof.
  split.
  - intros op sp position Hnl. apply newline_search_zero in Hnl.
    unfold checkSpaceAroundOperator. by rewrite Hnl.
  - destruct context_fix.
    + destruct (operatorLoop_fix valueIndex nodes st) as (st' & nodes' & Hrun & _ & Hpt & Hws & _).
      exists st', nodes', []. split; [done|]. split; [by rewrite app_nil_r|].
      split; [|by intros w ?%elem_of_nil].
      intros j sp Hj Hnl. rewrite Hpt, Hj. simpl. f_equal.
      case_decide; [|done]. unfold fixNode. by rewrite needsRewrite_newline.
    + rewrite operatorLoop_check, hasOperator_seqZ.
      eexists _, nodes, _. split; [reflexivity|]. split; [reflexivity|].
      split; [done|].
      intros w Hw. apply list_elem_of_In, in_concat in Hw as (l & Hl & Hw).
      apply in_map_iff in Hl as (i & <- & _). apply list_elem_of_In in Hw.
      apply stepWarnings_elem in Hw as (op & position & sp & ? & ? & ? & Hnr & ?).
      apply needsRewrite_true in Hnr as (_ & _ & ?).
      by exists i, op, position, sp.
Qed.

(** The loop in either mode: what it returns, what it reports and what it
    does to each node. *)
Lemma operatorLoop_summary (context_fix : bool) valueIndex nodes st :
  exists st' nodes' new,
    operatorLoop context_fix valueIndex nodes st
    = (st', Returned (hasOperator nodes, nodes'))
    /\ warnings st' = warnings st ++ new
    /\ length nodes' = length nodes
    /\ (forall j, at_index nodes' j
                  = (fun n => if context_fix && bool_decide (adjacent nodes j)
                              then fixNode n else n) <$> at_index nodes j)
    /\ (forall w, w ∈ new ->
          context_fix = false
          /\ exists i op position sp,
               at_index nodes i = Some op /\ isOperator (Some op) OPERATORS = true
               /\ at_index nodes (neighbourIndex i position) = Some sp
               /\ needsRewrite sp = true
               /\ w = spacingWarning valueIndex op position).
Proof.
  destruct context_fix.
  - destruct (operatorLoop_fix valueIndex nodes st) as (st' & nodes' & Hrun & Hlen & Hpt & Hws & _).
    exists st', nodes', []. split; [done|]. split; [by rewrite app_nil_r|].
    split; [done|]. split; [|by intros w ?%elem_of_nil].
    intros j. rewrite Hpt. destruct (at_index nodes j); simpl; [|done].
    f_equal.
    destruct (decide (adjacent nodes j));
      [rewrite bool_decide_eq_true_2 by done | rewrite bool_decide_eq_false_2 by done];
      reflexivity.
  - rewrite operatorLoop_check, hasOperator_seqZ.
    eexists _, nodes, _. split; [reflexivity|]. split; [reflexivity|]. split; [done|].
    split; [intros j; destruct (at_index nodes j); reflexivity|].
    intros w Hw. split; [done|].
    apply list_elem_of_In, in_concat in Hw as (l & Hl & Hw).
    apply in_map_iff in Hl as (i & <- & _). apply list_elem_of_In in Hw.
    apply stepWarnings_elem in Hw as (op & position & sp & ? & ? & ? & Hnr & ?).
    by exists i, op, position, sp.
Qed.

Section FunctionNodes.

Variable isStandardSyntaxValue : text -> bool.
Variable valueIndex : Z.

Implicit Types (nodes : list Node) (st : State).

(** With a standalone operator among the children, the callback does what
    the loop does and nothing more. *)
Lemma checkFunctionNodes_spaced (context_fix : bool) nodes st st' nodes' :
  operatorLoop context_fix valueIndex nodes st = (st', Returned (true, nodes')) ->
  checkFunctionNodes isStandardSyntaxValue context_fix valueIndex nodes st
  = (st', Returned nodes').
Proof.
  intros H. unfold checkFunctionNodes. by rewrite (bind_returned _ _ _ _ _ H).
Qed.

(** Without one, it does what the two sign checks do. *)
Lemma checkFunctionNodes_glued (context_fix : bool) nodes st :
  hasOperator nodes = false ->
  checkFunctionNodes isStandardSyntaxValue context_fix valueIndex nodes st
  = bind (checkForOperatorInFirstNode isStandardSyntaxValue context_fix valueIndex nodes)
      (fun r1 =>
         if r1.1 then ret r1.2
         else bind (checkForOperatorInLastNode context_fix valueIndex r1.2)
                (fun r2 => ret r2.2)) st.
Proof.
  intros H. unfold checkFunctionNodes.
  rewrite (bind_returned _ _ _ _ _ (operatorLoop_none valueIndex context_fix nodes st H)).
  simpl. unfold bind.
  destruct (checkForOperatorInFirstNode _ _ _ _ _) as [st1 [[b nodes1]|e]]; done.
Qed.

End FunctionNodes.

(** C5: when a direct child of a matched function is a standalone operator,
    the callback does exactly what the loop over the standalone operators
    does: neither sign check runs.  Every child that is not a space (a Word
    with a glued sign among them) is left as it is, and every diagnostic
    reported is a spacing diagnostic of a standalone operator. *)
Theorem standalone_operator_skips_sign_checks
    (isStandardSyntaxValue : text -> bool) (context_fix : bool) (valueIndex : Z)
    (nodes : list Node) (st : State) :
  hasOperator nodes = true ->
  exists st' nodes' new,
    checkFunctionNodes isStandardSyntaxValue context_fix valueIndex nodes st
    = (st', Returned nodes')
    /\ operatorLoop context_fix valueIndex nodes st = (st', Returned (true, nodes'))
    /\ (forall j n, at_index nodes j = Some n -> isSpace n = false ->
                    at_index nodes' j = Some n)
    /\ warnings st' = warnings st ++ new
    /\ (forall w, w ∈ new ->
          exists i op position,
            at_index nodes i = Some op /\ isOperator (Some op) OPERATORS = true
            /\ w = spacingWarning valueIndex op position).
Proof.
  intros Hop.
  destruct (operatorLoop_summary context_fix valueIndex nodes st)
    as (st' & nodes' & new & Hrun & Hws & _ & Hpt & Hnew).
  rewrite Hop in Hrun. exists st', nodes', new.
  split; [by apply checkFunctionNodes_spaced|]. split; [done|].
  split; [|split; [done|]].
  - intros j n Hj Hsp. rewrite Hpt, Hj. simpl. f_equal.
    rewrite fixNode_not_space by done. by destruct (_ && _).
  - intros w Hw. destruct (Hnew w Hw) as (_ & i & op & position & sp & ? & ? & _ & _ & ?).
    by exists i, op, position.
Qed.

Lemma standalone_operator_skips_sign_checks_witness :
  exists st' nodes' new,
    checkFunctionNodes Model.isStandardSyntaxValue false 0
      [WordNode 5 (js "1px+1px"); SpaceNode 12 (js " "); WordNode 13 (js "-");
       SpaceNode 14 (js " "); WordNode 15 (js "1px-2px")] (mkState false [])
    = (st', Returned nodes')
    /\ operatorLoop false 0
         [WordNode 5 (js "1px+1px"); SpaceNode 12 (js " "); WordNode 13 (js "-");
          SpaceNode 14 (js " "); WordNode 15 (js "1px-2px")] (mkState false [])
       = (st', Returned (true, nodes'))
    /\ (forall j n,
          at_index
            [WordNode 5 (js "1px+1px"); SpaceNode 12 (js " "); WordNode 13 (js "-");
             SpaceNode 14 (js " "); WordNode 15 (js "1px-2px")] j = Some n ->
          isSpace n = false -> at_index nodes' j = Some n)
    /\ warnings st' = warnings (mkState false []) ++ new
    /\ (forall w, w ∈ new ->
          exists i op position,
            at_index
              [WordNode 5 (js "1px+1px"); SpaceNode 12 (js " "); WordNode 13 (js "-");
               SpaceNode 14 (js " "); WordNode 15 (js "1px-2px")] i = Some op
            /\ isOperator (Some op) OPERATORS = true
            /\ w = spacingWarning 0 op position).
Proof.
  apply (standalone_operator_skips_sign_checks Model.isStandardSyntaxValue false 0
           [WordNode 5 (js "1px+1px"); SpaceNode 12 (js " "); WordNode 13 (js "-");
            SpaceNode 14 (js " "); WordNode 15 (js "1px-2px")] (mkState false [])).
  reflexivity.
Defined.

(** ** The sign checks *)

Section SignChecks.

Variable isStandardSyntaxValue : text -> bool.
Variable valueIndex : Z.

Implicit Types (nodes rest : list Node) (st : State).

Lemma checkForOperatorInFirstNode_nil (context_fix : bool) st :
  checkForOperatorInFirstNode isStandardSyntaxValue context_fix valueIndex [] st
  = (st, Thrown AssertionError).
Proof. reflexivity. Qed.

Lemma checkForOperatorInFirstNode_skip (context_fix : bool) nodes st :
  nodes <> [] -> firstQualifies isStandardSyntaxValue nodes = false ->
  checkForOperatorInFirstNode isStandardSyntaxValue context_fix valueIndex nodes st
  = (st, Returned (false, nodes)).
Proof.
  destruct nodes as [|firstNode rest]; [done|]. intros _.
  unfold firstQualifies, checkForOperatorInFirstNode, bind, assert, ret. simpl.
  destruct (isWord firstNode); [|reflexivity].
  destruct (isStandardSyntaxValue (value firstNode)); [|reflexivity]. simpl.
  intros H. apply Z.ltb_ge in H. apply Z.leb_le in H. by rewrite H.
Qed.

Lemma checkForOperatorInFirstNode_check firstNode rest st :
  firstQualifies isStandardSyntaxValue (firstNode :: rest) = true ->
  let v := value firstNode in
  let i := Str.search OPERATOR_REGEX v in
  let w1 := mkWarning (expectedBefore (Str.charAt v i))
              (valueIndex + sourceIndex firstNode + i)
              (valueIndex + sourceIndex firstNode + i + Str.len (Str.charAt v i)) in
  let w2 := mkWarning (expectedAfter (Str.charAt v i))
              (valueIndex + sourceIndex firstNode + i + 1)
              (valueIndex + sourceIndex firstNode + i + 1 + Str.len (Str.charAt v i)) in
  checkForOperatorInFirstNode isStandardSyntaxValue false valueIndex (firstNode :: rest) st
  = (mkState (needsFix st)
       (warnings st
        ++ if gluedBothSides v i then [w1; w2]
           else if gluedBefore v i then [w1] else []),
     Returned (true, firstNode :: rest)).
Proof.
  unfold firstQualifies, checkForOperatorInFirstNode, gluedBothSides, gluedBefore, bind,
    assert, ret. simpl.
  intros H. apply andb_prop in H as [H H3]. apply andb_prop in H as [-> ->]. simpl.
  apply Z.ltb_lt in H3. rewrite (proj2 (Z.leb_gt _ _) H3).
  destruct st as [b ws].
  destruct (Str.truthy _ && negb _ && Str.truthy _ && negb _) eqn:E1.
  - unfold bind, complain, report, ret. simpl. by rewrite <- app_assoc.
  - destruct (Str.truthy _ && negb _) eqn:E2.
    + reflexivity.
    + unfold bind, ret. simpl. by rewrite app_nil_r.
Qed.

Lemma checkForOperatorInFirstNode_fix firstNode rest st :
  firstQualifies isStandardSyntaxValue (firstNode :: rest) = true ->
  let v := value firstNode in
  let i := Str.search OPERATOR_REGEX v in
  checkForOperatorInFirstNode isStandardSyntaxValue true valueIndex (firstNode :: rest) st
  = if gluedBothSides v i then
      (mkState true (warnings st),
       Returned (true,
                 setValue firstNode
                   (insertCharAtIndex (insertCharAtIndex v (i + 1) (js " ")) i (js " "))
                 :: rest))
    else if gluedBefore v i then
      (mkState true (warnings st),
       Returned (true, setValue firstNode (insertCharAtIndex v i (js " ")) :: rest))
    else (st, Returned (true, firstNode :: rest)).
Proof.
  unfold firstQualifies, checkForOperatorInFirstNode, gluedBothSides, gluedBefore, bind,
    assert, ret. simpl.
  intros H. apply andb_prop in H as [H H3]. apply andb_prop in H as [-> ->]. simpl.
  apply Z.ltb_lt in H3. rewrite (proj2 (Z.leb_gt _ _) H3).
  destruct (Str.truthy _ && negb _ && Str.truthy _ && negb _) eqn:E1; [reflexivity|].
  destruct (Str.truthy _ && negb _) eqn:E2; reflexivity.
Qed.

End SignChecks.

Section TrailingCheck.

Variable valueIndex : Z.

Implicit Types (nodes : list Node) (st : State).

Lemma at_last_nonempty nodes : nodes <> [] -> exists lastNode, at_ nodes (-1) = Some lastNode.
Proof.
  intros H. rewrite at_last. destruct (last nodes) eqn:E; [eauto|].
  by apply last_None in E.
Qed.

Lemma checkForOperatorInLastNode_nil (context_fix : bool) st :
  checkForOperatorInLastNode context_fix valueIndex [] st = (st, Thrown AssertionError).
Proof. reflexivity. Qed.

Lemma checkForOperatorInLastNode_skip (context_fix : bool) nodes st :
  nodes <> [] -> lastFlagged nodes = false ->
  checkForOperatorInLastNode context_fix valueIndex nodes st = (st, Returned (false, nodes)).
Proof.
  intros Hne. destruct (at_last_nonempty nodes Hne) as [lastNode Hl].
  unfold lastFlagged, checkForOperatorInLastNode, bind, assert, ret. rewrite Hl.
  destruct (Z.of_nat (length nodes) =? 1); [done|]. simpl.
  destruct (isWord lastNode); [|done]. simpl.
  destruct (Str.search OPERATOR_REGEX (value lastNode) =? -1); [done|]. simpl.
  destruct (isOperator _ _ && isSingleSpace _); [done|]. discriminate.
Qed.

Lemma checkForOperatorInLastNode_check nodes lastNode st :
  lastFlagged nodes = true -> at_ nodes (-1) = Some lastNode ->
  let v := value lastNode in
  let i := Str.search OPERATOR_REGEX v in
  checkForOperatorInLastNode false valueIndex nodes st
  = (mkState (needsFix st)
       (warnings st
        ++ [mkWarning (expectedOperatorBeforeSign (Str.charAt v i))
              (valueIndex + sourceIndex lastNode + i)
              (valueIndex + sourceIndex lastNode + i + Str.len (Str.charAt v i))]),
     Returned (true, nodes)).
Proof.
  intros H Hl. unfold lastFlagged in H. rewrite Hl in H.
  unfold checkForOperatorInLastNode, bind, assert, ret. rewrite Hl.
  destruct (Z.of_nat (length nodes) =? 1); [done|]. simpl in *.
  destruct (isWord lastNode); [|done]. simpl in *.
  destruct (Str.search OPERATOR_REGEX (value lastNode) =? -1); [done|]. simpl in *.
  destruct (isOperator _ _ && isSingleSpace _); [done|]. reflexivity.
Qed.

Lemma checkForOperatorInLastNode_fix nodes lastNode st :
  lastFlagged nodes = true -> at_ nodes (-1) = Some lastNode ->
  let v := value lastNode in
  let i := Str.search OPERATOR_REGEX v in
  checkForOperatorInLastNode true valueIndex nodes st
  = (mkState true (warnings st),
     Returned
       (true,
        store nodes (Z.of_nat (length nodes) - 1)
          (setValue lastNode
             (Str.trim
                (insertCharAtIndex (Str.trim (insertCharAtIndex v (i + 1) (js " "))) i
                   (js " ")))))).
Proof.
  intros H Hl. unfold lastFlagged in H. rewrite Hl in H.
  unfold checkForOperatorInLastNode, bind, assert, ret. rewrite Hl.
  destruct (Z.of_nat (length nodes) =? 1); [done|]. simpl in *.
  destruct (isWord lastNode); [|done]. simpl in *.
  destruct (Str.search OPERATOR_REGEX (value lastNode) =? -1); [done|]. simpl in *.
  destruct (isOperator _ _ && isSingleSpace _); [done|]. reflexivity.
Qed.

End TrailingCheck.

(** ** Operator characters inside a word *)

Lemma search_split (p : text -> bool) (s : text) (i : Z) :
  Str.search p s = i -> 0 <= i ->
  exists pre c post, s = pre ++ c :: post /\ Str.len pre = i /\ p (c :: post) = true.
Proof.
  intros Hs Hi. pose proof (search_range p s) as Hr. rewrite Hs in Hr.
  destruct (search_found p s i Hs Hi) as [Hm _].
  destruct (drop (Z.to_nat i) s) as [|c post] eqn:E.
  - apply (f_equal length) in E. rewrite length_drop in E. unfold Str.len in Hr. simpl in E. lia.
  - exists (take (Z.to_nat i) s), c, post. split; [by rewrite <- E, take_drop|].
    split; [|done]. unfold Str.len in *. rewrite length_take. lia.
Qed.

Lemma OPERATOR_REGEX_head c post :
  OPERATOR_REGEX (c :: post) = true -> c = "+"%char \/ c = "-"%char.
Proof.
  simpl. rewrite orb_true_iff, !bool_decide_eq_true. tauto.
Qed.

Lemma charAt_app pre c post : Str.charAt (pre ++ c :: post) (Str.len pre) = [c].
Proof.
  apply charAt_lookup; [unfold Str.len; lia|].
  unfold Str.len. rewrite Nat2Z.id. by rewrite list_lookup_middle.
Qed.

Lemma insertCharAtIndex_app pre post ch :
  insertCharAtIndex (pre ++ post) (Str.len pre) ch = pre ++ ch ++ post.
Proof.
  rewrite insertCharAtIndex_split.
  - unfold Str.len. rewrite Nat2Z.id. by rewrite take_app_length, drop_app_length.
  - unfold Str.len. rewrite length_app. lia.
Qed.

Lemma insert_space_both_sides pre c post :
  insertCharAtIndex (insertCharAtIndex (pre ++ c :: post) (Str.len pre + 1) (js " "))
    (Str.len pre) (js " ")
  = pre ++ js " " ++ c :: js " " ++ post.
Proof.
  replace (pre ++ c :: post) with ((pre ++ [c]) ++ post) by by rewrite <- app_assoc.
  replace (Str.len pre + 1) with (Str.len (pre ++ [c]))
    by (unfold Str.len; rewrite length_app; simpl; lia).
  rewrite insertCharAtIndex_app. rewrite <- app_assoc. simpl.
  by rewrite insertCharAtIndex_app.
Qed.

(** C1, as amended: in a matched function without a standalone operator
    whose first child is a word of standard syntax with its first operator
    character at an index above 0 and a character other than a space on
    both sides of it, check mode reports exactly two diagnostics, "expected
    single space before" at the operator's absolute index (value index +
    source index of the word + index of the operator) and "expected single
    space after" one position further, each one character long; fix mode
    reports nothing and puts one space on each side of the operator inside
    the word's text.  For [calc(1px+1px)] the fix gives [calc(1px + 1px)]. *)
Theorem glued_operator_in_first_word
    (isStandardSyntaxValue : text -> bool) (valueIndex si i : Z)
    (v : text) (rest : list Node) (st : State) :
  hasOperator (WordNode si v :: rest) = false ->
  isStandardSyntaxValue v = true ->
  Str.search OPERATOR_REGEX v = i -> 0 < i ->
  gluedBothSides v i = true ->
  (exists pre c post,
     v = pre ++ c :: post /\ Str.len pre = i /\ (c = "+"%char \/ c = "-"%char)
     /\ checkFunctionNodes isStandardSyntaxValue false valueIndex (WordNode si v :: rest) st
        = (mkState (needsFix st)
             (warnings st
              ++ [mkWarning (expectedBefore [c])
                    (valueIndex + si + i) (valueIndex + si + i + 1);
                  mkWarning (expectedAfter [c])
                    (valueIndex + si + i + 1) (valueIndex + si + i + 1 + 1)]),
           Returned (WordNode si v :: rest))
     /\ checkFunctionNodes isStandardSyntaxValue true valueIndex (WordNode si v :: rest) st
        = (mkState true (warnings st),
           Returned (WordNode si (pre ++ js " " ++ c :: js " " ++ post) :: rest)))
  /\ declValue (declAfter (Model.rule true (mkDecl (js "calc(1px+1px)") valueIndex)))
     = js "calc(1px + 1px)".
Proof.
  intros Hno Hstd Hi Hpos Hglued. split; [|reflexivity].
  destruct (search_split OPERATOR_REGEX v i Hi ltac:(lia)) as (pre & c & post & Hv & Hlen & Hc).
  exists pre, c, post. split; [done|]. split; [done|].
  split; [by apply OPERATOR_REGEX_head in Hc|].
  assert (firstQualifies isStandardSyntaxValue (WordNode si v :: rest) = true) as Hq.
  { unfold firstQualifies. simpl. rewrite Hstd, Hi. simpl. by apply Z.ltb_lt. }
  assert (Str.charAt v i = [c]) as Hop by (rewrite Hv, <- Hlen; apply charAt_app).
  split.
  - rewrite checkFunctionNodes_glued by done.
    erewrite bind_returned by (by apply checkForOperatorInFirstNode_check).
    simpl. rewrite Hi, Hglued, Hop. reflexivity.
  - rewrite checkFunctionNodes_glued by done.
    pose proof (checkForOperatorInFirstNode_fix isStandardSyntaxValue valueIndex
                  (WordNode si v) rest st Hq) as Hfix.
    simpl in Hfix. rewrite Hi, Hglued in Hfix.
    rewrite (bind_returned _ _ _ _ _ Hfix). simpl. unfold ret.
    by rewrite Hv at 1; rewrite <- Hlen, insert_space_both_sides.
Qed.

Lemma glued_operator_in_first_word_witness :
  (exists pre c post,
     js "1px+1px" = pre ++ c :: post /\ Str.len pre = 3 /\ (c = "+"%char \/ c = "-"%char)
     /\ checkFunctionNodes Model.isStandardSyntaxValue false 7
          (WordNode 5 (js "1px+1px") :: []) (mkState false [])
        = (mkState (needsFix (mkState false []))
             (warnings (mkState false [])
              ++ [mkWarning (expectedBefore [c]) (7 + 5 + 3) (7 + 5 + 3 + 1);
                  mkWarning (expectedAfter [c]) (7 + 5 + 3 + 1) (7 + 5 + 3 + 1 + 1)]),
           Returned (WordNode 5 (js "1px+1px") :: []))
     /\ checkFunctionNodes Model.isStandardSyntaxValue true 7
          (WordNode 5 (js "1px+1px") :: []) (mkState false [])
        = (mkState true (warnings (mkState false [])),
           Returned (WordNode 5 (pre ++ js " " ++ c :: js " " ++ post) :: [])))
  /\ declValue (declAfter (Model.rule true (mkDecl (js "calc(1px+1px)") 7)))
     = js "calc(1px + 1px)".
Proof.
  apply (glued_operator_in_first_word Model.isStandardSyntaxValue 7 5 3
           (js "1px+1px") [] (mkState false []));
    [reflexivity | reflexivity | reflexivity | lia | reflexivity].
Defined.

(** C1 as stated fails: for [calc(1px+1px)] with the value at offset 7, the
    operator is at 7 + 5 + 3 and the second diagnostic is not anchored
    there. *)
Lemma glued_operator_after_anchor_counterexample :
  ~ Forall (fun w => index w = 7 + 5 + 3)
      (reported (Model.rule false (mkDecl (js "calc(1px+1px)") 7))).
Proof.
  intros H. apply Forall_cons in H as [_ H]. apply Forall_cons in H as [H _].
  vm_compute in H. discriminate H.
Qed.

(** ** What each sign check can do *)

Ltac summary_solve :=
  try done;
  try (by intros ? ?%elem_of_nil);
  try (by left);
  try (right; by eauto 10).

Section SignCheckSummaries.

Variable isStandardSyntaxValue : text -> bool.
Variable context_fix : bool.
Variable valueIndex : Z.

Implicit Types (nodes : list Node) (st : State).

Lemma firstQualifies_word firstNode rest :
  firstQualifies isStandardSyntaxValue (firstNode :: rest) = true -> isWord firstNode = true.
Proof. unfold firstQualifies. simpl. by intros [[? _]%andb_prop _]%andb_prop. Qed.

Lemma lastFlagged_word nodes lastNode :
  lastFlagged nodes = true -> at_ nodes (-1) = Some lastNode -> isWord lastNode = true.
Proof.
  unfold lastFlagged. intros H Hl. rewrite Hl in H.
  by apply andb_prop in H as [_ [[? _]%andb_prop _]%andb_prop].
Qed.

(** The leading-sign check on a non-empty list returns; it reports only
    spacing diagnostics, and only with fix mode off; it changes at most the
    text of the first child, and only with fix mode on; when its verdict is
    [false] it has done nothing. *)
Lemma checkForOperatorInFirstNode_summary firstNode rest st :
  exists st1 nodes1 new,
    checkForOperatorInFirstNode isStandardSyntaxValue context_fix valueIndex
      (firstNode :: rest) st
    = (st1, Returned (firstQualifies isStandardSyntaxValue (firstNode :: rest), nodes1))
    /\ warnings st1 = warnings st ++ new
    /\ (forall w, w ∈ new ->
          context_fix = false
          /\ exists op, message w = expectedBefore op \/ message w = expectedAfter op)
    /\ (firstQualifies isStandardSyntaxValue (firstNode :: rest) = false ->
        st1 = st /\ nodes1 = firstNode :: rest)
    /\ (context_fix = false -> needsFix st1 = needsFix st /\ nodes1 = firstNode :: rest)
    /\ (context_fix = true -> new = [])
    /\ (nodes1 = firstNode :: rest
        \/ (isWord firstNode = true /\ context_fix = true
            /\ exists v', nodes1 = setValue firstNode v' :: rest)).
Proof.
  destruct (firstQualifies isStandardSyntaxValue (firstNode :: rest)) eqn:Hq.
  - pose proof (firstQualifies_word _ _ Hq) as Hw. destruct context_fix.
    + rewrite checkForOperatorInFirstNode_fix by done.
      destruct (gluedBothSides _ _); [|destruct (gluedBefore _ _)];
        (eexists _, _, []; split; [reflexivity|]; simpl; rewrite app_nil_r;
         split_and!; summary_solve).
    + rewrite checkForOperatorInFirstNode_check by done.
      eexists _, _, _. split; [reflexivity|]. split; [reflexivity|].
      split_and!; summary_solve.
      intros w H. split; [done|].
      destruct (gluedBothSides _ _); [|destruct (gluedBefore _ _)];
        repeat (apply elem_of_cons in H as [->|H]); try (by apply elem_of_nil in H);
        simpl; eauto.
  - rewrite checkForOperatorInFirstNode_skip by done.
    exists st, (firstNode :: rest), []. rewrite app_nil_r.
    split_and!; summary_solve.
Qed.

(** The trailing-sign check on a non-empty list returns; it reports at
    most the sign diagnostic, and only with fix mode off; it changes at
    most the text of the last child, and only with fix mode on; when its
    verdict is [false] it has done nothing. *)
Lemma checkForOperatorInLastNode_summary nodes st :
  nodes <> [] ->
  exists st2 nodes2 new,
    checkForOperatorInLastNode context_fix valueIndex nodes st
    = (st2, Returned (lastFlagged nodes, nodes2))
    /\ warnings st2 = warnings st ++ new
    /\ (forall w, w ∈ new ->
          context_fix = false /\ exists op, message w = expectedOperatorBeforeSign op)
    /\ (lastFlagged nodes = false -> st2 = st /\ nodes2 = nodes)
    /\ (context_fix = false -> needsFix st2 = needsFix st /\ nodes2 = nodes)
    /\ (context_fix = true -> new = [])
    /\ (nodes2 = nodes
        \/ exists lastNode v',
             at_ nodes (-1) = Some lastNode /\ isWord lastNode = true
             /\ context_fix = true
             /\ nodes2 = store nodes (Z.of_nat (length nodes) - 1) (setValue lastNode v')).
Proof.
  intros Hne. destruct (at_last_nonempty nodes Hne) as [lastNode Hl].
  destruct (lastFlagged nodes) eqn:Hq.
  - pose proof (lastFlagged_word _ _ Hq Hl) as Hw. destruct context_fix.
    + rewrite (checkForOperatorInLastNode_fix _ _ lastNode) by done.
      eexists _, _, []. split; [reflexivity|]. simpl. rewrite app_nil_r.
      split_and!; summary_solve.
    + rewrite (checkForOperatorInLastNode_check _ _ lastNode) by done.
      eexists _, _, _. split; [reflexivity|]. split; [reflexivity|].
      split_and!; summary_solve.
      intros w H. split; [done|].
      apply list_elem_of_singleton in H as ->. simpl. eauto.
  - rewrite checkForOperatorInLastNode_skip by done.
    exists st, nodes, []. rewrite app_nil_r.
    split_and!; summary_solve.
Qed.

End SignCheckSummaries.

(** C6: in a matched function without a standalone operator, once the
    leading-sign check has examined the first child (the child qualifies:
    the check's verdict is [true]), the callback's result is what that
    check left, flagged or not: the trailing-sign check does not run, and
    no sign diagnostic is added.  When the leading-sign check's verdict is
    [false] it has reported nothing and changed nothing, and the callback's
    result is the trailing-sign check's.  So at most one of the two checks
    reports or fixes. *)
Theorem leading_check_excludes_trailing
    (isStandardSyntaxValue : text -> bool) (context_fix : bool) (valueIndex : Z)
    (nodes : list Node) (st st1 : State) (verdict : bool) (nodes1 : list Node) :
  hasOperator nodes = false ->
  checkForOperatorInFirstNode isStandardSyntaxValue context_fix valueIndex nodes st
  = (st1, Returned (verdict, nodes1)) ->
  verdict = firstQualifies isStandardSyntaxValue nodes
  /\ (verdict = true ->
      checkFunctionNodes isStandardSyntaxValue context_fix valueIndex nodes st
      = (st1, Returned nodes1)
      /\ forall w op,
           w ∈ warnings st1 -> message w = expectedOperatorBeforeSign op ->
           w ∈ warnings st)
  /\ (verdict = false ->
      st1 = st /\ nodes1 = nodes
      /\ checkFunctionNodes isStandardSyntaxValue context_fix valueIndex nodes st
         = bind (checkForOperatorInLastNode context_fix valueIndex nodes)
             (fun r2 => ret r2.2) st).
Proof.
  intros Hno Hfirst. destruct nodes as [|firstNode rest]; [discriminate Hfirst|].
  destruct (checkForOperatorInFirstNode_summary isStandardSyntaxValue context_fix
              valueIndex firstNode rest st)
    as (st1' & nodes1' & new & Hrun & Hws & Hnew & Hskip & _).
  rewrite Hrun in Hfirst. injection Hfirst as -> <- ->.
  split; [done|]. split.
  - intros Hv. split.
    + rewrite checkFunctionNodes_glued by done.
      rewrite (bind_returned _ _ _ _ _ Hrun). simpl. by rewrite Hv.
    + intros w op Hw Hm. rewrite Hws in Hw. apply elem_of_app in Hw as [Hw|Hw]; [done|].
      destruct (Hnew w Hw) as (_ & op' & [Hm'|Hm']); congruence.
  - intros Hv. destruct (Hskip Hv) as [-> ->]. split; [done|]. split; [done|].
    rewrite checkFunctionNodes_glued by done.
    rewrite (bind_returned _ _ _ _ _ Hrun). simpl. by rewrite Hv.
Qed.

Lemma leading_check_excludes_trailing_witness :
  true = firstQualifies Model.isStandardSyntaxValue
           [WordNode 5 (js "1px +1px"); SpaceNode 13 (js " "); WordNode 14 (js "-2")]
  /\ (true = true ->
      checkFunctionNodes Model.isStandardSyntaxValue false 0
        [WordNode 5 (js "1px +1px"); SpaceNode 13 (js " "); WordNode 14 (js "-2")]
        (mkState false [])
      = (mkState false [], Returned
           [WordNode 5 (js "1px +1px"); SpaceNode 13 (js " "); WordNode 14 (js "-2")])
      /\ forall w op,
           w ∈ warnings (mkState false []) ->
           message w = expectedOperatorBeforeSign op ->
           w ∈ warnings (mkState false []))
  /\ (true = false ->
      mkState false [] = mkState false []
      /\ [WordNode 5 (js "1px +1px"); SpaceNode 13 (js " "); WordNode 14 (js "-2")]
         = [WordNode 5 (js "1px +1px"); SpaceNode 13 (js " "); WordNode 14 (js "-2")]
      /\ checkFunctionNodes Model.isStandardSyntaxValue false 0
           [WordNode 5 (js "1px +1px"); SpaceNode 13 (js " "); WordNode 14 (js "-2")]
           (mkState false [])
         = bind (checkForOperatorInLastNode false 0
                   [WordNode 5 (js "1px +1px"); SpaceNode 13 (js " "); WordNode 14 (js "-2")])
             (fun r2 => ret r2.2) (mkState false [])).
Proof.
  apply (leading_check_excludes_trailing Model.isStandardSyntaxValue false 0
           [WordNode 5 (js "1px +1px"); SpaceNode 13 (js " "); WordNode 14 (js "-2")]
           (mkState false []) (mkState false []) true
           [WordNode 5 (js "1px +1px"); SpaceNode 13 (js " "); WordNode 14 (js "-2")]);
    reflexivity.
Defined.

Lemma at_store_first_last nodes (n : Node) :
  (2 <= length nodes)%nat -> at_ (store nodes 0 n) (-1) = at_ nodes (-1).
Proof.
  intros H. unfold at_. simpl. rewrite length_store.
  apply at_index_store_ne. lia.
Qed.

(** C7: in a matched function without a standalone operator and with at
    least two children whose last child is a word that holds an operator
    character, when the child two places before the last is a word whose
    whole text is one of the four operators and the child just before the
    last is a single space, the trailing-sign check reports nothing and
    changes nothing; the callback leaves the last child as it is and adds
    no sign diagnostic.  [calc(10px * -2)] gives no diagnostic. *)
Theorem sign_after_operator_not_flagged
    (isStandardSyntaxValue : text -> bool) (context_fix : bool) (valueIndex : Z)
    (nodes : list Node) (lastNode : Node) (st : State) :
  hasOperator nodes = false ->
  (2 <= length nodes)%nat ->
  at_ nodes (-1) = Some lastNode ->
  isWord lastNode = true ->
  Str.search OPERATOR_REGEX (value lastNode) <> -1 ->
  isOperator (at_ nodes (-3)) ALL_OPERATORS = true ->
  isSingleSpace (at_ nodes (-2)) = true ->
  checkForOperatorInLastNode context_fix valueIndex nodes st = (st, Returned (false, nodes))
  /\ (exists st' nodes' new,
         checkFunctionNodes isStandardSyntaxValue context_fix valueIndex nodes st
         = (st', Returned nodes')
         /\ at_ nodes' (-1) = Some lastNode
         /\ warnings st' = warnings st ++ new
         /\ forall w op, w ∈ new -> message w <> expectedOperatorBeforeSign op)
  /\ reported (Model.rule false (mkDecl (js "calc(10px * -2)") valueIndex)) = [].
Proof.
  intros Hno Hlen Hl Hw Hs Hop Hsp. split; [|split; [|reflexivity]].
  - apply checkForOperatorInLastNode_skip; [by destruct nodes|].
    unfold lastFlagged. by rewrite Hl, Hop, Hsp, !andb_false_r.
  - assert (lastFlagged nodes = false) as Hnot
        by (unfold lastFlagged; by rewrite Hl, Hop, Hsp, !andb_false_r).
    destruct nodes as [|firstNode rest]; [simpl in Hlen; lia|].
    destruct (checkForOperatorInFirstNode_summary isStandardSyntaxValue context_fix
                valueIndex firstNode rest st)
      as (st1 & nodes1 & new & Hrun & Hws & Hnew & Hskip & _ & _ & Hshape).
    rewrite checkFunctionNodes_glued by done.
    rewrite (bind_returned _ _ _ _ _ Hrun). simpl.
    destruct (firstQualifies isStandardSyntaxValue (firstNode :: rest)) eqn:Hq.
    + exists st1, nodes1, new. split; [done|]. split; [|split; [done|]].
      * destruct Hshape as [->|(_ & _ & v' & ->)]; [done|].
        rewrite <- Hl. apply (at_store_first_last (firstNode :: rest)). done.
      * intros w op Hin Hm. destruct (Hnew w Hin) as (_ & op' & [Hm'|Hm']); congruence.
    + destruct (Hskip eq_refl) as [-> ->].
      rewrite (bind_returned _ _ _ _ _
                 (checkForOperatorInLastNode_skip valueIndex context_fix
                    (firstNode :: rest) st ltac:(done) Hnot)).
      exists st, (firstNode :: rest), []. simpl. rewrite app_nil_r.
      split_and!; try done. by intros w op ?%elem_of_nil.
Qed.

Lemma sign_after_operator_not_flagged_witness :
  checkForOperatorInLastNode false 7
    [WordNode 5 (js "10px"); SpaceNode 9 (js " "); WordNode 10 (js "*");
     SpaceNode 11 (js " "); WordNode 12 (js "-2")] (mkState false [])
  = (mkState false [],
     Returned (false,
               [WordNode 5 (js "10px"); SpaceNode 9 (js " "); WordNode 10 (js "*");
                SpaceNode 11 (js " "); WordNode 12 (js "-2")]))
  /\ (exists st' nodes' new,
         checkFunctionNodes Model.isStandardSyntaxValue false 7
           [WordNode 5 (js "10px"); SpaceNode 9 (js " "); WordNode 10 (js "*");
            SpaceNode 11 (js " "); WordNode 12 (js "-2")] (mkState false [])
         = (st', Returned nodes')
         /\ at_ nodes' (-1) = Some (WordNode 12 (js "-2"))
         /\ warnings st' = warnings (mkState false []) ++ new
         /\ forall w op, w ∈ new -> message w <> expectedOperatorBeforeSign op)
  /\ reported (Model.rule false (mkDecl (js "calc(10px * -2)") 7)) = [].
Proof.
  apply (sign_after_operator_not_flagged Model.isStandardSyntaxValue false 7
           [WordNode 5 (js "10px"); SpaceNode 9 (js " "); WordNode 10 (js "*");
            SpaceNode 11 (js " "); WordNode 12 (js "-2")]
           (WordNode 12 (js "-2")) (mkState false []));
    [reflexivity | simpl; lia | reflexivity | reflexivity | vm_compute; discriminate
    | reflexivity | reflexivity].
Defined.

(** ** The text a fixed space gets *)

(** C3, as amended: in fix mode, a space next to a standalone operator
    among the children of a matched function whose text is not a single
    space is rewritten as follows.  When the text holds its first newline
    at an index above 0, the new text is the original text from that
    newline on: what stood before the first newline is removed and the
    newline itself is kept.  When the text holds no newline, the new text
    is one space.  In both cases [needsFix] is set. *)
Theorem fix_rewrites_space
    (isStandardSyntaxValue : text -> bool) (valueIndex : Z)
    (nodes : list Node) (j : Z) (sp : Node) (st : State) :
  at_index nodes j = Some sp ->
  isSpace sp = true ->
  Str.eqb (value sp) (js " ") = false ->
  adjacent nodes j ->
  exists st' nodes',
    checkFunctionNodes isStandardSyntaxValue true valueIndex nodes st = (st', Returned nodes')
    /\ (Str.search NEWLINE_REGEX (value sp) = -1 ->
        at_index nodes' j = Some (setValue sp (js " ")))
    /\ (0 < Str.search NEWLINE_REGEX (value sp) ->
        exists pre post,
          value sp = pre ++ post
          /\ Str.len pre = Str.search NEWLINE_REGEX (value sp)
          /\ NEWLINE_REGEX post = true
          /\ (forall k, (k < length pre)%nat -> NEWLINE_REGEX (drop k (value sp)) = false)
          /\ at_index nodes' j = Some (setValue sp post))
    /\ (Str.search NEWLINE_REGEX (value sp) <> 0 -> needsFix st' = true).
Proof.
  intros Hj Hsp Hne Hadj.
  assert (hasOperator nodes = true) as Hop.
  { apply hasOperator_true. destruct Hadj; eauto. }
  destruct (operatorLoop_fix valueIndex nodes st) as (st' & nodes' & Hrun & _ & Hpt & _ & Hfix).
  rewrite Hop in Hrun. exists st', nodes'.
  split; [by apply checkFunctionNodes_spaced|].
  specialize (Hpt j). rewrite Hj in Hpt. simpl in Hpt. rewrite decide_True in Hpt by done.
  assert (Str.search NEWLINE_REGEX (value sp) <> 0 -> needsRewrite sp = true) as Hnr.
  { intros Hz. unfold needsRewrite. rewrite Hsp, Hne. simpl.
    by apply negb_true_iff, Z.eqb_neq. }
  pose proof (search_range NEWLINE_REGEX (value sp)) as Hrange.
  split_and!.
  - intros Hs. rewrite Hpt. unfold fixNode, rewrittenText.
    rewrite Hnr by lia. by rewrite Hs.
  - intros Hs.
    destruct (search_found NEWLINE_REGEX (value sp) _ eq_refl ltac:(lia)) as [Hm Hbefore].
    exists (take (Z.to_nat (Str.search NEWLINE_REGEX (value sp))) (value sp)),
           (drop (Z.to_nat (Str.search NEWLINE_REGEX (value sp))) (value sp)).
    split_and!.
    + by rewrite take_drop.
    + unfold Str.len in *. rewrite length_take. lia.
    + done.
    + intros k Hk. apply Hbefore. rewrite length_take in Hk. lia.
    + rewrite Hpt. unfold fixNode, rewrittenText. rewrite Hnr by lia.
      destruct (Z.eqb_spec (Str.search NEWLINE_REGEX (value sp)) (-1)); [lia|].
      by rewrite sliceFrom_drop by lia.
  - intros Hz. apply Hfix. right. exists j. split; [done|].
    unfold needsRewriteAt. rewrite Hj. by apply Hnr.
Qed.

Lemma fix_rewrites_space_witness :
  exists st' nodes',
    checkFunctionNodes Model.isStandardSyntaxValue true 0
      [WordNode 5 (js "1px"); SpaceNode 8 (js "  " ++ LF ++ js "  "); WordNode 13 (js "+");
       SpaceNode 14 (js " "); WordNode 15 (js "2px")] (mkState false [])
    = (st', Returned nodes')
    /\ (Str.search NEWLINE_REGEX (value (SpaceNode 8 (js "  " ++ LF ++ js "  "))) = -1 ->
        at_index nodes' 1 = Some (setValue (SpaceNode 8 (js "  " ++ LF ++ js "  ")) (js " ")))
    /\ (0 < Str.search NEWLINE_REGEX (value (SpaceNode 8 (js "  " ++ LF ++ js "  "))) ->
        exists pre post,
          value (SpaceNode 8 (js "  " ++ LF ++ js "  ")) = pre ++ post
          /\ Str.len pre
             = Str.search NEWLINE_REGEX (value (SpaceNode 8 (js "  " ++ LF ++ js "  ")))
          /\ NEWLINE_REGEX post = true
          /\ (forall k, (k < length pre)%nat ->
                NEWLINE_REGEX (drop k (value (SpaceNode 8 (js "  " ++ LF ++ js "  ")))) = false)
          /\ at_index nodes' 1 = Some (setValue (SpaceNode 8 (js "  " ++ LF ++ js "  ")) post))
    /\ (Str.search NEWLINE_REGEX (value (SpaceNode 8 (js "  " ++ LF ++ js "  "))) <> 0 ->
        needsFix st' = true).
Proof.
  apply (fix_rewrites_space Model.isStandardSyntaxValue 0
           [WordNode 5 (js "1px"); SpaceNode 8 (js "  " ++ LF ++ js "  "); WordNode 13 (js "+");
            SpaceNode 14 (js " "); WordNode 15 (js "2px")]
           1 (SpaceNode 8 (js "  " ++ LF ++ js "  ")) (mkState false []));
    [reflexivity | reflexivity | reflexivity | left; reflexivity].
Defined.

(** C3 as stated fails: the space ["  \n  "] before a standalone operator
    is rewritten to ["\n  "], the newline kept, and not to the two spaces
    that follow the newline. *)
Lemma fix_keeps_newline_counterexample :
  checkSpaceAroundOperator true 0 (WordNode 13 (js "+"))
    (SpaceNode 8 (js "  " ++ LF ++ js "  ")) before_ (mkState false [])
  = (mkState true [], Returned (SpaceNode 8 (LF ++ js "  ")))
  /\ LF ++ js "  " <> js "  "
  /\ declValue
       (declAfter
          (Model.rule true (mkDecl (js "calc(1px  " ++ LF ++ js "  + 2px)") 0)))
     = js "calc(1px" ++ LF ++ js "  + 2px)".
Proof. split; [reflexivity|]. split; [discriminate | reflexivity]. Qed.

(** ** The callback on the children of a matched function *)

Lemma touched_refl a : touched a a.
Proof. by left. Qed.

Lemma Forall2_touched_refl nodes : Forall2 touched nodes nodes.
Proof. induction nodes; constructor; [apply touched_refl | done]. Qed.

Lemma touched_fixNode n : touched n (fixNode n).
Proof.
  unfold fixNode. destruct (needsRewrite n) eqn:E; [|by left].
  right. apply needsRewrite_true in E as (Hsp & _). split; [by destruct n | eauto].
Qed.

Lemma Forall2_touched_store nodes i n v :
  at_index nodes i = Some n -> isFunction n = false ->
  Forall2 touched nodes (store nodes i (setValue n v)).
Proof.
  intros Hn Hf. apply Forall2_same_length_lookup_2; [by rewrite length_store|].
  intros k a b Ha Hb. rewrite <- at_index_nat in Ha, Hb.
  destruct (decide (i = Z.of_nat k)) as [->|Hne].
  - rewrite at_index_store_eq in Hb by (by apply at_index_Some in Hn).
    rewrite Hn in Ha. injection Ha as <-. injection Hb as <-. right. eauto.
  - rewrite at_index_store_ne in Hb by done. left. congruence.
Qed.

Section Callback.

Variable isStandardSyntaxValue : text -> bool.
Variable context_fix : bool.
Variable valueIndex : Z.

Implicit Types (nodes : list Node) (st : State).

(** The callback on an empty list of children fails the assertion of the
    leading-sign check. *)
Lemma checkFunctionNodes_nil st :
  checkFunctionNodes isStandardSyntaxValue context_fix valueIndex [] st
  = (st, Thrown AssertionError).
Proof. reflexivity. Qed.

(** On a non-empty list it returns; it reports only with fix mode off and
    changes only with fix mode on, and then only texts of children that
    are not functions. *)
Lemma checkFunctionNodes_summary nodes st :
  nodes <> [] ->
  exists st' nodes' new,
    checkFunctionNodes isStandardSyntaxValue context_fix valueIndex nodes st
    = (st', Returned nodes')
    /\ warnings st' = warnings st ++ new
    /\ (context_fix = true -> new = [])
    /\ (context_fix = false -> needsFix st' = needsFix st /\ nodes' = nodes)
    /\ Forall2 touched nodes nodes'.
Proof.
  intros Hne. destruct (hasOperator nodes) eqn:Hop.
  - destruct (operatorLoop_summary context_fix valueIndex nodes st)
      as (st' & nodes' & new & Hrun & Hws & Hlen & Hpt & Hnew).
    rewrite Hop in Hrun. exists st', nodes', new.
    split; [by apply checkFunctionNodes_spaced|]. split; [done|]. split_and!.
    + intros ->. destruct new as [|w new]; [done|].
      by destruct (Hnew w ltac:(left)) as [? _].
    + intros ->. rewrite operatorLoop_check in Hrun. injection Hrun as <- _ <-. done.
    + apply Forall2_same_length_lookup_2; [done|].
      intros k a b Ha Hb. rewrite <- at_index_nat in Ha, Hb.
      rewrite Hpt, Ha in Hb. injection Hb as <-.
      destruct (_ && _); [apply touched_fixNode | apply touched_refl].
  - destruct nodes as [|firstNode rest]; [done|].
    rewrite checkFunctionNodes_glued by done.
    destruct (checkForOperatorInFirstNode_summary isStandardSyntaxValue context_fix
                valueIndex firstNode rest st)
      as (st1 & nodes1 & new1 & Hrun1 & Hws1 & _ & Hskip & Hcheck1 & Hfix1 & Hshape1).
    rewrite (bind_returned _ _ _ _ _ Hrun1). simpl.
    destruct (firstQualifies isStandardSyntaxValue (firstNode :: rest)) eqn:Hq.
    + exists st1, nodes1, new1. split; [done|]. split; [done|].
      split; [exact Hfix1|]. split; [exact Hcheck1|].
      destruct Hshape1 as [->|(Hw & _ & v' & ->)]; [apply Forall2_touched_refl|].
      constructor; [|apply Forall2_touched_refl]. right. split; [by destruct firstNode|eauto].
    + destruct (Hskip eq_refl) as [-> ->].
      destruct (checkForOperatorInLastNode_summary context_fix valueIndex (firstNode :: rest)
                  st ltac:(done))
        as (st2 & nodes2 & new2 & Hrun2 & Hws2 & _ & _ & Hcheck2 & Hfix2 & Hshape2).
      rewrite (bind_returned _ _ _ _ _ Hrun2). simpl.
      exists st2, nodes2, new2. split; [done|]. split; [done|].
      split; [exact Hfix2|]. split; [exact Hcheck2|].
      destruct Hshape2 as [->|(lastNode & v' & Hl & Hw & _ & ->)];
        [apply Forall2_touched_refl|].
      apply Forall2_touched_store; [|by destruct lastNode].
      unfold at_ in Hl. simpl in Hl.
      by replace (Z.of_nat (length (firstNode :: rest)) - 1)
        with (Z.of_nat (length (firstNode :: rest)) + -1) by lia.
Qed.

End Callback.

(** ** The walk over the tree *)

Lemma keeps_ret R `{!Reflexive R} {A} (a : A) : keeps R (ret a).
Proof. intros st. simpl. reflexivity. Qed.

Lemma keeps_throw R `{!Reflexive R} {A} (e : Error) : keeps R (@throw A e).
Proof. intros st. simpl. reflexivity. Qed.

Lemma keeps_bind R `{!Transitive R} {A B} (m : M A) (k : A -> M B) :
  keeps R m -> (forall a, keeps R (k a)) -> keeps R (bind m k).
Proof.
  intros Hm Hk st. unfold bind. specialize (Hm st).
  destruct (m st) as [st' [a|e]]; simpl in *; [|done].
  etransitivity; [exact Hm | apply Hk].
Qed.

Lemma touchedNode_refl node : touchedNode node node.
Proof. destruct node; simpl; try done. eexists. split; [done | apply Forall2_touched_refl]. Qed.

Section Walk.

Variable isStandardSyntaxValue : text -> bool.
Variable singleArgumentMathFunctions : list text.
Variable context_fix : bool.
Variable valueIndex : Z.

Abbreviation callback' :=
  (callback isStandardSyntaxValue singleArgumentMathFunctions context_fix valueIndex).
Abbreviation walk' :=
  (walk isStandardSyntaxValue singleArgumentMathFunctions context_fix valueIndex).
Abbreviation matched :=
  (FUNC_NAMES_REGEX_test singleArgumentMathFunctions).
Abbreviation descend' :=
  (descend isStandardSyntaxValue singleArgumentMathFunctions context_fix valueIndex).

Lemma walk_cons fuel node rest :
  walk' fuel (node :: rest)
  = bind (callback' node)
      (fun node1 =>
         bind (descend' fuel node1)
           (fun node2 => bind (walk' fuel rest) (fun rest' => ret (node2 :: rest')))).
Proof. destruct fuel; reflexivity. Qed.

Lemma walk_nil fuel st : walk' fuel [] st = (st, Returned []).
Proof. destruct fuel; reflexivity. Qed.

(** The callback on one node. *)
Lemma callback_summary node st :
  exists st' out new,
    callback' node st = (st', out)
    /\ warnings st' = warnings st ++ new
    /\ (context_fix = true -> new = [])
    /\ (context_fix = false -> needsFix st' = needsFix st)
    /\ match out with
       | Returned node' => touchedNode node node' /\ (context_fix = false -> node' = node)
       | Thrown e =>
           e = AssertionError /\ st' = st
           /\ exists i name b a u,
                node = FunctionNode i name b a u [] /\ matched name = true
       end.
Proof.
  assert (exists st' out new,
             (st, Returned node) = (st', out : Outcome Node)
             /\ warnings st' = warnings st ++ new
             /\ (context_fix = true -> new = [])
             /\ (context_fix = false -> needsFix st' = needsFix st)
             /\ match out with
                | Returned node' => touchedNode node node' /\ (context_fix = false -> node' = node)
                | Thrown e =>
                    e = AssertionError /\ st' = st
                    /\ exists i name b a u,
                         node = FunctionNode i name b a u [] /\ matched name = true
                end) as Hsame.
  { exists st, (Returned node), []. rewrite app_nil_r.
    split_and!; try done. apply touchedNode_refl. }
  destruct node as [| |i name b a u children| | | |]; try exact Hsame.
  unfold callback. destruct (matched name) eqn:Hm; simpl; [|exact Hsame].
  destruct children as [|c children].
  - exists st, (Thrown AssertionError), []. rewrite app_nil_r.
    split_and!; try done. by exists i, name, b, a, u.
  - destruct (checkFunctionNodes_summary isStandardSyntaxValue context_fix valueIndex
                (c :: children) st ltac:(done))
      as (st' & nodes' & new & Hrun & Hws & Hfix & Hcheck & Htouched).
    rewrite (bind_returned _ _ _ _ _ Hrun).
    exists st', (Returned (FunctionNode i name b a u nodes')), new.
    split_and!; try done.
    + intros H. by apply Hcheck.
    + simpl. eauto.
    + intros H. destruct (Hcheck H) as [_ ->]. done.
Qed.

Lemma callback_keeps R `{!Reflexive R} :
  (forall st st' new,
      warnings st' = warnings st ++ new ->
      (context_fix = true -> new = []) ->
      (context_fix = false -> needsFix st' = needsFix st) ->
      R st st') ->
  forall node, keeps R (callback' node).
Proof.
  intros HR node st.
  destruct (callback_summary node st) as (st' & out & new & -> & Hws & Hfix & Hcheck & _).
  simpl. by apply (HR st st' new).
Qed.

Lemma walk_keeps R `{!Reflexive R, !Transitive R} :
  (forall node, keeps R (callback' node)) ->
  forall fuel nodes, keeps R (walk' fuel nodes).
Proof.
  intros Hcb fuel. induction fuel as [|fuel IHfuel];
    (intros nodes; induction nodes as [|node rest IH];
     [intros st; rewrite walk_nil; simpl; reflexivity|];
     rewrite walk_cons; apply keeps_bind; [done | apply Hcb |]; intros node1;
     apply keeps_bind; [done | | intros node2; apply keeps_bind;
       [done | exact IH | intros; by apply keeps_ret]]).
  - destruct node1; simpl; try (by apply keeps_ret).
    apply keeps_bind; [done | by apply keeps_throw | intros; by apply keeps_ret].
  - destruct node1; simpl; try (by apply keeps_ret).
    apply keeps_bind; [done | apply IHfuel | intros; by apply keeps_ret].
Qed.

End Walk.

(** ** Check mode writes nothing, fix mode reports nothing *)

Lemma walk_check_needsFix isStandardSyntaxValue names valueIndex fuel nodes st :
  needsFix (walk isStandardSyntaxValue names false valueIndex fuel nodes st).1 = needsFix st.
Proof.
  apply (walk_keeps isStandardSyntaxValue names false valueIndex sameNeedsFix).
  apply callback_keeps; [apply _|]. intros st1 st2 new _ _ H. by apply H.
Qed.

Lemma walk_fix_warnings isStandardSyntaxValue names valueIndex fuel nodes st :
  warnings (walk isStandardSyntaxValue names true valueIndex fuel nodes st).1 = warnings st.
Proof.
  apply (walk_keeps isStandardSyntaxValue names true valueIndex sameWarnings).
  apply callback_keeps; [apply _|]. intros st1 st2 new Hws H _.
  unfold sameWarnings. rewrite Hws, H by done. apply app_nil_r.
Qed.

(** C9: with fix mode off, a run leaves the declaration as it is, whatever
    the tokenizer gives and whether or not the run throws: [needsFix] is
    never set, so the value is never serialized and written back. *)
Theorem check_mode_leaves_declaration
    (isStandardSyntaxValue : text -> bool) (names : list text)
    (valueParser : text -> list Node) (decl : Declaration) :
  declAfter (rule isStandardSyntaxValue names valueParser false decl) = decl
  /\ forall valueIndex fuel nodes st,
       needsFix (walk isStandardSyntaxValue names false valueIndex fuel nodes st).1
       = needsFix st.
Proof.
  split; [|intros; apply walk_check_needsFix].
  unfold rule, walkDeclsCallback.
  destruct (negb (Str.test OPERATOR_REGEX (getDeclarationValue decl))); [done|].
  destruct (negb (FUNC_CALLS_REGEX_test names (getDeclarationValue decl))); [done|].
  unfold bind, getNeedsFix.
  pose proof (walk_check_needsFix isStandardSyntaxValue names (declValueIndex decl)
                (depth (valueParser (getDeclarationValue decl)))
                (valueParser (getDeclarationValue decl)) (mkState false [])) as H.
  destruct (walk _ _ _ _ _ _ _) as [st' [nodes'|e]]; simpl in *; [|done].
  by rewrite H.
Qed.

(** C10: with fix mode on, a run reports no diagnostic, whatever the
    tokenizer gives and whether or not the run throws: each violation path
    sets [needsFix], rewrites the text and returns before its report. *)
Theorem fix_mode_reports_nothing
    (isStandardSyntaxValue : text -> bool) (names : list text)
    (valueParser : text -> list Node) (decl : Declaration) :
  reported (rule isStandardSyntaxValue names valueParser true decl) = []
  /\ forall valueIndex fuel nodes st,
       warnings (walk isStandardSyntaxValue names true valueIndex fuel nodes st).1
       = warnings st.
Proof.
  split; [|intros; apply walk_fix_warnings].
  unfold rule, walkDeclsCallback.
  destruct (negb (Str.test OPERATOR_REGEX (getDeclarationValue decl))); [done|].
  destruct (negb (FUNC_CALLS_REGEX_test names (getDeclarationValue decl))); [done|].
  unfold bind, getNeedsFix.
  pose proof (walk_fix_warnings isStandardSyntaxValue names (declValueIndex decl)
                (depth (valueParser (getDeclarationValue decl)))
                (valueParser (getDeclarationValue decl)) (mkState false [])) as H.
  destruct (walk _ _ _ _ _ _ _) as [st' [nodes'|e]]; simpl in *; [|done].
  by destruct (needsFix st').
Qed.

(** ** Properties of every function node of a tree *)

Lemma everyFunction_function P i name b a u nodes :
  everyFunction P (FunctionNode i name b a u nodes) = P name nodes && everyFunctionIn P nodes.
Proof. reflexivity. Qed.

Lemma depthNode_function i name b a u nodes :
  depthNode (FunctionNode i name b a u nodes) = S (depth nodes).
Proof. reflexivity. Qed.

Lemma touched_depthNode a b : touched a b -> depthNode b = depthNode a.
Proof. intros [->|(Hf & v & ->)]; [done | by destruct a]. Qed.


Lemma Forall2_touched_depth nodes nodes' : Forall2 touched nodes nodes' -> depth nodes' = depth nodes.
Proof.
  induction 1 as [|a b l l' Hab _ IH]; [done|]. simpl.
  fold (depth l) (depth l'). by rewrite IH, (touched_depthNode a b).
Qed.


Section WalkReturns.

Variable isStandardSyntaxValue : text -> bool.
Variable names : list text.
Variable context_fix : bool.
Variable valueIndex : Z.

Lemma descend_leaf fuel node st :
  isFunction node = false ->
  descend isStandardSyntaxValue names context_fix valueIndex fuel node st
  = (st, Returned node).
Proof. by destruct node. Qed.



End WalkReturns.

(** ** The fuel of the walk *)

Section WalkFuel.

Variable isStandardSyntaxValue : text -> bool.
Variable names : list text.
Variable context_fix : bool.
Variable valueIndex : Z.

Lemma walk_fuel_level fuel :
  (forall children st,
      (depth children < fuel)%nat ->
      (walkChildren isStandardSyntaxValue names context_fix valueIndex fuel children st).2
      <> Thrown OutOfFuel) ->
  forall nodes st,
    (depth nodes <= fuel)%nat ->
    (walk isStandardSyntaxValue names context_fix valueIndex fuel nodes st).2
    <> Thrown OutOfFuel.
Proof.
  intros Hchildren nodes. induction nodes as [|node rest IH]; intros st Hd.
  { by rewrite walk_nil. }
  simpl in Hd. fold (depth rest) in Hd. rewrite walk_cons.
  destruct (callback_summary isStandardSyntaxValue names context_fix valueIndex node st)
    as (st1 & out & new & Hcb & _ & _ & _ & Hout).
  destruct out as [node1|e];
    [|rewrite (bind_thrown _ _ _ _ _ Hcb); destruct Hout as [-> _]; done].
  destruct Hout as [Ht _]. rewrite (bind_returned _ _ _ _ _ Hcb).
  assert ((descend isStandardSyntaxValue names context_fix valueIndex fuel node1 st1).2
          <> Thrown OutOfFuel) as Hdesc.
  { destruct (isFunction node) eqn:Hf.
    - destruct node; try discriminate. simpl in Ht.
      destruct Ht as (children' & -> & Ht). simpl.
      rewrite depthNode_function in Hd.
      specialize (Hchildren children' st1).
      rewrite (Forall2_touched_depth _ _ Ht) in Hchildren.
      specialize (Hchildren ltac:(lia)). unfold bind.
      destruct (walkChildren _ _ _ _ _ _ _) as [st2 [children2|e]]; simpl in *; [done|].
      intros [= ->]. by apply Hchildren.
    - assert (node1 = node) as -> by (by destruct node).
      by rewrite descend_leaf. }
  unfold bind at 1.
  destruct (descend _ _ _ _ _ _ _) as [st2 [node2|e]];
    [|simpl in *; intros [= ->]; by apply Hdesc].
  specialize (IH st2 ltac:(lia)). unfold bind.
  destruct (walk _ _ _ _ _ _ _) as [st3 [rest'|e]]; simpl in *; done.
Qed.

(** The fuel the rule gives the walk, the depth of the tree, is enough: the
    walk never stops for lack of fuel. *)
Lemma walk_fuel_enough fuel nodes st :
  (depth nodes <= fuel)%nat ->
  (walk isStandardSyntaxValue names context_fix valueIndex fuel nodes st).2
  <> Thrown OutOfFuel.
Proof.
  revert nodes st. induction fuel as [|fuel IHfuel]; apply walk_fuel_level.
  - intros children st Hd. lia.
  - intros children st Hd. apply IHfuel. lia.
Qed.

End WalkFuel.

(** ** Malformed functions *)


(** C2: the claim does not hold of the code.  A matched function with no
    children has no standalone operator, so the leading-sign check runs and
    its assertion on the first child fails: for the value [a-b calc()] the
    run throws, in check mode and in fix mode, where the claim says that the
    function is passed over without an exception. *)
Theorem empty_function_throws (context_fix : bool) :
  (forall isStandardSyntaxValue names valueIndex i name b a u st,
      FUNC_NAMES_REGEX_test names name = true ->
      callback isStandardSyntaxValue names context_fix valueIndex
        (FunctionNode i name b a u []) st
      = (st, Thrown AssertionError))
  /\ Model.valueParser (js "a-b calc()")
     = [WordNode 0 (js "a-b"); SpaceNode 3 (js " "); FunctionNode 4 (js "calc") [] [] false []]
  /\ Model.rule context_fix (mkDecl (js "a-b calc()") 0)
     = mkRun (mkDecl (js "a-b calc()") 0) [] (Some AssertionError).
Proof.
  split; [|split; [reflexivity | by destruct context_fix]].
  intros isStandardSyntaxValue names valueIndex i name b a u st Hm.
  unfold callback. by rewrite Hm.
Qed.

(** ** Running the fix again *)

Lemma quietb_quiet nodes : quietb nodes = true <-> quiet nodes.
Proof.
  unfold quietb, quiet. rewrite forallb_forall. split.
  - intros H j Hadj. destruct (needsRewriteAt nodes j) eqn:E; [|done].
    assert (In j (seqZ 0 (Z.of_nat (length nodes)))) as Hin.
    { apply list_elem_of_In, elem_of_seqZ. unfold needsRewriteAt in E.
      destruct (at_index nodes j) eqn:E'; [|done]. apply at_index_Some in E'. lia. }
    specialize (H j Hin). rewrite E, bool_decide_eq_true_2 in H by done. done.
  - intros H j _. destruct (decide (adjacent nodes j)) as [Hadj|Hadj].
    + rewrite (H j Hadj). by rewrite andb_false_r.
    + by rewrite bool_decide_eq_false_2.
Qed.

Section SecondRun.

Variable isStandardSyntaxValue : text -> bool.
Variable valueIndex : Z.

Implicit Types (nodes : list Node) (st : State).

(** On children with a standalone operator and no space to rewrite, the
    callback does nothing, in either mode. *)
Lemma checkFunctionNodes_quiet (context_fix : bool) nodes st :
  hasOperator nodes = true -> quiet nodes ->
  checkFunctionNodes isStandardSyntaxValue context_fix valueIndex nodes st
  = (st, Returned nodes).
Proof.
  intros Hop Hq. apply checkFunctionNodes_spaced. destruct context_fix.
  - destruct (operatorLoop_fix valueIndex nodes st) as (st' & nodes' & Hrun & _ & Hpt & Hws & Hfix).
    rewrite Hop in Hrun. rewrite Hrun. f_equal; [|f_equal; f_equal].
    + assert (needsFix st' = needsFix st) as Hnf.
      { apply eq_true_iff_eq. rewrite Hfix. split; [|by left].
        intros [?|(j & Hadj & Hj)]; [done|]. rewrite (Hq j Hadj) in Hj. done. }
      destruct st, st'. simpl in *. congruence.
    + apply at_index_ext. intros j. rewrite Hpt.
      destruct (at_index nodes j) as [n|] eqn:E; simpl; [|done]. f_equal.
      case_decide as Hadj; [|done]. specialize (Hq j Hadj).
      unfold needsRewriteAt in Hq. rewrite E in Hq. unfold fixNode. by rewrite Hq.
  - rewrite operatorLoop_check, hasOperator_seqZ, Hop.
    assert (concat (map (stepWarnings valueIndex nodes) (seqZ 0 (Z.of_nat (length nodes)))) = [])
      as ->.
    { apply concat_nil_Forall, Forall_forall. intros l Hl.
      apply list_elem_of_In, in_map_iff in Hl as (k & <- & _).
      unfold stepWarnings, sideWarning.
      destruct (at_index nodes k) as [op|] eqn:Ek; [|done].
      destruct (isOperator (Some op) OPERATORS) eqn:Eop; [|done].
      assert (operatorAt nodes k = true) as Hk by (unfold operatorAt; by rewrite Ek).
      pose proof (Hq (k - 1)) as H1. pose proof (Hq (k + 1)) as H2.
      unfold needsRewriteAt, adjacent in H1, H2.
      replace (k - 1 + 1) with k in H1 by lia. replace (k + 1 - 1) with k in H2 by lia.
      destruct (at_index nodes (k - 1)); destruct (at_index nodes (k + 1));
        rewrite ?H1, ?H2 by auto; done. }
    rewrite app_nil_r. by destruct st.
Qed.


End SecondRun.

Section WalkAgain.

Variable isStandardSyntaxValue : text -> bool.
Variable names : list text.
Variable valueIndex : Z.

Implicit Types (nodes : list Node) (st : State).

Lemma walk_settled_level (context_fix : bool) fuel :
  (forall children st,
      (depth children < fuel)%nat -> settled names children = true ->
      walkChildren isStandardSyntaxValue names context_fix valueIndex fuel children st
      = (st, Returned children)) ->
  forall nodes st,
    (depth nodes <= fuel)%nat -> settled names nodes = true ->
    walk isStandardSyntaxValue names context_fix valueIndex fuel nodes st
    = (st, Returned nodes).
Proof.
  intros Hchildren nodes. induction nodes as [|node rest IH]; intros st Hd Hs.
  { by rewrite walk_nil. }
  simpl in Hd. fold (depth rest) in Hd.
  unfold settled in Hs. simpl in Hs. apply andb_prop in Hs as [Hnode Hrest].
  rewrite walk_cons.
  assert (callback isStandardSyntaxValue names context_fix valueIndex node st
          = (st, Returned node)) as Hcb.
  { destruct node as [| |i name b a u children| | | |]; try done.
    rewrite everyFunction_function in Hnode. apply andb_prop in Hnode as [HP _].
    unfold callback. destruct (FUNC_NAMES_REGEX_test names name); simpl in *; [|done].
    apply andb_prop in HP as [Hop Hq]. apply quietb_quiet in Hq.
    by rewrite (bind_returned _ _ _ _ _
                  (checkFunctionNodes_quiet isStandardSyntaxValue valueIndex context_fix
                     children st Hop Hq)). }
  rewrite (bind_returned _ _ _ _ _ Hcb).
  assert (descend isStandardSyntaxValue names context_fix valueIndex fuel node st
          = (st, Returned node)) as Hdesc.
  { destruct node as [| |i name b a u children| | | |]; try done.
    rewrite depthNode_function in Hd. rewrite everyFunction_function in Hnode.
    apply andb_prop in Hnode as [_ Hch]. simpl.
    by rewrite (bind_returned _ _ _ _ _ (Hchildren children st ltac:(lia) Hch)). }
  rewrite (bind_returned _ _ _ _ _ Hdesc).
  by rewrite (bind_returned _ _ _ _ _ (IH st ltac:(lia) Hrest)).
Qed.

(** A walk over a settled tree, in either mode, changes neither the tree
    nor the state: no token is rewritten, [needsFix] is not set and nothing
    is reported. *)
Lemma walk_settled (context_fix : bool) fuel nodes st :
  (depth nodes <= fuel)%nat -> settled names nodes = true ->
  walk isStandardSyntaxValue names context_fix valueIndex fuel nodes st
  = (st, Returned nodes).
Proof.
  revert nodes st. induction fuel as [|fuel IHfuel]; apply walk_settled_level.
  - intros children st Hd. lia.
  - intros children st Hd Hs. apply IHfuel; [lia | done].
Qed.

End WalkAgain.

(** * Further properties of the rule *)

(** ** The gates before the tokenizer *)

Lemma test_OPERATOR_REGEX v :
  Str.test OPERATOR_REGEX v = true <-> "+"%char ∈ v \/ "-"%char ∈ v.
Proof.
  induction v as [|c r IH]; simpl.
  - split; [done | intros [H|H]; by apply elem_of_nil in H].
  - rewrite !orb_true_iff, !bool_decide_eq_true, IH, !elem_of_cons.
    split; [intros [[->| ->]|[?|?]] | intros [[<-|?]|[<-|?]]]; tauto.
Qed.

(** A value without a plus or a minus sign, or without a call of a name of
    the set, is left alone whatever the tokenizer would give for it: the
    declaration is as it was, nothing is reported and nothing is thrown. *)
Theorem gates_skip_value
    (isStandardSyntaxValue : text -> bool) (names : list text)
    (valueParser : text -> list Node) (context_fix : bool) (decl : Declaration) :
  (("+"%char ∉ declValue decl) /\ ("-"%char ∉ declValue decl))
  \/ FUNC_CALLS_REGEX_test names (declValue decl) = false ->
  rule isStandardSyntaxValue names valueParser context_fix decl = mkRun decl [] None.
Proof.
  intros H. unfold rule, walkDeclsCallback, getDeclarationValue.
  destruct (Str.test OPERATOR_REGEX (declValue decl)) eqn:Eop; simpl; [|done].
  destruct H as [[Hp Hm]|H]; [|by rewrite H].
  apply test_OPERATOR_REGEX in Eop as [?|?]; done.
Qed.

Lemma gates_skip_value_witness :
  rule Model.isStandardSyntaxValue Model.singleArgumentMathFunctions Model.valueParser
    true (mkDecl (js "calc(1px  *  2px)") 0)
  = mkRun (mkDecl (js "calc(1px  *  2px)") 0) [] None.
Proof.
  apply (gates_skip_value Model.isStandardSyntaxValue Model.singleArgumentMathFunctions
           Model.valueParser true (mkDecl (js "calc(1px  *  2px)") 0)).
  left. split; vm_compute; intros H; repeat (apply elem_of_cons in H as [H|H]; [discriminate H|]);
    by apply elem_of_nil in H.
Defined.

Lemma prefixCI_app a b x y :
  Str.toLower a = Str.toLower b -> Str.prefixCI (a ++ x) (b ++ y) = Str.prefixCI x y.
Proof.
  revert b. induction a as [|c a IH]; intros [|d b] H; try discriminate; [done|].
  simpl in *. injection H as Hc Hab. rewrite (IH b Hab).
  by rewrite bool_decide_eq_true_2.
Qed.

Lemma prefixCI_refl x y : Str.prefixCI x (x ++ y) = true.
Proof.
  induction x as [|c x IH]; [done|]. simpl. rewrite IH. by rewrite bool_decide_eq_true_2.
Qed.

Lemma test_app (p : text -> bool) pre s : p s = true -> Str.test p (pre ++ s) = true.
Proof.
  intros H. induction pre as [|c pre IH]; simpl.
  - destruct s; simpl; by rewrite H.
  - by rewrite IH, orb_true_r.
Qed.

(** The two patterns built from the name set agree: a name that
    [FUNC_NAMES_REGEX] accepts, written anywhere in a value and followed by
    an opening parenthesis, makes [FUNC_CALLS_REGEX] accept the value, so
    the gate never hides a call that the walk would analyse. *)
Theorem call_gate_admits_matched_name (names : list text) (pre name post : text) :
  FUNC_NAMES_REGEX_test names name = true ->
  FUNC_CALLS_REGEX_test names (pre ++ name ++ js "(" ++ post) = true.
Proof.
  unfold FUNC_NAMES_REGEX_test, FUNC_CALLS_REGEX_test. intros H.
  apply existsb_exists in H as (f & Hin & Hf). apply bool_decide_eq_true in Hf.
  apply test_app, existsb_exists. exists f. split; [done|].
  rewrite (prefixCI_app f name _ _ Hf). apply (prefixCI_refl (js "(")).
Qed.

Lemma call_gate_admits_matched_name_witness :
  FUNC_CALLS_REGEX_test [js "calc"; js "abs"]
    (js "translate(" ++ js "CaLc" ++ js "(" ++ js "1px+1px))") = true.
Proof.
  apply (call_gate_admits_matched_name [js "calc"; js "abs"] (js "translate(") (js "CaLc")
           (js "1px+1px))")).
  reflexivity.
Defined.

(** ** Inserting a character *)

Lemma clamp_range l i : 0 <= l -> 0 <= Str.clamp l i <= l.
Proof. unfold Str.clamp. intros. destruct (Z.ltb_spec i 0); lia. Qed.

(** [insertCharAtIndex] never loses or reorders a character, whatever the
    index (negative, or beyond the end): the text is cut in two at the
    index clamped to the text, as [slice] does, and the insertion is put
    between the two parts. *)
Theorem insertCharAtIndex_splits (str : text) (index : Z) (char : text) :
  exists pre post,
    str = pre ++ post
    /\ Str.len pre = Str.clamp (Str.len str) index
    /\ insertCharAtIndex str index char = pre ++ char ++ post
    /\ Str.len (insertCharAtIndex str index char) = Str.len str + Str.len char.
Proof.
  pose proof (clamp_range (Str.len str) index ltac:(unfold Str.len; lia)) as Hc.
  exists (take (Z.to_nat (Str.clamp (Str.len str) index)) str),
         (drop (Z.to_nat (Str.clamp (Str.len str) index)) str).
  assert (insertCharAtIndex str index char
          = take (Z.to_nat (Str.clamp (Str.len str) index)) str ++ char
            ++ drop (Z.to_nat (Str.clamp (Str.len str) index)) str) as Heq.
  { unfold insertCharAtIndex, Str.slice.
    rewrite (clamp_in_range (Str.len str) 0) by (unfold Str.len; lia).
    rewrite (clamp_in_range (Str.len str) (Str.len str)) by (unfold Str.len; lia).
    simpl. rewrite Z.sub_0_r. f_equal. f_equal.
    apply take_ge. rewrite length_drop. unfold Str.len in *. lia. }
  split_and!.
  - by rewrite take_drop.
  - unfold Str.len in *. rewrite length_take. lia.
  - done.
  - rewrite Heq. unfold Str.len in *. rewrite !length_app, length_take, length_drop. lia.
Qed.

(** ** The leading-sign check, operator glued on the left only *)

(** In a matched function without a standalone operator whose first child
    is a word of standard syntax, when the first operator character of the
    word, at an index above 0, has a character other than a space before it
    and the end of the word or a space after it, check mode reports one
    diagnostic, "expected single space before", one character long, at the
    operator's absolute index, and fix mode reports nothing and puts one
    space before the operator. *)
Theorem operator_glued_on_the_left
    (isStandardSyntaxValue : text -> bool) (valueIndex si i : Z)
    (v : text) (rest : list Node) (st : State) :
  hasOperator (WordNode si v :: rest) = false ->
  isStandardSyntaxValue v = true ->
  Str.search OPERATOR_REGEX v = i -> 0 < i ->
  gluedBothSides v i = false ->
  gluedBefore v i = true ->
  exists pre c post,
    v = pre ++ c :: post /\ Str.len pre = i /\ (c = "+"%char \/ c = "-"%char)
    /\ checkFunctionNodes isStandardSyntaxValue false valueIndex (WordNode si v :: rest) st
       = (mkState (needsFix st)
            (warnings st
             ++ [mkWarning (expectedBefore [c]) (valueIndex + si + i) (valueIndex + si + i + 1)]),
          Returned (WordNode si v :: rest))
    /\ checkFunctionNodes isStandardSyntaxValue true valueIndex (WordNode si v :: rest) st
       = (mkState true (warnings st),
          Returned (WordNode si (pre ++ js " " ++ c :: post) :: rest)).
Proof.
  intros Hno Hstd Hi Hpos Hboth Hbefore.
  destruct (search_split OPERATOR_REGEX v i Hi ltac:(lia)) as (pre & c & post & Hv & Hlen & Hc).
  exists pre, c, post. split; [done|]. split; [done|].
  split; [by apply OPERATOR_REGEX_head in Hc|].
  assert (firstQualifies isStandardSyntaxValue (WordNode si v :: rest) = true) as Hq.
  { unfold firstQualifies. simpl. rewrite Hstd, Hi. simpl. by apply Z.ltb_lt. }
  assert (Str.charAt v i = [c]) as Hop by (rewrite Hv, <- Hlen; apply charAt_app).
  split.
  - rewrite checkFunctionNodes_glued by done.
    erewrite bind_returned by (by apply checkForOperatorInFirstNode_check).
    simpl. rewrite Hi, Hboth, Hbefore, Hop. reflexivity.
  - rewrite checkFunctionNodes_glued by done.
    pose proof (checkForOperatorInFirstNode_fix isStandardSyntaxValue valueIndex
                  (WordNode si v) rest st Hq) as Hfix.
    simpl in Hfix. rewrite Hi, Hboth, Hbefore in Hfix.
    rewrite (bind_returned _ _ _ _ _ Hfix). simpl. unfold ret.
    by rewrite Hv at 1; rewrite <- Hlen, insertCharAtIndex_app.
Qed.

Lemma operator_glued_on_the_left_witness :
  exists pre c post,
    js "1px+" = pre ++ c :: post /\ Str.len pre = 3 /\ (c = "+"%char \/ c = "-"%char)
    /\ checkFunctionNodes Model.isStandardSyntaxValue false 7
         (WordNode 5 (js "1px+") :: [SpaceNode 9 (js " "); WordNode 10 (js "2px")])
         (mkState false [])
       = (mkState (needsFix (mkState false []))
            (warnings (mkState false [])
             ++ [mkWarning (expectedBefore [c]) (7 + 5 + 3) (7 + 5 + 3 + 1)]),
          Returned (WordNode 5 (js "1px+") :: [SpaceNode 9 (js " "); WordNode 10 (js "2px")]))
    /\ checkFunctionNodes Model.isStandardSyntaxValue true 7
         (WordNode 5 (js "1px+") :: [SpaceNode 9 (js " "); WordNode 10 (js "2px")])
         (mkState false [])
       = (mkState true (warnings (mkState false [])),
          Returned (WordNode 5 (pre ++ js " " ++ c :: post)
                    :: [SpaceNode 9 (js " "); WordNode 10 (js "2px")])).
Proof.
  apply (operator_glued_on_the_left Model.isStandardSyntaxValue 7 5 3 (js "1px+")
           [SpaceNode 9 (js " "); WordNode 10 (js "2px")] (mkState false []));
    [reflexivity | reflexivity | reflexivity | lia | reflexivity | reflexivity].
Defined.

(** ** Functions that the callback leaves alone *)

(** A function with one child whose text has no operator character after
    its first character (a leading sign, or no sign at all) is left alone
    in either mode: a sign at index 0 is never flagged, and the
    trailing-sign check does not act on an only child. *)
Theorem only_child_with_leading_sign
    (isStandardSyntaxValue : text -> bool) (context_fix : bool) (valueIndex : Z)
    (n : Node) (st : State) :
  Str.search OPERATOR_REGEX (value n) <= 0 ->
  checkFunctionNodes isStandardSyntaxValue context_fix valueIndex [n] st
  = (st, Returned [n]).
Proof.
  intros Hs. destruct (hasOperator [n]) eqn:Hop.
  - apply checkFunctionNodes_quiet; [done|].
    intros j [Hadj|Hadj]; apply operatorAt_range in Hadj; simpl in Hadj;
      unfold needsRewriteAt;
      (destruct (at_index [n] j) eqn:E; [apply at_index_Some in E; simpl in E; lia | done]).
  - rewrite checkFunctionNodes_glued by done.
    assert (firstQualifies isStandardSyntaxValue [n] = false) as Hq.
    { unfold firstQualifies. simpl. apply andb_false_intro2. by apply Z.ltb_ge. }
    rewrite (bind_returned _ _ _ _ _
               (checkForOperatorInFirstNode_skip isStandardSyntaxValue valueIndex
                  context_fix [n] st ltac:(done) Hq)).
    simpl.
    by rewrite (bind_returned _ _ _ _ _
                  (checkForOperatorInLastNode_skip valueIndex context_fix [n] st
                     ltac:(done) eq_refl)).
Qed.

Lemma only_child_with_leading_sign_witness :
  checkFunctionNodes Model.isStandardSyntaxValue true 0 [WordNode 4 (js "-1px")]
    (mkState false [])
  = (mkState false [], Returned [WordNode 4 (js "-1px")]).
Proof.
  apply (only_child_with_leading_sign Model.isStandardSyntaxValue true 0
           (WordNode 4 (js "-1px")) (mkState false [])).
  vm_compute. discriminate.
Defined.

Lemma needsRewrite_false_space sp :
  isSpace sp = true -> value sp = js " " \/ NEWLINE_REGEX (value sp) = true ->
  needsRewrite sp = false.
Proof.
  intros Hsp H. apply not_true_iff_false. rewrite needsRewrite_true.
  intros (_ & Hne & Hnl). destruct H; congruence.
Qed.

(** A function with a standalone operator in which every space next to a
    standalone operator is a single space, or begins with a newline, is
    left alone in either mode: nothing is reported and nothing is
    rewritten. *)
Theorem well_spaced_function_left_alone
    (isStandardSyntaxValue : text -> bool) (context_fix : bool) (valueIndex : Z)
    (nodes : list Node) (st : State) :
  hasOperator nodes = true ->
  (forall j sp,
      adjacent nodes j -> at_index nodes j = Some sp -> isSpace sp = true ->
      value sp = js " " \/ NEWLINE_REGEX (value sp) = true) ->
  checkFunctionNodes isStandardSyntaxValue context_fix valueIndex nodes st
  = (st, Returned nodes).
Proof.
  intros Hop Hsp. apply checkFunctionNodes_quiet; [done|].
  intros j Hadj. unfold needsRewriteAt.
  destruct (at_index nodes j) as [sp|] eqn:E; [|done].
  destruct (isSpace sp) eqn:Es; [by apply needsRewrite_false_space; eauto|].
  unfold needsRewrite. by rewrite Es.
Qed.

Lemma well_spaced_function_left_alone_witness :
  checkFunctionNodes Model.isStandardSyntaxValue false 0
    [WordNode 5 (js "1px"); SpaceNode 8 (js " "); WordNode 9 (js "+");
     SpaceNode 10 (LF ++ js "  "); WordNode 13 (js "2px-3px"); SpaceNode 20 (js "   ");
     WordNode 23 (js "4px")] (mkState false [])
  = (mkState false [],
     Returned
       [WordNode 5 (js "1px"); SpaceNode 8 (js " "); WordNode 9 (js "+");
        SpaceNode 10 (LF ++ js "  "); WordNode 13 (js "2px-3px"); SpaceNode 20 (js "   ");
        WordNode 23 (js "4px")]).
Proof.
  apply (well_spaced_function_left_alone Model.isStandardSyntaxValue false 0
           [WordNode 5 (js "1px"); SpaceNode 8 (js " "); WordNode 9 (js "+");
            SpaceNode 10 (LF ++ js "  "); WordNode 13 (js "2px-3px"); SpaceNode 20 (js "   ");
            WordNode 23 (js "4px")] (mkState false [])); [reflexivity|].
  intros j sp Hadj Hj Hsp.
  assert (j = 1 \/ j = 3) as [-> | ->].
  { destruct Hadj as [H|H]; pose proof (operatorAt_range _ _ H) as Hr; simpl in Hr;
      assert (j = -1 \/ j = 0 \/ j = 1 \/ j = 2 \/ j = 3 \/ j = 4 \/ j = 5 \/ j = 6 \/ j = 7)
        as Hcases by lia;
      destruct Hcases as [->|[->|[->|[->|[->|[->|[->|[->| ->]]]]]]]];
      vm_compute in H; try discriminate H; try (by left); try (by right);
      vm_compute in Hj; try discriminate Hj; injection Hj as <-; discriminate Hsp. }
  - injection Hj as <-. by left.
  - injection Hj as <-. by right.
Defined.

(** ** The trailing-sign check *)

(** In a matched function without a standalone operator whose first child
    does not qualify for the leading-sign check, when the trailing-sign
    check flags the last child, check mode reports exactly one diagnostic,
    "expected an operator before sign", one character long, at the absolute
    index of the first operator character of the last child, and changes
    nothing. *)
Theorem trailing_sign_reported
    (isStandardSyntaxValue : text -> bool) (valueIndex i : Z)
    (nodes : list Node) (lastNode : Node) (st : State) :
  hasOperator nodes = false ->
  firstQualifies isStandardSyntaxValue nodes = false ->
  lastFlagged nodes = true ->
  at_ nodes (-1) = Some lastNode ->
  Str.search OPERATOR_REGEX (value lastNode) = i ->
  exists pre c post,
    value lastNode = pre ++ c :: post /\ Str.len pre = i /\ (c = "+"%char \/ c = "-"%char)
    /\ checkFunctionNodes isStandardSyntaxValue false valueIndex nodes st
       = (mkState (needsFix st)
            (warnings st
             ++ [mkWarning (expectedOperatorBeforeSign [c])
                   (valueIndex + sourceIndex lastNode + i)
                   (valueIndex + sourceIndex lastNode + i + 1)]),
          Returned nodes).
Proof.
  intros Hno Hq Hflag Hl Hi.
  assert (i <> -1) as Hne.
  { unfold lastFlagged in Hflag. rewrite Hl in Hflag.
    apply andb_prop in Hflag as [_ [[_ H]%andb_prop _]%andb_prop].
    apply negb_true_iff, Z.eqb_neq in H. congruence. }
  pose proof (search_range OPERATOR_REGEX (value lastNode)) as Hr. rewrite Hi in Hr.
  destruct (search_split OPERATOR_REGEX (value lastNode) i Hi ltac:(lia))
    as (pre & c & post & Hv & Hlen & Hc).
  exists pre, c, post. split; [done|]. split; [done|].
  split; [by apply OPERATOR_REGEX_head in Hc|].
  assert (nodes <> []) as Hnodes by (intros ->; discriminate Hl).
  assert (Str.charAt (value lastNode) i = [c]) as Hop by (rewrite Hv, <- Hlen; apply charAt_app).
  rewrite checkFunctionNodes_glued by done.
  rewrite (bind_returned _ _ _ _ _
             (checkForOperatorInFirstNode_skip isStandardSyntaxValue valueIndex false nodes st
                Hnodes Hq)).
  simpl.
  rewrite (bind_returned _ _ _ _ _
             (checkForOperatorInLastNode_check valueIndex nodes lastNode st Hflag Hl)).
  simpl. unfold ret. by rewrite Hi, Hop.
Qed.

Lemma trailing_sign_reported_witness :
  exists pre c post,
    value (WordNode 10 (js "-2")) = pre ++ c :: post /\ Str.len pre = 0
    /\ (c = "+"%char \/ c = "-"%char)
    /\ checkFunctionNodes Model.isStandardSyntaxValue false 7
         [WordNode 5 (js "10px"); SpaceNode 9 (js " "); WordNode 10 (js "-2")]
         (mkState false [])
       = (mkState (needsFix (mkState false []))
            (warnings (mkState false [])
             ++ [mkWarning (expectedOperatorBeforeSign [c])
                   (7 + sourceIndex (WordNode 10 (js "-2")) + 0)
                   (7 + sourceIndex (WordNode 10 (js "-2")) + 0 + 1)]),
          Returned [WordNode 5 (js "10px"); SpaceNode 9 (js " "); WordNode 10 (js "-2")]).
Proof.
  apply (trailing_sign_reported Model.isStandardSyntaxValue 7 0
           [WordNode 5 (js "10px"); SpaceNode 9 (js " "); WordNode 10 (js "-2")]
           (WordNode 10 (js "-2")) (mkState false [])); reflexivity.
Defined.

(** *** Trimming *)

Lemma trimStart_noWhiteSpace x y :
  x <> [] -> noWhiteSpace x = true -> Str.trimStart (x ++ y) = x ++ y.
Proof.
  destruct x as [|c x]; [done|]. intros _ H. simpl in *.
  apply andb_prop in H as [Hc _]. apply negb_true_iff in Hc. by rewrite Hc.
Qed.

Lemma trimEnd_last s c :
  Str.isWhiteSpace c = false -> Str.trimEnd (s ++ [c]) = s ++ [c].
Proof.
  intros Hc. unfold Str.trimEnd. rewrite reverse_snoc. simpl. rewrite Hc.
  by rewrite reverse_cons, reverse_involutive.
Qed.

Lemma trimEnd_white s c :
  Str.isWhiteSpace c = true -> Str.trimEnd (s ++ [c]) = Str.trimEnd s.
Proof. intros Hc. unfold Str.trimEnd. rewrite reverse_snoc. simpl. by rewrite Hc. Qed.

Lemma trimEnd_noWhiteSpace y x :
  x <> [] -> noWhiteSpace x = true -> Str.trimEnd (y ++ x) = y ++ x.
Proof.
  intros Hne H. destruct (exists_last Hne) as (x' & z & ->).
  unfold noWhiteSpace in H. rewrite forallb_app in H. simpl in H.
  apply andb_prop in H as [_ Hz]. rewrite andb_true_r in Hz. apply negb_true_iff in Hz.
  rewrite app_assoc. by apply trimEnd_last.
Qed.

Lemma trim_noWhiteSpace_ends x y z :
  x <> [] -> noWhiteSpace x = true -> z <> [] -> noWhiteSpace z = true ->
  Str.trim (x ++ y ++ z) = x ++ y ++ z.
Proof.
  intros Hx Hxw Hz Hzw. unfold Str.trim. rewrite trimStart_noWhiteSpace by done.
  rewrite app_assoc. by apply trimEnd_noWhiteSpace.
Qed.

(** The two insertions and trims of the trailing-sign fix, on a word
    without white space. *)
Lemma spaced_sign pre c post :
  noWhiteSpace (pre ++ c :: post) = true ->
  Str.trim
    (insertCharAtIndex
       (Str.trim (insertCharAtIndex (pre ++ c :: post) (Str.len pre + 1) (js " ")))
       (Str.len pre) (js " "))
  = spacedSign pre c post.
Proof.
  intros H. unfold noWhiteSpace in H. rewrite forallb_app in H. simpl in H.
  apply andb_prop in H as [Hpre [Hc Hpost]%andb_prop].
  assert (noWhiteSpace [c] = true) as Hc' by (simpl; by rewrite Hc).
  assert (Str.trim (insertCharAtIndex (pre ++ c :: post) (Str.len pre + 1) (js " "))
          = pre ++ c :: match post with [] => [] | _ => js " " ++ post end) as ->.
  { replace (pre ++ c :: post) with ((pre ++ [c]) ++ post) by by rewrite <- app_assoc.
    replace (Str.len pre + 1) with (Str.len (pre ++ [c]))
      by (unfold Str.len; rewrite length_app; simpl; lia).
    rewrite insertCharAtIndex_app.
    assert (noWhiteSpace (pre ++ [c]) = true) as Hpc
        by (unfold noWhiteSpace; rewrite forallb_app; simpl; by rewrite Hpre, Hc).
    destruct post as [|p post].
    - rewrite app_nil_r. unfold Str.trim.
      rewrite trimStart_noWhiteSpace by (done || by destruct pre).
      change (js " ") with [" "%char]. rewrite trimEnd_white by done.
      rewrite <- (app_nil_l (pre ++ [c])) at 1.
      rewrite trimEnd_noWhiteSpace by (done || by destruct pre).
      reflexivity.
    - rewrite trim_noWhiteSpace_ends by (done || by destruct pre).
      by rewrite <- app_assoc. }
  rewrite insertCharAtIndex_app. unfold spacedSign.
  set (tail := match post with [] => [] | _ => js " " ++ post end).
  assert (exists t z, c :: tail = t ++ [z] /\ Str.isWhiteSpace z = false) as (t & z & Ht & Hz).
  { subst tail. destruct post as [|p post].
    - exists [], c. split; [done|]. by apply negb_true_iff.
    - destruct (exists_last (l := p :: post) ltac:(done)) as (x' & z & Hx).
      exists (c :: js " " ++ x'), z. split; [simpl; by rewrite Hx|].
      unfold noWhiteSpace in Hpost. rewrite Hx, forallb_app in Hpost. simpl in Hpost.
      apply andb_prop in Hpost as [_ Hz]. rewrite andb_true_r in Hz.
      by apply negb_true_iff. }
  destruct pre as [|p pre].
  - simpl. unfold Str.trim. simpl.
    apply negb_true_iff in Hc. rewrite Hc.
    rewrite Ht. by apply trimEnd_last.
  - unfold Str.trim. rewrite trimStart_noWhiteSpace by done.
    change (js " " ++ c :: tail) with (js " " ++ (c :: tail)). rewrite Ht.
    rewrite !app_assoc. rewrite trimEnd_last by done. reflexivity.
Qed.

(** Under the same conditions, fix mode reports nothing, sets [needsFix]
    and rewrites the last child only, whatever its text: the new text is
    the word with a space put after its first operator character, trimmed,
    then a space put at the index of that character, trimmed.  When the
    text of the last child has no white space, its new text has one space
    between the sign and what stands before it in the word, one between the
    sign and what stands after it, and no space at either end: [-2] becomes
    [- 2], [1px-2px] becomes [1px - 2px]. *)
Theorem trailing_sign_fixed
    (isStandardSyntaxValue : text -> bool) (valueIndex : Z)
    (nodes : list Node) (lastNode : Node) (st : State) :
  hasOperator nodes = false ->
  firstQualifies isStandardSyntaxValue nodes = false ->
  lastFlagged nodes = true ->
  at_ nodes (-1) = Some lastNode ->
  exists pre c post v',
    value lastNode = pre ++ c :: post
    /\ Str.len pre = Str.search OPERATOR_REGEX (value lastNode)
    /\ (c = "+"%char \/ c = "-"%char)
    /\ v' = Str.trim
              (insertCharAtIndex
                 (Str.trim (insertCharAtIndex (value lastNode) (Str.len pre + 1) (js " ")))
                 (Str.len pre) (js " "))
    /\ checkFunctionNodes isStandardSyntaxValue true valueIndex nodes st
       = (mkState true (warnings st),
          Returned (store nodes (Z.of_nat (length nodes) - 1) (setValue lastNode v')))
    /\ (forall j, j <> Z.of_nat (length nodes) - 1 ->
         at_index (store nodes (Z.of_nat (length nodes) - 1) (setValue lastNode v')) j
         = at_index nodes j)
    /\ (noWhiteSpace (value lastNode) = true -> v' = spacedSign pre c post).
Proof.
  intros Hno Hq Hflag Hl.
  assert (Str.search OPERATOR_REGEX (value lastNode) <> -1) as Hne.
  { unfold lastFlagged in Hflag. rewrite Hl in Hflag.
    apply andb_prop in Hflag as [_ [[_ H]%andb_prop _]%andb_prop].
    by apply negb_true_iff, Z.eqb_neq in H. }
  pose proof (search_range OPERATOR_REGEX (value lastNode)) as Hr.
  destruct (search_split OPERATOR_REGEX (value lastNode) _ eq_refl ltac:(lia))
    as (pre & c & post & Hv & Hlen & Hc).
  exists pre, c, post. eexists. split; [done|]. split; [done|].
  split; [by apply OPERATOR_REGEX_head in Hc|]. split; [reflexivity|].
  assert (nodes <> []) as Hnodes by (intros ->; discriminate Hl).
  split_and!.
  - rewrite checkFunctionNodes_glued by done.
    rewrite (bind_returned _ _ _ _ _
               (checkForOperatorInFirstNode_skip isStandardSyntaxValue valueIndex true nodes st
                  Hnodes Hq)).
    simpl.
    rewrite (bind_returned _ _ _ _ _
               (checkForOperatorInLastNode_fix valueIndex nodes lastNode st Hflag Hl)).
    simpl. unfold ret. by rewrite <- Hlen.
  - intros j Hj. by apply at_index_store_ne.
  - intros Hws. rewrite Hv in Hws |- *. by rewrite spaced_sign.
Qed.

Lemma trailing_sign_fixed_witness :
  exists pre c post v',
    value (WordNode 10 (js "-2")) = pre ++ c :: post
    /\ Str.len pre = Str.search OPERATOR_REGEX (value (WordNode 10 (js "-2")))
    /\ (c = "+"%char \/ c = "-"%char)
    /\ v' = Str.trim
              (insertCharAtIndex
                 (Str.trim
                    (insertCharAtIndex (value (WordNode 10 (js "-2"))) (Str.len pre + 1)
                       (js " ")))
                 (Str.len pre) (js " "))
    /\ checkFunctionNodes Model.isStandardSyntaxValue true 7
         [WordNode 5 (js "10px"); SpaceNode 9 (js " "); WordNode 10 (js "-2")]
         (mkState false [])
       = (mkState true (warnings (mkState false [])),
          Returned
            (store [WordNode 5 (js "10px"); SpaceNode 9 (js " "); WordNode 10 (js "-2")]
               (Z.of_nat
                  (length [WordNode 5 (js "10px"); SpaceNode 9 (js " "); WordNode 10 (js "-2")])
                - 1)
               (setValue (WordNode 10 (js "-2")) v')))
    /\ (forall j,
         j <> Z.of_nat
                (length [WordNode 5 (js "10px"); SpaceNode 9 (js " "); WordNode 10 (js "-2")])
              - 1 ->
         at_index
           (store [WordNode 5 (js "10px"); SpaceNode 9 (js " "); WordNode 10 (js "-2")]
              (Z.of_nat
                 (length [WordNode 5 (js "10px"); SpaceNode 9 (js " "); WordNode 10 (js "-2")])
               - 1)
              (setValue (WordNode 10 (js "-2")) v')) j
         = at_index [WordNode 5 (js "10px"); SpaceNode 9 (js " "); WordNode 10 (js "-2")] j)
    /\ (noWhiteSpace (value (WordNode 10 (js "-2"))) = true -> v' = spacedSign pre c post).
Proof.
  apply (trailing_sign_fixed Model.isStandardSyntaxValue 7
           [WordNode 5 (js "10px"); SpaceNode 9 (js " "); WordNode 10 (js "-2")]
           (WordNode 10 (js "-2")) (mkState false [])); reflexivity.
Defined.

(** ** The state of the spaces after a fix *)

(** In fix mode the callback on children with a standalone operator
    returns children of the same number, with the operators where they
    were, in which every space next to a standalone operator is a single
    space or begins with a newline. *)
Theorem fix_leaves_operators_spaced
    (isStandardSyntaxValue : text -> bool) (valueIndex : Z)
    (nodes : list Node) (st : State) :
  hasOperator nodes = true ->
  exists st' nodes',
    checkFunctionNodes isStandardSyntaxValue true valueIndex nodes st = (st', Returned nodes')
    /\ length nodes' = length nodes
    /\ (forall j, operatorAt nodes' j = operatorAt nodes j)
    /\ forall j sp,
         adjacent nodes' j -> at_index nodes' j = Some sp -> isSpace sp = true ->
         value sp = js " " \/ NEWLINE_REGEX (value sp) = true.
Proof.
  intros Hop.
  destruct (operatorLoop_fix valueIndex nodes st) as (st' & nodes' & Hrun & Hlen & Hpt & _ & _).
  rewrite Hop in Hrun. exists st', nodes'. split; [by apply checkFunctionNodes_spaced|].
  split; [done|].
  assert (forall j, operatorAt nodes' j = operatorAt nodes j) as Hops.
  { intros j. unfold operatorAt. rewrite Hpt. destruct (at_index nodes j); simpl; [|done].
    case_decide; [apply isOperator_fixNode | done]. }
  split; [done|].
  intros j sp Hadj Hj Hsp. unfold adjacent in Hadj. rewrite !Hops in Hadj.
  rewrite Hpt in Hj. destruct (at_index nodes j) as [n|]; [|done]. simpl in Hj.
  rewrite decide_True in Hj by done. injection Hj as <-.
  pose proof (needsRewrite_fixNode n) as Hnr.
  destruct (Str.eqb (value (fixNode n)) (js " ")) eqn:E1; [left; by apply eqb_true|].
  destruct (NEWLINE_REGEX (value (fixNode n))) eqn:E2; [by right|].
  exfalso. apply not_true_iff_false in Hnr. apply Hnr, needsRewrite_true.
  split_and!; [done | by apply eqb_false | done].
Qed.

Lemma fix_leaves_operators_spaced_witness :
  exists st' nodes',
    checkFunctionNodes Model.isStandardSyntaxValue true 0
      [WordNode 5 (js "1px"); SpaceNode 8 (js "   "); WordNode 11 (js "-");
       SpaceNode 12 (js " " ++ LF ++ js " "); WordNode 15 (js "2px")] (mkState false [])
    = (st', Returned nodes')
    /\ length nodes'
       = length [WordNode 5 (js "1px"); SpaceNode 8 (js "   "); WordNode 11 (js "-");
                 SpaceNode 12 (js " " ++ LF ++ js " "); WordNode 15 (js "2px")]
    /\ (forall j,
          operatorAt nodes' j
          = operatorAt [WordNode 5 (js "1px"); SpaceNode 8 (js "   "); WordNode 11 (js "-");
                        SpaceNode 12 (js " " ++ LF ++ js " "); WordNode 15 (js "2px")] j)
    /\ forall j sp,
         adjacent nodes' j -> at_index nodes' j = Some sp -> isSpace sp = true ->
         value sp = js " " \/ NEWLINE_REGEX (value sp) = true.
Proof.
  apply (fix_leaves_operators_spaced Model.isStandardSyntaxValue 0
           [WordNode 5 (js "1px"); SpaceNode 8 (js "   "); WordNode 11 (js "-");
            SpaceNode 12 (js " " ++ LF ++ js " "); WordNode 15 (js "2px")] (mkState false [])).
  reflexivity.
Defined.

(** ** The shape of every diagnostic *)

Lemma spacingWarning_oneChar valueIndex op position :
  isOperator (Some op) OPERATORS = true ->
  oneCharWarning (spacingWarning valueIndex op position).
Proof.
  simpl. intros [_ H]%andb_prop. unfold has in H. apply bool_decide_eq_true in H.
  unfold oneCharWarning, spacingWarning. simpl.
  assert (value op = js "+" \/ value op = js "-") as Hv.
  { unfold OPERATORS in H. apply elem_of_cons in H as [?|H]; [by left|].
    apply elem_of_cons in H as [?|H]; [by right | by apply elem_of_nil in H]. }
  split; [by destruct position|]. by destruct Hv as [-> | ->].
Qed.

Lemma charAt_operator v :
  0 <= Str.search OPERATOR_REGEX v ->
  (Str.charAt v (Str.search OPERATOR_REGEX v) = js "+"
   \/ Str.charAt v (Str.search OPERATOR_REGEX v) = js "-")
  /\ Str.len (Str.charAt v (Str.search OPERATOR_REGEX v)) = 1.
Proof.
  intros H.
  destruct (search_split OPERATOR_REGEX v _ eq_refl H) as (pre & c & post & Hv & Hlen & Hc).
  assert (Str.charAt v (Str.search OPERATOR_REGEX v) = [c]) as ->
      by (rewrite Hv at 1; rewrite <- Hlen; apply charAt_app).
  apply OPERATOR_REGEX_head in Hc as [-> | ->]; split; auto.
Qed.

Section OneChar.

Variable isStandardSyntaxValue : text -> bool.
Variable names : list text.
Variable context_fix : bool.
Variable valueIndex : Z.

Lemma operatorLoop_oneChar nodes :
  keeps keepsOneChar (operatorLoop context_fix valueIndex nodes).
Proof.
  intros st H.
  destruct (operatorLoop_summary context_fix valueIndex nodes st)
    as (st' & nodes' & new & -> & Hws & _ & _ & Hnew).
  simpl. rewrite Hws. apply Forall_app. split; [done|].
  apply Forall_forall. intros w Hw.
  destruct (Hnew w Hw) as (_ & i & op & position & sp & _ & Hop & _ & _ & ->).
  by apply spacingWarning_oneChar.
Qed.

Lemma checkForOperatorInFirstNode_oneChar nodes :
  keeps keepsOneChar
    (checkForOperatorInFirstNode isStandardSyntaxValue context_fix valueIndex nodes).
Proof.
  intros st H. destruct nodes as [|firstNode rest]; [done|].
  destruct (firstQualifies isStandardSyntaxValue (firstNode :: rest)) eqn:Hq;
    [|by rewrite checkForOperatorInFirstNode_skip].
  destruct context_fix.
  - rewrite checkForOperatorInFirstNode_fix by done.
    destruct (gluedBothSides _ _); [done|]. by destruct (gluedBefore _ _).
  - rewrite checkForOperatorInFirstNode_check by done. simpl.
    assert (0 <= Str.search OPERATOR_REGEX (value firstNode)) as Hpos.
    { unfold firstQualifies in Hq. simpl in Hq.
      apply andb_prop in Hq as [_ Hq]. apply Z.ltb_lt in Hq. lia. }
    destruct (charAt_operator (value firstNode) Hpos) as [Hop Hlen].
    apply Forall_app. split; [done|].
    destruct (gluedBothSides _ _); [|destruct (gluedBefore _ _)];
      repeat first [apply Forall_nil_2 | apply Forall_cons_2];
      (split; simpl; [exact Hop | lia]).
Qed.

Lemma checkForOperatorInLastNode_oneChar nodes :
  keeps keepsOneChar (checkForOperatorInLastNode context_fix valueIndex nodes).
Proof.
  intros st H. destruct nodes as [|n rest]; [done|].
  destruct (at_last_nonempty (n :: rest) ltac:(done)) as [lastNode Hl].
  destruct (lastFlagged (n :: rest)) eqn:Hq;
    [|by rewrite checkForOperatorInLastNode_skip].
  destruct context_fix.
  - by rewrite (checkForOperatorInLastNode_fix _ _ lastNode).
  - rewrite (checkForOperatorInLastNode_check _ _ lastNode) by done. simpl.
    assert (0 <= Str.search OPERATOR_REGEX (value lastNode)) as Hpos.
    { unfold lastFlagged in Hq. rewrite Hl in Hq.
      apply andb_prop in Hq as [_ [[_ Hs]%andb_prop _]%andb_prop].
      apply negb_true_iff, Z.eqb_neq in Hs.
      pose proof (search_range OPERATOR_REGEX (value lastNode)). lia. }
    destruct (charAt_operator (value lastNode) Hpos) as [Hop Hlen].
    apply Forall_app. split; [done|].
    apply Forall_cons_2; [|apply Forall_nil_2]. split; simpl; [exact Hop | lia].
Qed.

Lemma checkFunctionNodes_oneChar nodes :
  keeps keepsOneChar (checkFunctionNodes isStandardSyntaxValue context_fix valueIndex nodes).
Proof.
  unfold checkFunctionNodes.
  apply keeps_bind; [apply _ | apply operatorLoop_oneChar|].
  intros [found nodes1]. destruct found; simpl; [apply keeps_ret, _|].
  apply keeps_bind; [apply _ | apply checkForOperatorInFirstNode_oneChar|].
  intros [first nodes2]. destruct first; [apply keeps_ret, _|].
  apply keeps_bind; [apply _ | apply checkForOperatorInLastNode_oneChar|].
  intros r2. apply keeps_ret, _.
Qed.

Lemma callback_oneChar node :
  keeps keepsOneChar (callback isStandardSyntaxValue names context_fix valueIndex node).
Proof.
  destruct node; try (apply keeps_ret, _). unfold callback.
  destruct (negb _); [apply keeps_ret, _|].
  apply keeps_bind; [apply _ | apply checkFunctionNodes_oneChar|].
  intros nodes'. apply keeps_ret, _.
Qed.

End OneChar.

(** Every diagnostic of a run names the operator [+] or [-] and spans
    exactly one character ([endIndex] is [index + 1]), whatever the
    tokenizer gives and whether or not the run throws. *)
Theorem diagnostics_span_one_character
    (isStandardSyntaxValue : text -> bool) (names : list text)
    (valueParser : text -> list Node) (context_fix : bool) (decl : Declaration) :
  Forall oneCharWarning
    (reported (rule isStandardSyntaxValue names valueParser context_fix decl)).
Proof.
  unfold rule, walkDeclsCallback.
  destruct (negb (Str.test OPERATOR_REGEX (getDeclarationValue decl))); [by constructor|].
  destruct (negb (FUNC_CALLS_REGEX_test names (getDeclarationValue decl))); [by constructor|].
  pose proof (walk_keeps isStandardSyntaxValue names context_fix (declValueIndex decl)
                keepsOneChar
                (callback_oneChar isStandardSyntaxValue names context_fix (declValueIndex decl))
                (depth (valueParser (getDeclarationValue decl)))
                (valueParser (getDeclarationValue decl)) (mkState false [])
                ltac:(by constructor)) as H.
  unfold bind, getNeedsFix.
  destruct (walk _ _ _ _ _ _ _) as [st' [nodes'|e]]; simpl in *; [|done].
  by destruct (needsFix st').
Qed.

(** ** What a walk can change *)

Lemma rewritten_refl a : rewritten a a.
Proof. by left. Qed.

Lemma Forall2_rewritten_refl nodes : Forall2 rewritten nodes nodes.
Proof. induction nodes; constructor; [apply rewritten_refl | done]. Qed.

Lemma rewritten_fixNode n : rewritten n (fixNode n).
Proof.
  unfold fixNode. destruct (needsRewrite n) eqn:E; [|by left].
  right. apply needsRewrite_true in E as (Hsp & _). split; [by right | eauto].
Qed.

Lemma Forall2_rewritten_store nodes i n v :
  at_index nodes i = Some n -> isWord n = true ->
  Forall2 rewritten nodes (store nodes i (setValue n v)).
Proof.
  intros Hn Hw. apply Forall2_same_length_lookup_2; [by rewrite length_store|].
  intros k a b Ha Hb. rewrite <- at_index_nat in Ha, Hb.
  destruct (decide (i = Z.of_nat k)) as [->|Hne].
  - rewrite at_index_store_eq in Hb by (by apply at_index_Some in Hn).
    rewrite Hn in Ha. injection Ha as <-. injection Hb as <-. right. eauto.
  - rewrite at_index_store_ne in Hb by done. left. congruence.
Qed.

Lemma rewritten_eraseNode a b : rewritten a b -> eraseNode b = eraseNode a.
Proof.
  intros [->|([Hw|Hs] & v & ->)]; [done | |]; by destruct a.
Qed.

Lemma Forall2_rewritten_erase nodes nodes' :
  Forall2 rewritten nodes nodes' -> map eraseNode nodes' = map eraseNode nodes.
Proof.
  induction 1 as [|a b l l' Hab _ IH]; [done|]. simpl.
  by rewrite IH, (rewritten_eraseNode a b).
Qed.

Section CallbackEffect.

Variable isStandardSyntaxValue : text -> bool.
Variable names : list text.
Variable context_fix : bool.
Variable valueIndex : Z.

Implicit Types (nodes : list Node) (st : State).

(** What the callback returns differs from the children it was given at
    most by the texts of words and spaces; it is the same list when fix
    mode is off, and when [needsFix] is not set afterwards. *)
Lemma checkFunctionNodes_effect nodes st st' nodes' :
  checkFunctionNodes isStandardSyntaxValue context_fix valueIndex nodes st
  = (st', Returned nodes') ->
  Forall2 rewritten nodes nodes'
  /\ (needsFix st' = false -> nodes' = nodes)
  /\ (context_fix = false -> nodes' = nodes).
Proof.
  intros Hrun. assert (nodes <> []) as Hne by (intros ->; discriminate Hrun).
  destruct (hasOperator nodes) eqn:Hop.
  - destruct (operatorLoop_summary context_fix valueIndex nodes st)
      as (st1 & nodes1 & new & Hloop & _ & Hlen & Hpt & _).
    rewrite Hop in Hloop.
    rewrite (checkFunctionNodes_spaced _ _ _ _ _ _ _ Hloop) in Hrun.
    injection Hrun as -> ->. split_and!.
    + apply Forall2_same_length_lookup_2; [done|].
      intros k a b Ha Hb. rewrite <- at_index_nat in Ha, Hb.
      rewrite Hpt, Ha in Hb. injection Hb as <-.
      destruct (_ && _); [apply rewritten_fixNode | apply rewritten_refl].
    + intros Hnf. destruct context_fix.
      * destruct (operatorLoop_fix valueIndex nodes st)
          as (st2 & nodes2 & Hloop2 & _ & Hpt2 & _ & Hfix).
        rewrite Hop, Hloop in Hloop2. injection Hloop2 as <- <-.
        apply at_index_ext. intros j. rewrite Hpt2.
        destruct (at_index nodes j) as [n|] eqn:E; simpl; [|done]. f_equal.
        case_decide as Hadj; [|done]. unfold fixNode.
        destruct (needsRewrite n) eqn:Hn; [|done].
        exfalso. apply not_true_iff_false in Hnf. apply Hnf, Hfix. right.
        exists j. split; [done|]. unfold needsRewriteAt. by rewrite E.
      * rewrite operatorLoop_check in Hloop. by injection Hloop as _ _ <-.
    + intros ->. rewrite operatorLoop_check in Hloop. by injection Hloop as _ _ <-.
  - rewrite checkFunctionNodes_glued in Hrun by done.
    destruct nodes as [|firstNode rest]; [done|].
    destruct (checkForOperatorInFirstNode_summary isStandardSyntaxValue context_fix
                valueIndex firstNode rest st)
      as (st1 & nodes1 & new1 & Hrun1 & _ & _ & Hskip & Hcheck1 & _ & Hshape1).
    rewrite (bind_returned _ _ _ _ _ Hrun1) in Hrun. simpl in Hrun.
    destruct (firstQualifies isStandardSyntaxValue (firstNode :: rest)) eqn:Hq.
    + injection Hrun as -> ->. split_and!.
      * destruct Hshape1 as [->|(Hw & _ & v' & ->)]; [apply Forall2_rewritten_refl|].
        constructor; [|apply Forall2_rewritten_refl]. right. eauto.
      * intros Hnf. destruct context_fix; [|by apply Hcheck1].
        rewrite checkForOperatorInFirstNode_fix in Hrun1 by done.
        destruct (gluedBothSides _ _); [|destruct (gluedBefore _ _)];
          injection Hrun1 as Hst Hnodes; subst; done.
      * intros H. by apply Hcheck1.
    + destruct (Hskip eq_refl) as [-> ->].
      destruct (checkForOperatorInLastNode_summary context_fix valueIndex (firstNode :: rest) st
                  ltac:(done))
        as (st2 & nodes2 & new2 & Hrun2 & _ & _ & Hskip2 & Hcheck2 & _ & Hshape2).
      rewrite (bind_returned _ _ _ _ _ Hrun2) in Hrun. simpl in Hrun.
      injection Hrun as -> ->. split_and!.
      * destruct Hshape2 as [->|(lastNode & v' & Hl & Hw & _ & ->)];
          [apply Forall2_rewritten_refl|].
        apply Forall2_rewritten_store; [|done].
        unfold at_ in Hl. simpl in Hl.
        by replace (Z.of_nat (length (firstNode :: rest)) - 1)
          with (Z.of_nat (length (firstNode :: rest)) + -1) by lia.
      * intros Hnf. destruct (lastFlagged (firstNode :: rest)) eqn:Hflag; [|by apply Hskip2].
        destruct context_fix; [|by apply Hcheck2].
        destruct (at_last_nonempty (firstNode :: rest) ltac:(done)) as [lastNode Hl].
        rewrite (checkForOperatorInLastNode_fix _ _ lastNode) in Hrun2 by done.
        injection Hrun2 as Hst Hnodes. subst. done.
      * intros H. by apply Hcheck2.
Qed.

Lemma callback_effect node st st' node' :
  callback isStandardSyntaxValue names context_fix valueIndex node st = (st', Returned node') ->
  eraseNode node' = eraseNode node
  /\ isFunction node' = isFunction node
  /\ (needsFix st' = false -> node' = node)
  /\ (context_fix = false -> node' = node).
Proof.
  destruct node as [| |i name b a u children| | | |];
    try (intros [= <- <-]; done).
  unfold callback. destruct (negb _); [intros [= <- <-]; done|].
  unfold bind.
  destruct (checkFunctionNodes _ _ _ children st) as [st1 [children1|e]] eqn:Hrun;
    [|discriminate].
  intros [= <- <-].
  destruct (checkFunctionNodes_effect _ _ _ _ Hrun) as (Hrw & Hnf & Hcheck).
  split_and!.
  - simpl. by rewrite (Forall2_rewritten_erase _ _ Hrw).
  - done.
  - intros H. by rewrite Hnf.
  - intros H. by rewrite Hcheck.
Qed.

(** [needsFix] is never reset. *)
Lemma checkFunctionNodes_needsFixStays nodes :
  keeps needsFixStays (checkFunctionNodes isStandardSyntaxValue context_fix valueIndex nodes).
Proof.
  intros st H.
  destruct nodes as [|firstNode rest]; [done|].
  destruct (checkFunctionNodes _ _ _ (firstNode :: rest) st) as [st' [nodes'|e]] eqn:Hrun.
  - simpl. destruct (needsFix st') eqn:E; [done|].
    destruct (checkFunctionNodes_summary isStandardSyntaxValue context_fix valueIndex
                (firstNode :: rest) st ltac:(done))
      as (st2 & nodes2 & new & Hrun2 & _ & _ & Hcheck & _).
    rewrite Hrun in Hrun2. injection Hrun2 as <- <-.
    destruct context_fix; [|destruct (Hcheck eq_refl); congruence].
    destruct (hasOperator (firstNode :: rest)) eqn:Hop.
    + destruct (operatorLoop_fix valueIndex (firstNode :: rest) st)
        as (st3 & nodes3 & Hloop & _ & _ & _ & Hfix).
      rewrite Hop in Hloop.
      rewrite (checkFunctionNodes_spaced _ _ _ _ _ _ _ Hloop) in Hrun.
      injection Hrun as <- _. rewrite <- E. apply Hfix. by left.
    + rewrite checkFunctionNodes_glued in Hrun by done.
      destruct (firstQualifies isStandardSyntaxValue (firstNode :: rest)) eqn:Hq.
      * pose proof (checkForOperatorInFirstNode_fix isStandardSyntaxValue valueIndex
                      firstNode rest st Hq) as Hf. simpl in Hf.
        destruct (gluedBothSides _ _); [|destruct (gluedBefore _ _)];
          rewrite (bind_returned _ _ _ _ _ Hf) in Hrun; simpl in Hrun;
          injection Hrun as <- _; simpl in E; congruence.
      * rewrite (bind_returned _ _ _ _ _
                   (checkForOperatorInFirstNode_skip isStandardSyntaxValue valueIndex true
                      (firstNode :: rest) st ltac:(done) Hq)) in Hrun.
        simpl in Hrun.
        destruct (lastFlagged (firstNode :: rest)) eqn:Hflag.
        -- destruct (at_last_nonempty (firstNode :: rest) ltac:(done)) as [lastNode Hl].
           rewrite (bind_returned _ _ _ _ _
                      (checkForOperatorInLastNode_fix valueIndex _ lastNode st Hflag Hl))
             in Hrun.
           simpl in Hrun. injection Hrun as <- _. simpl in E. congruence.
        -- rewrite (bind_returned _ _ _ _ _
                      (checkForOperatorInLastNode_skip valueIndex true (firstNode :: rest) st
                         ltac:(done) Hflag)) in Hrun.
           simpl in Hrun. injection Hrun as <- _. congruence.
  - exfalso.
    destruct (checkFunctionNodes_summary isStandardSyntaxValue context_fix valueIndex
                (firstNode :: rest) st ltac:(done)) as (st2 & nodes2 & new & Hrun2 & _).
    congruence.
Qed.

Lemma callback_needsFixStays node :
  keeps needsFixStays (callback isStandardSyntaxValue names context_fix valueIndex node).
Proof.
  destruct node; try (apply keeps_ret, _). unfold callback.
  destruct (negb _); [apply keeps_ret, _|].
  apply keeps_bind; [apply _ | apply checkFunctionNodes_needsFixStays|].
  intros nodes'. apply keeps_ret, _.
Qed.

End CallbackEffect.

Section WalkEffect.

Variable isStandardSyntaxValue : text -> bool.
Variable names : list text.
Variable context_fix : bool.
Variable valueIndex : Z.

Implicit Types (nodes : list Node) (st : State).

Lemma walk_needsFixStays fuel nodes :
  keeps needsFixStays (walk isStandardSyntaxValue names context_fix valueIndex fuel nodes).
Proof. apply walk_keeps; [apply _ | apply _ | apply callback_needsFixStays]. Qed.

Lemma walkChildren_needsFixStays fuel nodes :
  keeps needsFixStays
    (walkChildren isStandardSyntaxValue names context_fix valueIndex fuel nodes).
Proof. destruct fuel; [apply keeps_throw, _ | apply walk_needsFixStays]. Qed.

Lemma needsFix_false_before st st' :
  needsFixStays st st' -> needsFix st' = false -> needsFix st = false.
Proof. unfold needsFixStays. intros H H'. destruct (needsFix st); [|done]. by rewrite H in H'. Qed.

Lemma walk_effect_level fuel :
  (forall children st st' children',
      walkChildren isStandardSyntaxValue names context_fix valueIndex fuel children st
      = (st', Returned children') ->
      map eraseNode children' = map eraseNode children
      /\ (needsFix st' = false -> children' = children)
      /\ (context_fix = false -> children' = children)) ->
  forall nodes st st' nodes',
    walk isStandardSyntaxValue names context_fix valueIndex fuel nodes st
    = (st', Returned nodes') ->
    map eraseNode nodes' = map eraseNode nodes
    /\ (needsFix st' = false -> nodes' = nodes)
    /\ (context_fix = false -> nodes' = nodes).
Proof.
  intros Hchildren nodes. induction nodes as [|node rest IH]; intros st st' nodes' Hrun.
  { rewrite walk_nil in Hrun. by injection Hrun as <- <-. }
  rewrite walk_cons in Hrun. unfold bind in Hrun.
  destruct (callback _ _ _ _ node st) as [st1 [node1|e]] eqn:Hcb; [|discriminate].
  destruct (descend _ _ _ _ fuel node1 st1) as [st2 [node2|e]] eqn:Hdesc; [|discriminate].
  destruct (walk _ _ _ _ fuel rest st2) as [st3 [rest'|e]] eqn:Hrest; [|discriminate].
  injection Hrun as <- <-.
  destruct (callback_effect _ _ _ _ _ _ _ _ Hcb) as (Herase1 & Hfun1 & Hnf1 & Hcheck1).
  destruct (IH _ _ _ Hrest) as (Herase3 & Hnf3 & Hcheck3).
  pose proof (walk_needsFixStays fuel rest st2) as Hstay3. rewrite Hrest in Hstay3.
  simpl in Hstay3.
  assert (eraseNode node2 = eraseNode node1
          /\ (needsFix st2 = false -> node2 = node1 /\ needsFix st1 = false)
          /\ (context_fix = false -> node2 = node1)) as (Herase2 & Hnf2 & Hcheck2).
  { destruct node1 as [| |i name b a u children| | | |];
      try (injection Hdesc as <- <-; done).
    simpl in Hdesc. unfold bind in Hdesc.
    destruct (walkChildren _ _ _ _ fuel children st1) as [st2' [children'|e]] eqn:Hch;
      [|discriminate].
    injection Hdesc as <- <-.
    destruct (Hchildren _ _ _ _ Hch) as (He & Hn & Hc).
    pose proof (walkChildren_needsFixStays fuel children st1) as Hstay.
    rewrite Hch in Hstay. simpl in Hstay.
    split_and!.
    - simpl. by rewrite He.
    - intros H. split; [by rewrite Hn | by apply (needsFix_false_before st1 st2')].
    - intros H. by rewrite Hc. }
  split_and!.
  - simpl. by rewrite Herase3, Herase2, Herase1.
  - intros H. pose proof (needsFix_false_before _ _ Hstay3 H) as H2.
    destruct (Hnf2 H2) as [-> H1]. by rewrite (Hnf1 H1), (Hnf3 H).
  - intros H. by rewrite (Hcheck3 H), (Hcheck2 H), (Hcheck1 H).
Qed.

Lemma walk_effect fuel nodes st st' nodes' :
  walk isStandardSyntaxValue names context_fix valueIndex fuel nodes st
  = (st', Returned nodes') ->
  map eraseNode nodes' = map eraseNode nodes
  /\ (needsFix st' = false -> nodes' = nodes)
  /\ (context_fix = false -> nodes' = nodes).
Proof.
  revert nodes st st' nodes'. induction fuel as [|fuel IHfuel]; apply walk_effect_level.
  - intros children st st' children' H. discriminate H.
  - exact IHfuel.
Qed.

End WalkEffect.

(** A walk never changes the shape of the tree: the tree it returns has
    the same nodes in the same places, with the same function names,
    dividers, strings and source positions; only texts of words and of
    spaces can differ. *)
Theorem walk_keeps_shape
    (isStandardSyntaxValue : text -> bool) (names : list text) (context_fix : bool)
    (valueIndex : Z) (fuel : nat) (nodes nodes' : list Node) (st st' : State) :
  walk isStandardSyntaxValue names context_fix valueIndex fuel nodes st
  = (st', Returned nodes') ->
  map eraseNode nodes' = map eraseNode nodes.
Proof. intros H. by destruct (walk_effect _ _ _ _ _ _ _ _ _ H) as (? & _). Qed.

Lemma walk_keeps_shape_witness :
  map eraseNode
    [FunctionNode 0 (js "translate") [] [] false
       [FunctionNode 10 (js "calc") [] [] false
          [WordNode 15 (js "1px"); SpaceNode 18 (js " "); WordNode 19 (js "+");
           SpaceNode 20 (js " "); WordNode 21 (js "2px")];
        DivNode 24 (js ",") [] (js " "); StringNode 26 (js "a-b") (js "'") false]]
  = map eraseNode
      [FunctionNode 0 (js "translate") [] [] false
         [FunctionNode 10 (js "calc") [] [] false
            [WordNode 15 (js "1px"); SpaceNode 18 (js "   "); WordNode 19 (js "+");
             SpaceNode 20 (js " "); WordNode 21 (js "2px")];
          DivNode 24 (js ",") [] (js " "); StringNode 26 (js "a-b") (js "'") false]].
Proof.
  apply (walk_keeps_shape Model.isStandardSyntaxValue Model.singleArgumentMathFunctions true 0 2
           _ _ (mkState false []) (mkState true [])).
  reflexivity.
Defined.

(** A walk changes the tree only with [needsFix] set: when [needsFix] is
    not set after a walk, the tree returned is the tree given, so no
    rewrite is lost when the rule skips the serialization. *)
Theorem no_rewrite_without_needsFix
    (isStandardSyntaxValue : text -> bool) (names : list text) (context_fix : bool)
    (valueIndex : Z) (fuel : nat) (nodes nodes' : list Node) (st st' : State) :
  walk isStandardSyntaxValue names context_fix valueIndex fuel nodes st
  = (st', Returned nodes') ->
  needsFix st' = false ->
  nodes' = nodes.
Proof. intros H. by destruct (walk_effect _ _ _ _ _ _ _ _ _ H) as (_ & ? & _). Qed.

Lemma no_rewrite_without_needsFix_witness :
  [FunctionNode 0 (js "calc") [] [] false
     [WordNode 5 (js "1px"); SpaceNode 8 (js " "); WordNode 9 (js "+");
      SpaceNode 10 (js " "); WordNode 11 (js "2px-1px")]]
  = [FunctionNode 0 (js "calc") [] [] false
       [WordNode 5 (js "1px"); SpaceNode 8 (js " "); WordNode 9 (js "+");
        SpaceNode 10 (js " "); WordNode 11 (js "2px-1px")]].
Proof.
  apply (no_rewrite_without_needsFix Model.isStandardSyntaxValue
           Model.singleArgumentMathFunctions true 0 1 _ _ (mkState false [])
           (mkState false [])); reflexivity.
Defined.

(** With fix mode off a walk returns the tree it was given: check mode
    rewrites no token. *)
Theorem check_mode_keeps_tree
    (isStandardSyntaxValue : text -> bool) (names : list text)
    (valueIndex : Z) (fuel : nat) (nodes nodes' : list Node) (st st' : State) :
  walk isStandardSyntaxValue names false valueIndex fuel nodes st = (st', Returned nodes') ->
  nodes' = nodes.
Proof. intros H. destruct (walk_effect _ _ _ _ _ _ _ _ _ H) as (_ & _ & Hc). by apply Hc. Qed.

Lemma check_mode_keeps_tree_witness :
  [FunctionNode 0 (js "calc") [] [] false
     [WordNode 5 (js "1px+1px"); SpaceNode 12 (js "  "); WordNode 14 (js "-2")]]
  = [FunctionNode 0 (js "calc") [] [] false
       [WordNode 5 (js "1px+1px"); SpaceNode 12 (js "  "); WordNode 14 (js "-2")]].
Proof.
  apply (check_mode_keeps_tree Model.isStandardSyntaxValue Model.singleArgumentMathFunctions
           7 1 _ _ (mkState false [])
           (mkState false
              [mkWarning (expectedBefore (js "+")) 15 16;
               mkWarning (expectedAfter (js "+")) 16 17])).
  reflexivity.
Defined.

(** ** Values without a matched function *)

Lemma everyFunctionIn_impl (P Q : text -> list Node -> bool) :
  (forall name children, P name children = true -> Q name children = true) ->
  forall d nodes,
    (depth nodes <= d)%nat ->
    everyFunctionIn P nodes = true -> everyFunctionIn Q nodes = true.
Proof.
  intros HPQ d. induction d as [|d IHd];
    (intros nodes; induction nodes as [|n rest IH]; [done|]);
    simpl; fold (depth rest); fold (everyFunctionIn P rest); fold (everyFunctionIn Q rest);
    intros Hd [Hn Hrest]%andb_prop; apply andb_true_intro;
    (split; [|apply IH; [lia | done]]).
  - destruct n; try done. rewrite depthNode_function in Hd. lia.
  - destruct n as [| |i name b a u children| | | |]; try done.
    rewrite depthNode_function in Hd. rewrite everyFunction_function in Hn |- *.
    apply andb_prop in Hn as [HP Hch]. apply andb_true_intro. split; [by apply HPQ|].
    apply IHd; [lia | done].
Qed.

(** A value whose tree holds no function with a matched name, at any
    depth, is left alone in either mode, whatever else it holds: the
    declaration is as it was, nothing is reported and nothing is thrown. *)
Theorem unmatched_functions_left_alone
    (isStandardSyntaxValue : text -> bool) (names : list text)
    (valueParser : text -> list Node) (context_fix : bool) (decl : Declaration) :
  unmatched names (valueParser (declValue decl)) = true ->
  rule isStandardSyntaxValue names valueParser context_fix decl = mkRun decl [] None.
Proof.
  intros Hun. unfold rule, walkDeclsCallback, getDeclarationValue.
  destruct (negb (Str.test OPERATOR_REGEX (declValue decl))); [done|].
  destruct (negb (FUNC_CALLS_REGEX_test names (declValue decl))); [done|].
  assert (settled names (valueParser (declValue decl)) = true) as Hset.
  { unfold settled.
    apply (everyFunctionIn_impl
             (fun name _ => negb (FUNC_NAMES_REGEX_test names name))
             (fun name children =>
                negb (FUNC_NAMES_REGEX_test names name)
                || (hasOperator children && quietb children)))
      with (d := depth (valueParser (declValue decl)));
      [intros name children H; by rewrite H | lia | done]. }
  rewrite (bind_returned _ _ _ _ _
             (walk_settled isStandardSyntaxValue names (declValueIndex decl) context_fix
                (depth (valueParser (declValue decl))) (valueParser (declValue decl))
                (mkState false []) ltac:(lia) Hset)).
  reflexivity.
Qed.

Lemma unmatched_functions_left_alone_witness :
  Str.test OPERATOR_REGEX (js "xcalc(1px+1px  -  2px)") = true
  /\ FUNC_CALLS_REGEX_test Model.singleArgumentMathFunctions (js "xcalc(1px+1px  -  2px)")
     = true
  /\ Model.valueParser (js "xcalc(1px+1px  -  2px)")
     = [FunctionNode 0 (js "xcalc") [] [] false
          [WordNode 6 (js "1px+1px"); SpaceNode 13 (js "  "); WordNode 15 (js "-");
           SpaceNode 16 (js "  "); WordNode 18 (js "2px")]]
  /\ rule Model.isStandardSyntaxValue Model.singleArgumentMathFunctions Model.valueParser true
       (mkDecl (js "xcalc(1px+1px  -  2px)") 0)
     = mkRun (mkDecl (js "xcalc(1px+1px  -  2px)") 0) [] None.
Proof.
  split_and!; [reflexivity | reflexivity | reflexivity |].
  apply (unmatched_functions_left_alone Model.isStandardSyntaxValue
           Model.singleArgumentMathFunctions Model.valueParser true
           (mkDecl (js "xcalc(1px+1px  -  2px)") 0)).
  reflexivity.
Defined.

(** ** Running the leading-sign check again *)

Lemma search_operator_split v i :
  Str.search OPERATOR_REGEX v = i -> 0 <= i ->
  exists pre c post,
    v = pre ++ c :: post /\ Str.len pre = i /\ OPERATOR_REGEX (c :: post) = true
    /\ Forall (fun ch => OPERATOR_REGEX [ch] = false) pre.
Proof.
  intros Hs Hi.
  destruct (search_split OPERATOR_REGEX v i Hs Hi) as (pre & c & post & Hv & Hlen & Hc).
  destruct (search_found OPERATOR_REGEX v i Hs Hi) as [_ Hbefore].
  exists pre, c, post. split_and!; try done.
  apply Forall_lookup. intros j ch Hj.
  assert (j < Z.to_nat i)%nat as Hlt.
  { apply lookup_lt_Some in Hj. unfold Str.len in Hlen. lia. }
  specialize (Hbefore j Hlt).
  assert (v !! j = Some ch) as Hvj by (rewrite Hv; by apply lookup_app_l_Some).
  by rewrite (drop_S _ _ _ Hvj) in Hbefore.
Qed.

Lemma search_operator_first pre x :
  Forall (fun ch => OPERATOR_REGEX [ch] = false) pre -> OPERATOR_REGEX x = true ->
  Str.search OPERATOR_REGEX (pre ++ x) = Str.len pre.
Proof.
  intros Hpre Hx. induction Hpre as [|ch pre Hch _ IH].
  - change (Str.search OPERATOR_REGEX x = 0).
    apply search_zero. split; [|done]. intros ->. discriminate.
  - simpl app. cbn [Str.search].
    assert (OPERATOR_REGEX (ch :: pre ++ x) = false) as -> by exact Hch.
    rewrite IH. unfold Str.len. simpl length.
    destruct (Z.ltb_spec (Z.of_nat (length pre)) 0); lia.
Qed.

Section LeadingAgain.

Variable isStandardSyntaxValue : text -> bool.
Variable valueIndex : Z.

(** A first child that the check examines and finds with a space before
    its first operator, or at the start of the word, is left alone. *)
Lemma checkForOperatorInFirstNode_quiet (context_fix : bool) firstNode rest st :
  firstQualifies isStandardSyntaxValue (firstNode :: rest) = true ->
  gluedBefore (value firstNode) (Str.search OPERATOR_REGEX (value firstNode)) = false ->
  checkForOperatorInFirstNode isStandardSyntaxValue context_fix valueIndex
    (firstNode :: rest) st
  = (st, Returned (true, firstNode :: rest)).
Proof.
  intros Hq Hb.
  assert (gluedBothSides (value firstNode) (Str.search OPERATOR_REGEX (value firstNode)) = false)
    as Hboth.
  { unfold gluedBothSides. unfold gluedBefore in Hb. by rewrite Hb. }
  destruct context_fix.
  - rewrite checkForOperatorInFirstNode_fix by done. simpl. by rewrite Hboth, Hb.
  - rewrite checkForOperatorInFirstNode_check by done. simpl. rewrite Hboth, Hb.
    destruct st. simpl. by rewrite app_nil_r.
Qed.

Lemma gluedBefore_after_space pre x :
  gluedBefore (pre ++ js " " ++ x) (Str.len (pre ++ js " ")) = false.
Proof.
  unfold gluedBefore.
  replace (Str.len (pre ++ js " ") - 1) with (Str.len pre)
    by (unfold Str.len; rewrite length_app; simpl; lia).
  change (js " " ++ x) with (" "%char :: x). rewrite charAt_app. reflexivity.
Qed.

Lemma fixed_word_quiet (context_fix : bool) si pre x rest st :
  Forall (fun ch => OPERATOR_REGEX [ch] = false) pre -> OPERATOR_REGEX x = true ->
  exists verdict,
    checkForOperatorInFirstNode isStandardSyntaxValue context_fix valueIndex
      (WordNode si (pre ++ js " " ++ x) :: rest) st
    = (st, Returned (verdict, WordNode si (pre ++ js " " ++ x) :: rest)).
Proof.
  intros Hpre Hx.
  assert (Str.search OPERATOR_REGEX (pre ++ js " " ++ x) = Str.len (pre ++ js " ")) as Hs.
  { rewrite app_assoc. apply search_operator_first; [|done].
    apply Forall_app. split; [done|]. by repeat constructor. }
  destruct (firstQualifies isStandardSyntaxValue (WordNode si (pre ++ js " " ++ x) :: rest))
    eqn:Hq.
  - exists true. apply checkForOperatorInFirstNode_quiet; [done|].
    cbn [value]. rewrite Hs. apply gluedBefore_after_space.
  - exists false. by apply checkForOperatorInFirstNode_skip.
Qed.

End LeadingAgain.

(** The fix of the leading-sign check is settled on the tree: on the
    children that the check returns in fix mode, the check, in either
    mode, reports nothing and changes nothing. *)
Theorem leading_fix_settles
    (isStandardSyntaxValue : text -> bool) (valueIndex : Z)
    (nodes nodes1 : list Node) (st st1 : State) (verdict : bool) :
  checkForOperatorInFirstNode isStandardSyntaxValue true valueIndex nodes st
  = (st1, Returned (verdict, nodes1)) ->
  forall (context_fix : bool) st2,
  exists verdict',
    checkForOperatorInFirstNode isStandardSyntaxValue context_fix valueIndex nodes1 st2
    = (st2, Returned (verdict', nodes1)).
Proof.
  intros Hrun context_fix st2.
  destruct nodes as [|firstNode rest]; [discriminate Hrun|].
  destruct (firstQualifies isStandardSyntaxValue (firstNode :: rest)) eqn:Hq.
  - pose proof (firstQualifies_word _ _ _ Hq) as Hw.
    destruct firstNode as [si v| | | | | |]; try discriminate.
    rewrite checkForOperatorInFirstNode_fix in Hrun by done. simpl in Hrun.
    assert (0 < Str.search OPERATOR_REGEX v) as Hpos.
    { unfold firstQualifies in Hq. simpl in Hq.
      apply andb_prop in Hq as [_ Hq]. by apply Z.ltb_lt in Hq. }
    destruct (search_operator_split v _ eq_refl ltac:(lia))
      as (pre & c & post & Hv & Hlen & Hc & Hpre).
    subst v. rewrite <- Hlen in Hrun.
    destruct (gluedBothSides _ _) eqn:Hboth; [|destruct (gluedBefore _ _) eqn:Hbefore].
    + rewrite insert_space_both_sides in Hrun. injection Hrun as _ _ <-.
      by apply (fixed_word_quiet isStandardSyntaxValue valueIndex context_fix si pre
                  (c :: js " " ++ post)).
    + rewrite insertCharAtIndex_app in Hrun. injection Hrun as _ _ <-.
      by apply (fixed_word_quiet isStandardSyntaxValue valueIndex context_fix si pre
                  (c :: post)).
    + injection Hrun as _ _ <-. exists true.
      apply checkForOperatorInFirstNode_quiet; [done|]. cbn [value]. by rewrite <- Hlen.
  - rewrite checkForOperatorInFirstNode_skip in Hrun by done.
    injection Hrun as _ _ <-. exists false. by apply checkForOperatorInFirstNode_skip.
Qed.

Lemma leading_fix_settles_witness :
  exists verdict',
    checkForOperatorInFirstNode Model.isStandardSyntaxValue false 0
      [WordNode 5 (js "1px + 1px-2px"); SpaceNode 16 (js " "); WordNode 17 (js "-3")]
      (mkState false [])
    = (mkState false [],
       Returned
         (verdict',
          [WordNode 5 (js "1px + 1px-2px"); SpaceNode 16 (js " "); WordNode 17 (js "-3")])).
Proof.
  apply (leading_fix_settles Model.isStandardSyntaxValue 0
           [WordNode 5 (js "1px+1px-2px"); SpaceNode 16 (js " "); WordNode 17 (js "-3")]
           [WordNode 5 (js "1px + 1px-2px"); SpaceNode 16 (js " "); WordNode 17 (js "-3")]
           (mkState false []) (mkState true []) true eq_refl false (mkState false [])).
Defined.

(** ** Every badly spaced side is reported *)

(** In check mode, for every standalone operator among the children and
    each of its sides, when the neighbour on that side is a space that is
    not a single space and does not begin with a newline, the spacing
    diagnostic of that operator and side is among the diagnostics after the
    callback. *)
Theorem bad_space_is_reported
    (isStandardSyntaxValue : text -> bool) (valueIndex k : Z)
    (nodes : list Node) (op sp : Node) (position : Position) (st : State) :
  at_index nodes k = Some op ->
  isOperator (Some op) OPERATORS = true ->
  at_index nodes (neighbourIndex k position) = Some sp ->
  isSpace sp = true ->
  Str.eqb (value sp) (js " ") = false ->
  NEWLINE_REGEX (value sp) = false ->
  spacingWarning valueIndex op position
  ∈ warnings (checkFunctionNodes isStandardSyntaxValue false valueIndex nodes st).1.
Proof.
  intros Hk Hop Hn Hsp Hne Hnl.
  assert (hasOperator nodes = true) as Hhas.
  { apply hasOperator_true. exists k. unfold operatorAt. by rewrite Hk. }
  pose proof (operatorLoop_check valueIndex nodes st) as Hloop.
  rewrite hasOperator_seqZ, Hhas in Hloop.
  rewrite (checkFunctionNodes_spaced _ _ _ _ _ _ _ Hloop). simpl.
  apply elem_of_app. right. apply list_elem_of_In, in_concat.
  exists (stepWarnings valueIndex nodes k). split.
  - apply in_map, list_elem_of_In, elem_of_seqZ. apply at_index_Some in Hk. lia.
  - apply list_elem_of_In. unfold stepWarnings. rewrite Hk, Hop.
    assert (needsRewrite sp = true) as Hnr.
    { apply needsRewrite_true. split_and!; [done | by apply eqb_false | done]. }
    apply elem_of_app. unfold sideWarning.
    destruct position; simpl in Hn; [left|right]; rewrite Hn, Hnr; by left.
Qed.

Lemma bad_space_is_reported_witness :
  spacingWarning 7 (WordNode 9 (js "-")) after_
  ∈ warnings
      (checkFunctionNodes Model.isStandardSyntaxValue false 7
         [WordNode 5 (js "1px"); SpaceNode 8 (js " "); WordNode 9 (js "-");
          SpaceNode 10 (js "  "); WordNode 12 (js "2px")] (mkState false [])).1.
Proof.
  apply (bad_space_is_reported Model.isStandardSyntaxValue 7 2
           [WordNode 5 (js "1px"); SpaceNode 8 (js " "); WordNode 9 (js "-");
            SpaceNode 10 (js "  "); WordNode 12 (js "2px")]
           (WordNode 9 (js "-")) (SpaceNode 10 (js "  ")) after_ (mkState false []));
    reflexivity.
Defined.

(** ** What a run writes back *)

(** A run leaves the offset of the value alone, and writes a value back
    only in fix mode and when it does not throw; the value written is the
    serialization of a tree of the same shape as the tree that the
    tokenizer gave: only texts of words and of spaces can differ. *)
Theorem run_writes_same_shape
    (isStandardSyntaxValue : text -> bool) (names : list text)
    (valueParser : text -> list Node) (context_fix : bool) (decl : Declaration) :
  declValueIndex
    (declAfter (rule isStandardSyntaxValue names valueParser context_fix decl))
  = declValueIndex decl
  /\ (declAfter (rule isStandardSyntaxValue names valueParser context_fix decl) = decl
      \/ (context_fix = true
          /\ thrown (rule isStandardSyntaxValue names valueParser context_fix decl) = None
          /\ exists nodes',
               declValue
                 (declAfter (rule isStandardSyntaxValue names valueParser context_fix decl))
               = toString nodes'
               /\ map eraseNode nodes' = map eraseNode (valueParser (declValue decl)))).
Proof.
  unfold rule, walkDeclsCallback, getDeclarationValue.
  destruct (negb (Str.test OPERATOR_REGEX (declValue decl))); [by split; [|left]|].
  destruct (negb (FUNC_CALLS_REGEX_test names (declValue decl))); [by split; [|left]|].
  unfold bind, getNeedsFix.
  destruct (walk _ _ _ _ _ _ _) as [st' [nodes'|e]] eqn:Hrun; [|by split; [|left]].
  destruct (needsFix st') eqn:Hnf; simpl; [|by split; [|left]].
  split; [done|]. right.
  destruct (walk_effect _ _ _ _ _ _ _ _ _ Hrun) as (Herase & _ & Hcheck).
  split_and!.
  - destruct context_fix; [done|].
    pose proof (walk_check_needsFix isStandardSyntaxValue names (declValueIndex decl)
                  (depth (valueParser (declValue decl))) (valueParser (declValue decl))
                  (mkState false [])) as H.
    rewrite Hrun in H. simpl in H. congruence.
  - done.
  - by exists nodes'.
Qed.

(** ** Running the rule on its own output *)

(** *** What the checks of one level see *)



















(** *** A walk over a calm tree *)

Section WalkCalm.

Variable isStandardSyntaxValue : text -> bool.
Variable names : list text.
Variable valueIndex : Z.

Implicit Types (nodes : list Node) (st : State).




End WalkCalm.

(** *** Words cut at their spaces *)












(** *** Spaces next to a separated sign *)




(** *** The children that the fix leaves, read again *)






Section FixThenReread.

Variable isStandardSyntaxValue : text -> bool.
Variable valueIndex : Z.

Implicit Types (nodes rest : list Node) (st : State).





End FixThenReread.

(** *** The tree that the fix leaves, read again *)


Section FixThenWalkAgain.

Variable isStandardSyntaxValue : text -> bool.
Variable names : list text.
Variable valueIndex : Z.

Implicit Types (nodes : list Node) (st : State).



End FixThenWalkAgain.





(** Of the conditions of the amended statement, that value fails the one
    on the separated sign, and no other. *)
Example counterexample_value_exposes :
  let tree := Model.valueParser (js "calc(1px+  2px)") in
  noEmptyMatched Model.singleArgumentMathFunctions tree = true
  /\ plainWords Model.singleArgumentMathFunctions tree = true
  /\ noSignExposed Model.isStandardSyntaxValue Model.singleArgumentMathFunctions tree = false
  /\ map forgetIndex
       (Model.valueParser
          (declValue (declAfter (Model.rule true (mkDecl (js "calc(1px+  2px)") 0)))))
     = reread (walked Model.isStandardSyntaxValue Model.singleArgumentMathFunctions 0 tree).
Proof. by split_and!. Qed.
